(** * Search_Cuda: the CUDA decoding search of onnxruntime-genai

    A shallow embedding of [src/Generators/Search_Cuda.cpp]: the score
    buffer ([SetLogits], [GetScores]), the [MinLength] processor, the
    greedy and beam-search steps and their termination tests.

    Conventions.
    - [int] and [size_t] values are integers in [Z]; signed overflow and
      division by zero are undefined in C++, so the theorems that depend
      on such arithmetic assume [params_ok], which keeps every product
      inside the [int] range and every divisor positive.
    - [assert(e)] is the C assertion of a build in which [NDEBUG] is not
      defined: a failed assertion aborts, [Fatal AssertFailed].
    - [CudaCheck() == call] aborts through [OnCudaError] when the call
      reports an error, [Fatal CudaFailed].
    - [ScoreType] is [float] in the source.  It is kept abstract here:
      the code under study only copies scores, compares them and hands
      them to kernels.
    - Work given to [params_.cuda_stream] is asynchronous.  The kernels of
      the stream run in launch order, and the device memory of the model
      is the memory in that order; the stream records which kernels are
      still in flight, because the host is sure of their effects only
      after [cudaStreamSynchronize]. *)

From Stdlib Require Import ZArith Lia.
From stdpp Require Import base list sorting strings gmap.

Local Open Scope Z_scope.

(** ** Outcomes of a host call *)

Inductive failure : Type :=
| AssertFailed
| CudaFailed.

Inductive outcome (A : Type) : Type :=
| Ok (a : A)
| Fatal (why : failure).

Arguments Ok {A} a.
Arguments Fatal {A} why.

#[global] Instance outcome_ret : MRet outcome := λ A a, Ok a.

#[global] Instance outcome_bind : MBind outcome := λ A B f m,
  match m with
  | Ok a => f a
  | Fatal why => Fatal why
  end.

Definition assert (e : bool) : outcome unit :=
  if e then Ok tt else Fatal AssertFailed.

(** [for (int i = first; ...; i++) body], run [n] times. *)
Fixpoint for_loop {St : Type} (n : nat) (i : Z)
    (body : Z → St → outcome St) (st : St) : outcome St :=
  match n with
  | O => Ok st
  | S n' => st' ← body i st; for_loop n' (i + 1) body st'
  end.

(** ** Search parameters *)

Record SearchParams : Type := {
  batch_size : Z;
  num_beams : Z;
  vocab_size : Z;
  max_length : Z;
  eos_token_id : Z;
  pad_token_id : Z
}.

(** Modelled from the spec: [SearchParams_Cuda::BatchBeamSize] is declared in
    a header that is not part of the sources; the spec fixes
    [batch_beam_size = batch_size × num_beams]. *)
Definition BatchBeamSize (p : SearchParams) : Z := batch_size p * num_beams p.

Definition INT_MAX : Z := 2147483647.

(** Parameters for which the [int] arithmetic of the source is defined:
    positive dimensions, and a score matrix whose size fits an [int]. *)
Record params_ok (p : SearchParams) : Prop := {
  batch_size_pos : 0 < batch_size p;
  num_beams_pos : 0 < num_beams p;
  vocab_size_pos : 0 < vocab_size p;
  matrix_fits : BatchBeamSize p * vocab_size p ≤ INT_MAX
}.

(** The end-of-sequence id names a vocabulary entry. *)
Definition eos_ok (p : SearchParams) : Prop :=
  0 ≤ eos_token_id p < vocab_size p.

(** ** Spans *)

(** A [std::span] into a buffer: first element and element count. *)
Record span : Type := Span { span_data : Z; span_size : Z }.

Definition subspan (sp : span) (offset count : Z) : span :=
  Span (span_data sp + offset) count.

Definition span_range (sp : span) (j : Z) : Prop :=
  span_data sp ≤ j < span_data sp + span_size sp.

Section Buffers.
Context {A : Type}.

(** The elements a span designates. *)
Definition span_read (buf : list A) (sp : span) : list A :=
  take (Z.to_nat (span_size sp)) (drop (Z.to_nat (span_data sp)) buf).

(** [sp[j] = x].  Outside the span the C++ store is undefined; here it
    lands where the address arithmetic puts it, or nowhere when that is
    outside the buffer. *)
Definition span_store (buf : list A) (sp : span) (j : Z) (x : A) : list A :=
  <[Z.to_nat (span_data sp + j) := x]> buf.

(** Overwrite [buf] from position [dst] with [data]. *)
Definition write_at (dst : Z) (data : list A) (buf : list A) : list A :=
  list_inserts (Z.to_nat dst) data buf.
End Buffers.

(** ** Sequences *)

(** Modelled from the spec: the class [Sequences_Cuda] is not part of the
    sources.  The spec describes it as a growable token buffer with one
    sequence per (batch, beam) slot, which appends one token per slot and
    step and reports the current length. *)
Record Sequences : Type := {
  slots : list (list Z);
  current_length_ : Z
}.

(** Modelled from the spec: [Sequences_Cuda::GetSequenceLength] reports the
    current length. *)
Definition Sequences_GetSequenceLength (q : Sequences) : Z := current_length_ q.

(** Modelled from the spec: [Sequences_Cuda::AppendNextTokenToSequences]
    appends one token to every slot. *)

Definition Sequences_AppendNextTokenToSequences
    (next_tokens : list Z) (q : Sequences) : Sequences :=
  {| slots := imap (λ i sl, sl ++ [default 0 (next_tokens !! i)]) (slots q);
     current_length_ := current_length_ q + 1 |}.

(** ** Top-k selection *)

(** Three ways to take the [k] best elements of a list under an order [R]
    ([R x y]: [x] is ranked no later than [y]): the selection and the
    bounded merge that the spec gives to the two stages of
    [cuda::BeamSearchTopK], whose code is not part of the sources, and the
    full sort the spec compares them with. *)
Section TopK.
Context {A : Type} (R : relation A) `{!RelDecision R}.

(** One reduction pass over [x :: l]: the best element and the others. *)
Fixpoint extract_best (x : A) (l : list A) : A * list A :=
  match l with
  | [] => (x, [])
  | y :: l' =>
      if decide (R x y)
      then let '(b, rest) := extract_best x l' in (b, y :: rest)
      else let '(b, rest) := extract_best y l' in (b, x :: rest)
  end.

(** Modelled from the spec: the "parallel selection/reduction" of the
    partition stage, as [k] reduction passes that each remove the best
    element. *)
Fixpoint select_topk (k : nat) (l : list A) : list A :=
  match k, l with
  | S k', x :: l' =>
      let '(b, rest) := extract_best x l' in b :: select_topk k' rest
  | _, _ => []
  end.

Fixpoint insert_sorted (x : A) (l : list A) : list A :=
  match l with
  | [] => [x]
  | y :: l' =>
      if decide (R x y) then x :: y :: l' else y :: insert_sorted x l'
  end.

(** Modelled from the spec: the "bounded priority-merge" of the merge
    stage, a sorted queue that never holds more than [k] elements. *)
Definition bounded_push (k : nat) (x : A) (queue : list A) : list A :=
  take k (insert_sorted x queue).

(** Modelled from the spec: the partial lists go through the queue. *)
Definition bounded_merge (k : nat) (lists : list (list A)) : list A :=
  foldr (bounded_push k) [] (concat lists).

(** The reference, in the spec's words a "naive full-vocabulary
    sort-and-take-k": sort everything, keep the first [k]. *)
Definition naive_topk (k : nat) (l : list A) : list A :=
  take k (merge_sort R l).

(** The unbounded queue, used to relate the merge to the full sort. *)
Definition insertion_sort (l : list A) : list A := foldr insert_sorted [] l.
End TopK.

(** A ranking of [B] seen on [A] through a map [f]. *)
Definition pulled {A B : Type} (f : A → B) (R : relation B) : relation A :=
  λ x y, R (f x) (f y).

#[global] Instance pulled_dec {A B : Type} (f : A → B) (R : relation B)
    `{!RelDecision R} : RelDecision (pulled f R) :=
  λ x y, decide (R (f x) (f y)).

(** Modelled from the spec: the vocabulary is split into contiguous parts;
    the [n] consecutive parts of [size] elements of a row. *)
Definition parts_of {A : Type} (n size : nat) (row : list A) : list (list A) :=
  (λ q, take size (drop (q * size) row)) <$> seq 0 n.

(** ** Device kernels and the stream *)

Inductive Kernel : Type :=
| K_memcpy
| K_log_softmax
| K_AddProbs
| K_TopK_1st_stage
| K_TopK_2nd_stage
| K_SoftMax
| K_CheckForEOS.

(** [params_.cuda_stream].  The kernels of one stream run in launch order,
    and that order is how their effects are applied to the device memory
    below; [in_flight] lists the kernels launched since the host last
    waited for the stream, whose results the host may not read yet, and
    [completed] those the host has waited for. *)
Record Stream : Type := {
  completed : list Kernel;
  in_flight : list Kernel;
  healthy : bool
}.

Definition launch (k : Kernel) (st : Stream) : Stream :=
  {| completed := completed st;
     in_flight := in_flight st ++ [k];
     healthy := healthy st |}.

(** [CudaCheck() == call]: [OnCudaError] aborts when the device reports an
    error. *)
Definition CudaCheck (st : Stream) : outcome unit :=
  if healthy st then Ok tt else Fatal CudaFailed.

Definition cudaStreamSynchronize (st : Stream) : outcome Stream :=
  CudaCheck st;;
  Ok {| completed := completed st ++ in_flight st;
        in_flight := [];
        healthy := healthy st |}.

(** ** The search objects *)

Section SearchData.
Context {ScoreType : Type}.

(** A top-k candidate of one batch element: a score and its position
    [beam × vocab_size + token] in the flattened candidate space. *)
Record Candidate : Type := {
  cand_score : ScoreType;
  cand_id : nat
}.

(** Modelled from the spec: [BeamSearchScorer_Cuda] is not part of the
    sources.  Per batch element the spec keeps the live hypotheses, each
    with a done flag, the pool of completed hypotheses and the DONE state;
    the scorer is built from the search parameters and sees the sequences
    at each [Process]. *)
Record BeamHypothesis : Type := {
  hyp_score : ScoreType;
  hyp_slot : Z;
  hyp_done : bool
}.

(** Modelled from the spec: the state of one batch element. *)
Record BeamState : Type := {
  live : list BeamHypothesis;
  finished : list BeamHypothesis;
  beam_done : bool
}.

(** Modelled from the spec: the scorer, with the next scores, tokens and
    beam indices it exposes. *)
Record BeamSearchScorer : Type := {
  scorer_num_beams : Z;
  scorer_max_length : Z;
  scorer_length : Z;
  beams : list BeamState;
  next_beam_scores : list ScoreType;
  next_beam_tokens : list Z;
  next_beam_indices : list Z
}.

(** Modelled from the spec: [BeamSearchScorer_Cuda::GetNextScores], the
    cumulative scores of the live beams. *)
Definition Scorer_GetNextScores (sc : BeamSearchScorer) : list ScoreType :=
  next_beam_scores sc.

(** Modelled from the spec: [BeamSearchScorer_Cuda::GetNextTokens]. *)
Definition Scorer_GetNextTokens (sc : BeamSearchScorer) : list Z :=
  next_beam_tokens sc.

(** Modelled from the spec: first DONE trigger of a batch element,
    [num_beams] completions are collected. *)
Definition completions_collected (sc : BeamSearchScorer) (b : BeamState) : bool :=
  scorer_num_beams sc <=? Z.of_nat (length (finished b)).

(** Modelled from the spec: second DONE trigger, all live beams have
    terminated. *)
Definition live_beams_terminated (b : BeamState) : bool :=
  forallb hyp_done (live b).

(** Modelled from the spec: third DONE trigger, the length cap is hit. *)
Definition length_cap_hit (sc : BeamSearchScorer) : bool :=
  scorer_max_length sc <=? scorer_length sc.

(** Modelled from the spec: the transition ACTIVE → DONE of one batch
    element; DONE is final. *)
Definition BeamState_update (sc : BeamSearchScorer) (b : BeamState) : BeamState :=
  {| live := live b;
     finished := finished b;
     beam_done := beam_done b || completions_collected sc b
                  || live_beams_terminated b || length_cap_hit sc |}.

(** Modelled from the spec: [BeamSearchScorer_Cuda::IsDone] takes the
    per-batch transitions to DONE. *)
Definition Scorer_IsDone (sc : BeamSearchScorer) : BeamSearchScorer :=
  {| scorer_num_beams := scorer_num_beams sc;
     scorer_max_length := scorer_max_length sc;
     scorer_length := scorer_length sc;
     beams := BeamState_update sc <$> beams sc;
     next_beam_scores := next_beam_scores sc;
     next_beam_tokens := next_beam_tokens sc;
     next_beam_indices := next_beam_indices sc |}.

(** Modelled from the spec: [BeamSearchScorer_Cuda::IsDoneLater] reports
    whether all batch elements have reached DONE. *)
Definition Scorer_IsDoneLater (sc : BeamSearchScorer) : bool :=
  forallb beam_done (beams sc).

(** Device buffers owned by the search.  [topk_buffer_] is carved by the
    source into the scratch areas of the two top-k stages; each area is
    kept here as the candidate lists it holds, per batch element and
    beam (and, after the first stage, per vocabulary part). *)
Record DeviceMem : Type := {
  next_token_scores_ : list ScoreType;
  next_tokens_ : list Z;
  eos_meet_ : list bool;
  done_cpu_ : bool;
  topk_1st_stage : list (list (list (list Candidate)));
  topk_2nd_stage : list (list (list Candidate));
  topk_next_scores_ : list ScoreType;
  topk_next_tokens_ : list Z;
  topk_next_indices_ : list Z
}.

(** What one call of [BeamScorer.Process] was given, and the device work
    that was still in flight when it was called. *)
Record ProcessCall : Type := {
  seen_completed : list Kernel;
  seen_in_flight : list Kernel;
  seen_scores : list ScoreType;
  seen_tokens : list Z;
  seen_indices : list Z
}.

Record Search_Cuda : Type := {
  params_ : SearchParams;
  sequences_ : Sequences;
  mem : DeviceMem;
  cuda_stream : Stream;
  beam_scorer_ : BeamSearchScorer;
  process_calls : list ProcessCall
}.

Definition with_scores (v : list ScoreType) (m : DeviceMem) : DeviceMem :=
  {| next_token_scores_ := v; next_tokens_ := next_tokens_ m;
     eos_meet_ := eos_meet_ m; done_cpu_ := done_cpu_ m;
     topk_1st_stage := topk_1st_stage m; topk_2nd_stage := topk_2nd_stage m;
     topk_next_scores_ := topk_next_scores_ m;
     topk_next_tokens_ := topk_next_tokens_ m;
     topk_next_indices_ := topk_next_indices_ m |}.

Definition with_tokens (v : list Z) (m : DeviceMem) : DeviceMem :=
  {| next_token_scores_ := next_token_scores_ m; next_tokens_ := v;
     eos_meet_ := eos_meet_ m; done_cpu_ := done_cpu_ m;
     topk_1st_stage := topk_1st_stage m; topk_2nd_stage := topk_2nd_stage m;
     topk_next_scores_ := topk_next_scores_ m;
     topk_next_tokens_ := topk_next_tokens_ m;
     topk_next_indices_ := topk_next_indices_ m |}.

Definition with_eos (v : list bool) (d : bool) (m : DeviceMem) : DeviceMem :=
  {| next_token_scores_ := next_token_scores_ m; next_tokens_ := next_tokens_ m;
     eos_meet_ := v; done_cpu_ := d;
     topk_1st_stage := topk_1st_stage m; topk_2nd_stage := topk_2nd_stage m;
     topk_next_scores_ := topk_next_scores_ m;
     topk_next_tokens_ := topk_next_tokens_ m;
     topk_next_indices_ := topk_next_indices_ m |}.

Definition with_1st_stage (v : list (list (list (list Candidate))))
    (m : DeviceMem) : DeviceMem :=
  {| next_token_scores_ := next_token_scores_ m; next_tokens_ := next_tokens_ m;
     eos_meet_ := eos_meet_ m; done_cpu_ := done_cpu_ m;
     topk_1st_stage := v; topk_2nd_stage := topk_2nd_stage m;
     topk_next_scores_ := topk_next_scores_ m;
     topk_next_tokens_ := topk_next_tokens_ m;
     topk_next_indices_ := topk_next_indices_ m |}.

Definition with_2nd_stage (v : list (list (list Candidate)))
    (sc : list ScoreType) (tk ix : list Z) (m : DeviceMem) : DeviceMem :=
  {| next_token_scores_ := next_token_scores_ m; next_tokens_ := next_tokens_ m;
     eos_meet_ := eos_meet_ m; done_cpu_ := done_cpu_ m;
     topk_1st_stage := topk_1st_stage m; topk_2nd_stage := v;
     topk_next_scores_ := sc;
     topk_next_tokens_ := tk;
     topk_next_indices_ := ix |}.

Definition on_mem (f : DeviceMem → DeviceMem) (s : Search_Cuda) : Search_Cuda :=
  {| params_ := params_ s; sequences_ := sequences_ s; mem := f (mem s);
     cuda_stream := cuda_stream s; beam_scorer_ := beam_scorer_ s;
     process_calls := process_calls s |}.

Definition on_stream (f : Stream → Stream) (s : Search_Cuda) : Search_Cuda :=
  {| params_ := params_ s; sequences_ := sequences_ s; mem := mem s;
     cuda_stream := f (cuda_stream s); beam_scorer_ := beam_scorer_ s;
     process_calls := process_calls s |}.

Definition on_sequences (f : Sequences → Sequences) (s : Search_Cuda) : Search_Cuda :=
  {| params_ := params_ s; sequences_ := f (sequences_ s); mem := mem s;
     cuda_stream := cuda_stream s; beam_scorer_ := beam_scorer_ s;
     process_calls := process_calls s |}.

Definition on_scorer (f : BeamSearchScorer → BeamSearchScorer)
    (s : Search_Cuda) : Search_Cuda :=
  {| params_ := params_ s; sequences_ := sequences_ s; mem := mem s;
     cuda_stream := cuda_stream s; beam_scorer_ := f (beam_scorer_ s);
     process_calls := process_calls s |}.

(** A kernel launch: the effect [f] of the kernel on the device memory,
    in stream order, and the kernel recorded as in flight.  What the host
    reads from or stores into this memory is what the device holds only
    when nothing is in flight, that is after the host has waited for the
    stream; statements about host accesses say where that is the case. *)
Definition run_kernel (k : Kernel) (f : DeviceMem → DeviceMem)
    (s : Search_Cuda) : Search_Cuda :=
  on_stream (launch k) (on_mem f s).

End SearchData.

Arguments Candidate : clear implicits.
Arguments BeamHypothesis : clear implicits.
Arguments BeamState : clear implicits.
Arguments BeamSearchScorer : clear implicits.
Arguments DeviceMem : clear implicits.
Arguments ProcessCall : clear implicits.
Arguments Search_Cuda : clear implicits.

(** *** What the sources take from elsewhere *)

Class Externals (ScoreType : Type) : Type := {
  (** [std::numeric_limits<ScoreType>::lowest()]. *)
  lowest : ScoreType;
  (** The value the kernel behind [cuda::Launch_log_softmax] gives to
      position [j] of a row; the kernel is only declared in the sources. *)
  log_softmax_at : list ScoreType → nat → ScoreType;
  (** Score addition and comparison ([a ≤ b]) on the device. *)
  score_add : ScoreType → ScoreType → ScoreType;
  score_leb : ScoreType → ScoreType → bool;
  (** The number of vocabulary parts the top-k launcher works with; the
      spec bounds it by [max_parts_of_vocab]. *)
  vocab_parts : nat;
  (** [BeamSearchScorer_Cuda::Process], which re-ranks the candidates on
      the host side; it receives the sequences by reference. *)
  Process :
    BeamSearchScorer ScoreType → Sequences →
    list ScoreType → list Z → list Z →
    BeamSearchScorer ScoreType * Sequences
}.

Section Search.
Context `{Externals ScoreType}.

Local Abbreviation Candidate := (Candidate ScoreType).
Local Abbreviation BeamSearchScorer := (BeamSearchScorer ScoreType).
Local Abbreviation DeviceMem := (DeviceMem ScoreType).
Local Abbreviation Search_Cuda := (Search_Cuda ScoreType).

Definition max_parts_of_vocab : nat := 128.

(** *** Ranking of candidates *)

(** Higher score first; equal scores by position, the lower first. *)
Definition betterb (c1 c2 : Candidate) : bool :=
  if score_leb (cand_score c1) (cand_score c2)
     && score_leb (cand_score c2) (cand_score c1)
  then (cand_id c1 <=? cand_id c2)%nat
  else score_leb (cand_score c2) (cand_score c1).

Definition better : relation Candidate := λ c1 c2, betterb c1 c2 = true.

#[global] Instance better_dec : RelDecision better :=
  λ c1 c2, decide (betterb c1 c2 = true).

(** *** Kernels *)

Definition log_softmax (row : list ScoreType) : list ScoreType :=
  imap (λ j _, log_softmax_at row j) row.

(** [cuda::Launch_log_softmax(values, count, stream)]: in place. *)
Definition Launch_log_softmax (values : span) (s : Search_Cuda) : Search_Cuda :=
  run_kernel K_log_softmax
    (λ m, with_scores
            (write_at (span_data values)
               (log_softmax (span_read (next_token_scores_ m) values))
               (next_token_scores_ m)) m) s.

(** [CudaCheck() == cudaMemcpyAsync(target, source, bytes, DeviceToDevice,
    stream)] into the score matrix. *)
Definition cudaMemcpyAsync (target : span) (source : list ScoreType)
    (s : Search_Cuda) : outcome Search_Cuda :=
  CudaCheck (cuda_stream s);;
  Ok (run_kernel K_memcpy
        (λ m, with_scores
                (write_at (span_data target) source (next_token_scores_ m)) m) s).

(** Modelled from the spec: [cuda::LaunchAddProbsKernel] is only declared
    in the sources, which describe it as
    [next_token_scores + beam_scores[:, None]]: every score of a slot's row
    gets the slot's cumulative beam score added. *)
Definition AddProbs (cum_log_probs : list ScoreType) (vocab : nat)
    (log_probs : list ScoreType) : list ScoreType :=
  imap (λ i x, match cum_log_probs !! (i / vocab)%nat with
               | Some c => score_add x c
               | None => x
               end) log_probs.

(** [cuda::LaunchAddProbsKernel(log_probs, cum_log_probs, batch_size,
    num_beams, vocab_size, stream)] on the score matrix. *)
Definition LaunchAddProbsKernel (cum_log_probs : list ScoreType)
    (batch_size num_beams vocab_size : Z) (s : Search_Cuda) : Search_Cuda :=
  run_kernel K_AddProbs
    (λ m, with_scores
            (AddProbs cum_log_probs (Z.to_nat vocab_size) (next_token_scores_ m)) m) s.

(** The candidates of beam [j] of batch element [b]: one per token. *)
Definition row_candidates (scores : list ScoreType) (nb vocab b j : nat)
    : list Candidate :=
  imap (λ t x, {| cand_score := x; cand_id := (j * vocab + t)%nat |})
       (take vocab (drop ((b * nb + j) * vocab)%nat scores)).

(** The flattened [num_beams × vocab_size] candidate space of batch
    element [b]. *)
Definition batch_candidates (scores : list ScoreType) (nb vocab b : nat)
    : list Candidate :=
  imap (λ i x, {| cand_score := x; cand_id := i |})
       (take (nb * vocab)%nat (drop (b * nb * vocab)%nat scores)).

(** Modelled from the spec: the size of a part, so that [parts] parts cover
    the vocabulary. *)
Definition part_size (vocab parts : nat) : nat :=
  ((vocab + parts - 1) / parts)%nat.

(** Modelled from the spec: [cuda::BeamSearchTopK] is only declared in the
    sources.  Partition stage: the vocabulary of every (batch, beam) row is
    split into contiguous parts and the local top-k of every part is
    selected into the first scratch area. *)
Definition TopK_1st_stage (scores : list ScoreType) (batch nb vocab k : nat)
    : list (list (list (list Candidate))) :=
  (λ b, (λ j, select_topk better k
                <$> parts_of vocab_parts (part_size vocab vocab_parts)
                             (row_candidates scores nb vocab b j))
          <$> seq 0 nb)
    <$> seq 0 batch.

(** Modelled from the spec: the merge stage of [cuda::BeamSearchTopK].  The
    partial lists of every (batch, beam) are merged into the second scratch
    area. *)
Definition TopK_2nd_stage (first : list (list (list (list Candidate))))
    (k : nat) : list (list (list Candidate)) :=
  (λ beams_of_b : list (list (list Candidate)),
     bounded_merge better k <$> beams_of_b) <$> first.

(** Modelled from the spec: the merge stage goes on across the beams of a
    batch element, which gives the element's single top-k list. *)
Definition TopK_batch (second : list (list (list Candidate))) (k : nat)
    : list (list Candidate) :=
  bounded_merge better k <$> second.

(** Token and source beam of a candidate, from its flattened position. *)
Definition candidate_token (vocab : nat) (c : Candidate) : Z :=
  Z.of_nat (cand_id c mod vocab).

Definition candidate_beam (vocab : nat) (c : Candidate) : Z :=
  Z.of_nat (cand_id c / vocab).

(** Modelled from the spec: [cuda::BeamSearchTopK] launches the two stages;
    the second one leaves the scores, tokens and beam indices of the top
    candidates of all batch elements in the three output buffers. *)
Definition BeamSearchTopK (batch_size num_beams vocab_size k : Z)
    (s : Search_Cuda) : Search_Cuda :=
  let s1 :=
    run_kernel K_TopK_1st_stage
      (λ m, with_1st_stage
              (TopK_1st_stage (next_token_scores_ m) (Z.to_nat batch_size)
                 (Z.to_nat num_beams) (Z.to_nat vocab_size) (Z.to_nat k)) m) s in
  run_kernel K_TopK_2nd_stage
    (λ m, let second := TopK_2nd_stage (topk_1st_stage m) (Z.to_nat k) in
          let top := concat (TopK_batch second (Z.to_nat k)) in
          with_2nd_stage second
            (write_at 0 (cand_score <$> top) (topk_next_scores_ m))
            (write_at 0 (candidate_token (Z.to_nat vocab_size) <$> top)
               (topk_next_tokens_ m))
            (write_at 0 (candidate_beam (Z.to_nat vocab_size) <$> top)
               (topk_next_indices_ m)) m) s1.

(** The arg-max token of a row, ties going to the lowest token id. *)
Definition argmax (row : list Candidate) : Z :=
  match select_topk better 1 row with
  | c :: _ => Z.of_nat (cand_id c)
  | [] => 0
  end.

(** Modelled from the spec: [cuda::Launch_SoftMax] is only declared in the
    sources; the spec has it write, per batch element, the arg-max token
    of the row. *)
Definition Launch_SoftMax (batch_size vocab_size : Z) (s : Search_Cuda)
    : Search_Cuda :=
  run_kernel K_SoftMax
    (λ m, with_tokens
            (write_at 0
               ((λ b, argmax (row_candidates (next_token_scores_ m) 1
                                (Z.to_nat vocab_size) b 0))
                  <$> seq 0 (Z.to_nat batch_size))
               (next_tokens_ m)) m) s.

(** Modelled from the spec: [cuda::Launch_CheckForEOS] is only declared in
    the sources.  A slot whose token is the end-of-sequence id gets its
    mask set; slots that were finished already get the pad id; once every
    slot is marked the done flag is written [true]. *)
Definition Launch_CheckForEOS (eos_token_id pad_token_id : Z)
    (s : Search_Cuda) : Search_Cuda :=
  run_kernel K_CheckForEOS
    (λ m, let eos_meet := zip_with (λ t e, e || (t =? eos_token_id))
                            (next_tokens_ m) (eos_meet_ m) in
          let tokens := zip_with (λ t (e : bool), if e then pad_token_id else t)
                          (next_tokens_ m) (eos_meet_ m) in
          with_tokens (write_at 0 tokens (next_tokens_ m))
            (with_eos (write_at 0 eos_meet (eos_meet_ m))
               (done_cpu_ m || forallb id (write_at 0 eos_meet (eos_meet_ m))) m)) s.

(** *** Search_Cuda *)

(** The score matrix as a span: [next_token_scores_]. *)
Definition scores_span (s : Search_Cuda) : span :=
  Span 0 (Z.of_nat (length (next_token_scores_ (mem s)))).

(** One turn of the loop of [Search_Cuda::SetLogits], for slot [i]:
    [vocab_size] logits are copied from [current_logits] into the slot's row
    of the score matrix, [current_logits] moves on by one slot, and the row
    is log-softmaxed in place. *)
Definition SetLogits_slot (input_length : Z) (logits : list ScoreType) (i : Z)
    (st : Search_Cuda * Z) : outcome (Search_Cuda * Z) :=
  let '(s, current_logits) := st in
  let source := span_read logits (Span current_logits (vocab_size (params_ s))) in
  let target :=
    subspan (scores_span s) (i * vocab_size (params_ s)) (vocab_size (params_ s)) in
  s ← cudaMemcpyAsync target source s;
  let current_logits := current_logits + input_length * vocab_size (params_ s) in
  Ok (Launch_log_softmax target s, current_logits).

(** The second half of [Search_Cuda::SetLogits], after the assertions: the
    logits of the last position of every slot go to the score matrix. *)
Definition SetLogits_last_token (input_length : Z) (logits : list ScoreType)
    (s : Search_Cuda) : outcome Search_Cuda :=
  let batch_beam_size := BatchBeamSize (params_ s) in
  let current_logits := (input_length - 1) * vocab_size (params_ s) in
  '(s', _) ←
    for_loop (Z.to_nat batch_beam_size) 0
      (SetLogits_slot input_length logits) (s, current_logits);
  Ok s'.

(** [Search_Cuda::SetLogits]. *)
Definition SetLogits (logits : list ScoreType) (s : Search_Cuda)
    : outcome Search_Cuda :=
  let batch_beam_size := BatchBeamSize (params_ s) in
  let size := Z.of_nat (length logits) in
  let input_length := size / (batch_beam_size * vocab_size (params_ s)) in
  assert (size mod (batch_beam_size * vocab_size (params_ s)) =? 0);;
  assert (input_length =? 1);;
  SetLogits_last_token input_length logits s.

(** [Search_Cuda::GetSequenceLength]. *)
Definition GetSequenceLength (s : Search_Cuda) : Z :=
  Sequences_GetSequenceLength (sequences_ s).

(** [BeamSearch_Cuda::NextTokensFromLogits]. *)
Definition BeamSearch_NextTokensFromLogits (s : Search_Cuda)
    : outcome Search_Cuda :=
  let beam_scores := Scorer_GetNextScores (beam_scorer_ s) in
  let s := LaunchAddProbsKernel beam_scores (batch_size (params_ s))
             (num_beams (params_ s)) (vocab_size (params_ s)) s in
  s ← (if num_beams (params_ s) <=? 32
       then Ok (BeamSearchTopK (batch_size (params_ s)) (num_beams (params_ s))
                  (vocab_size (params_ s)) (2 * num_beams (params_ s)) s)
       else assert false;; Ok s);
  stream ← cudaStreamSynchronize (cuda_stream s);
  let s := on_stream (λ _, stream) s in
  let size := BatchBeamSize (params_ s) * 2 in
  let next_scores := span_read (topk_next_scores_ (mem s)) (Span 0 size) in
  let next_tokens := span_read (topk_next_tokens_ (mem s)) (Span 0 size) in
  let next_indices := span_read (topk_next_indices_ (mem s)) (Span 0 size) in
  let call := {| seen_completed := completed (cuda_stream s);
                 seen_in_flight := in_flight (cuda_stream s);
                 seen_scores := next_scores;
                 seen_tokens := next_tokens;
                 seen_indices := next_indices |} in
  let '(scorer, sequences) :=
    Process (beam_scorer_ s) (sequences_ s) next_scores next_tokens next_indices in
  Ok {| params_ := params_ s;
        sequences_ := sequences;
        mem := with_tokens (Scorer_GetNextTokens scorer) (mem s);
        cuda_stream := cuda_stream s;
        beam_scorer_ := scorer;
        process_calls := process_calls s ++ [call] |}.

(** [GreedySearch_Cuda::NextTokensFromLogits]. *)
Definition GreedySearch_NextTokensFromLogits (s : Search_Cuda) : Search_Cuda :=
  Launch_SoftMax (batch_size (params_ s)) (vocab_size (params_ s)) s.

(** [Search_Cuda::CheckForEOS]. *)
Definition CheckForEOS (s : Search_Cuda) : outcome Search_Cuda :=
  assert (bool_decide (length (next_tokens_ (mem s)) = length (eos_meet_ (mem s))));;
  Ok (Launch_CheckForEOS (eos_token_id (params_ s)) (pad_token_id (params_ s)) s).

(** [GreedySearch_Cuda::AppendNextTokensToSequences]. *)
Definition GreedySearch_AppendNextTokensToSequences (s : Search_Cuda)
    : Search_Cuda :=
  let s := on_sequences
             (Sequences_AppendNextTokenToSequences (next_tokens_ (mem s))) s in
  if Sequences_GetSequenceLength (sequences_ s) =? max_length (params_ s)
  then on_mem (λ m, with_eos (eos_meet_ m) true m) s
  else s.

(** [BeamSearch_Cuda::IsDone]: the answer, and the search with the scorer
    as [beam_scorer_->IsDone()] leaves it. *)
Definition BeamSearch_IsDone (s : Search_Cuda) : bool * Search_Cuda :=
  let s := on_scorer Scorer_IsDone s in
  (Scorer_IsDoneLater (beam_scorer_ s)
   || (Sequences_GetSequenceLength (sequences_ s) =? max_length (params_ s)),
   s).

(** [Search_Cuda::GetScores(int batch_beam_index)]. *)
Definition GetScores (batch_beam_index : Z) (s : Search_Cuda) : outcome span :=
  assert ((0 <=? batch_beam_index)
          && (batch_beam_index <? BatchBeamSize (params_ s)));;
  Ok (subspan (scores_span s) (batch_beam_index * vocab_size (params_ s))
              (vocab_size (params_ s))).

(** [Processors_Cuda::MinLength]. *)
Definition MinLength (min_length : Z) (s : Search_Cuda) : outcome Search_Cuda :=
  if Sequences_GetSequenceLength (sequences_ s) >=? min_length
  then Ok s
  else
    let batch_beam_size := BatchBeamSize (params_ s) in
    for_loop (Z.to_nat batch_beam_size) 0
      (λ i s,
         beam_token_scores ← GetScores i s;
         Ok (on_mem (λ m, with_scores
                             (span_store (next_token_scores_ m) beam_token_scores
                                (eos_token_id (params_ s)) lowest) m) s))
      s.

(** *** The greedy generation loop *)

(** Modelled from the spec: [GreedySearch_Cuda::IsDone] and the loop that
    drives the search are not part of the sources.  The loop asks
    [IsDone], which reports the done flag, and otherwise runs one step:
    [SetLogits], [NextTokensFromLogits], [CheckForEOS],
    [AppendNextTokensToSequences], in this order. *)
Definition GreedySearch_IsDone (s : Search_Cuda) : bool := done_cpu_ (mem s).

(** Modelled from the spec: one step of the loop. *)
Definition GreedySearch_step (logits : list ScoreType) (s : Search_Cuda)
    : outcome Search_Cuda :=
  s ← SetLogits logits s;
  s ← CheckForEOS (GreedySearch_NextTokensFromLogits s);
  Ok (GreedySearch_AppendNextTokensToSequences s).

(** Modelled from the spec: the loop, fed the logits of the successive
    steps; it returns the number of steps executed and the final search. *)
Fixpoint generate (feed : list (list ScoreType)) (s : Search_Cuda)
    : outcome (nat * Search_Cuda) :=
  match feed with
  | [] => Ok (O, s)
  | logits :: feed' =>
      if GreedySearch_IsDone s then Ok (O, s)
      else
        s' ← GreedySearch_step logits s;
        '(n, s'') ← generate feed' s';
        Ok (S n, s'')
  end.

(** *** Well-formed searches *)

(** The score matrix has one row of [vocab_size] scores per batch-beam
    slot, as the constructor of [Search_Cuda] allocates it. *)
Record search_ok (s : Search_Cuda) : Prop := {
  search_params_ok : params_ok (params_ s);
  scores_allocated :
    Z.of_nat (length (next_token_scores_ (mem s)))
    = BatchBeamSize (params_ s) * vocab_size (params_ s)
}.

(** The candidate buffers have [2 × batch_beam_size] entries, as the
    constructor of [BeamSearch_Cuda] allocates them. *)
Record beam_search_ok (s : Search_Cuda) : Prop := {
  beam_search_base : search_ok s;
  topk_scores_allocated :
    Z.of_nat (length (topk_next_scores_ (mem s))) = 2 * BatchBeamSize (params_ s);
  topk_tokens_allocated :
    Z.of_nat (length (topk_next_tokens_ (mem s))) = 2 * BatchBeamSize (params_ s);
  topk_indices_allocated :
    Z.of_nat (length (topk_next_indices_ (mem s))) = 2 * BatchBeamSize (params_ s)
}.

(** A score that compares with itself: for [float], every value but NaN. *)
Definition ordered (x : ScoreType) : Prop := score_leb x x = true.

(** Score comparison is transitive, and total on the ordered scores, as
    [<=] on [float] is.  Scores that rank equal need not be equal (the two
    zeros of [float]). *)
Class ScoreOrder : Prop := {
  score_leb_total (a b : ScoreType) :
    ordered a → ordered b → score_leb a b = true ∨ score_leb b a = true;
  score_leb_trans (a b c : ScoreType) :
    score_leb a b = true → score_leb b c = true → score_leb a c = true
}.

(** The candidate at position [i] of a block of scores ([d] stands in
    outside the block), and the candidates that are entries of the block. *)
Definition candidate_at (block : list ScoreType) (d : ScoreType) (i : nat)
    : Candidate :=
  {| cand_score := default d (block !! i); cand_id := i |}.

Definition genuine (block : list ScoreType) (c : Candidate) : Prop :=
  block !! cand_id c = Some (cand_score c).

(** The block of batch element [b] in a score matrix. *)
Definition batch_block (scores : list ScoreType) (nb vocab b : nat)
    : list ScoreType :=
  take (nb * vocab)%nat (drop (b * nb * vocab)%nat scores).

(** The score matrix as the top-k kernels find it: the beam scores added. *)
Definition scores_with_beams (s : Search_Cuda) : list ScoreType :=
  AddProbs (Scorer_GetNextScores (beam_scorer_ s))
    (Z.to_nat (vocab_size (params_ s))) (next_token_scores_ (mem s)).

(** The reference result for batch element [b]: a full sort of its
    flattened candidate space, cut after [2 × num_beams]. *)
Definition naive_candidates (s : Search_Cuda) (b : Z) : list Candidate :=
  naive_topk better (Z.to_nat (2 * num_beams (params_ s)))
    (batch_candidates (scores_with_beams s) (Z.to_nat (num_beams (params_ s)))
       (Z.to_nat (vocab_size (params_ s))) (Z.to_nat b)).

(** The score of token [t] in beam [i] of batch element [b], in a score
    matrix laid out as [next_token_scores_]. *)
Definition matrix_entry (scores : list ScoreType) (p : SearchParams)
    (b i t : Z) : option ScoreType :=
  scores !! Z.to_nat ((b * num_beams p + i) * vocab_size p + t).

(** The [j]-th candidate of batch element [b] that [Process] is handed, as
    it stands in the three buffers: score, token and beam. *)
Definition handed (call : ProcessCall ScoreType) (p : SearchParams) (b j : Z)
    : option (ScoreType * Z * Z) :=
  let position := Z.to_nat (b * (2 * num_beams p) + j) in
  sc ← seen_scores call !! position;
  t ← seen_tokens call !! position;
  i ← seen_indices call !! position;
  Some (sc, t, i).

(** The candidates handed over for batch element [b] are the
    [2 × num_beams] highest (score, token) pairs of the element's rows of
    the matrix: each is an entry of the matrix, with the token and the beam
    it is found at; no entry is handed over twice; and an entry that is not
    handed over scores no higher than any that is. *)
Definition highest_pairs (call : ProcessCall ScoreType) (scores : list ScoreType)
    (p : SearchParams) (b : Z) : Prop :=
  let k := 2 * num_beams p in
  (∀ j, 0 ≤ j < k →
     ∃ sc t i,
       handed call p b j = Some (sc, t, i)
       ∧ 0 ≤ t < vocab_size p ∧ 0 ≤ i < num_beams p
       ∧ matrix_entry scores p b i t = Some sc)
  ∧ (∀ j j' sc sc' t i,
       0 ≤ j < k → 0 ≤ j' < k →
       handed call p b j = Some (sc, t, i) →
       handed call p b j' = Some (sc', t, i) → j = j')
  ∧ (∀ i t x,
       0 ≤ i < num_beams p → 0 ≤ t < vocab_size p →
       matrix_entry scores p b i t = Some x →
       (∃ j, 0 ≤ j < k ∧ handed call p b j = Some (x, t, i))
       ∨ (∀ j sc t' i', 0 ≤ j < k → handed call p b j = Some (sc, t', i') →
            score_leb x sc = true)).

(** The sequences are within [max_length], and at [max_length] the done
    flag is up.  A search whose prompt is shorter than [max_length] starts
    in such a state. *)
Definition length_within (s : Search_Cuda) : Prop :=
  GetSequenceLength s ≤ max_length (params_ s)
  ∧ (GetSequenceLength s = max_length (params_ s) → GreedySearch_IsDone s = true).

(** Every slot holds as many tokens as the sequence length says. *)
Definition slots_filled (s : Search_Cuda) : Prop :=
  Forall (λ sl, Z.of_nat (length sl) = GetSequenceLength s) (slots (sequences_ s)).

(** What the greedy loop needs of a search to run a step. *)
Record greedy_ok (s : Search_Cuda) : Prop := {
  greedy_base : search_ok s;
  greedy_healthy : healthy (cuda_stream s) = true;
  greedy_tokens : length (next_tokens_ (mem s)) = length (eos_meet_ (mem s))
}.

(** What [SetLogits] leaves alone. *)
Definition same_but_scores (s s' : Search_Cuda) : Prop :=
  params_ s' = params_ s ∧ sequences_ s' = sequences_ s
  ∧ done_cpu_ (mem s') = done_cpu_ (mem s)
  ∧ next_tokens_ (mem s') = next_tokens_ (mem s)
  ∧ eos_meet_ (mem s') = eos_meet_ (mem s)
  ∧ healthy (cuda_stream s') = healthy (cuda_stream s).

(** Row [i] of the score matrix. *)
Definition score_row (s : Search_Cuda) (i : Z) : list ScoreType :=
  span_read (next_token_scores_ (mem s))
    (Span (i * vocab_size (params_ s)) (vocab_size (params_ s))).

(** The score of token [t] in slot [i]. *)
Definition score_at (s : Search_Cuda) (i t : Z) : option ScoreType :=
  next_token_scores_ (mem s) !! Z.to_nat (i * vocab_size (params_ s) + t).

End Search.

(** ** Construction, accessors and scratch layout *)

Section Lifecycle.
Context `{Externals ScoreType}.

Local Abbreviation BeamSearchScorer := (BeamSearchScorer ScoreType).
Local Abbreviation DeviceMem := (DeviceMem ScoreType).
Local Abbreviation Search_Cuda := (Search_Cuda ScoreType).

(** What freshly allocated memory holds before anything is written to it,
    element by element, and the score whose bytes are all zero. *)
Record Fresh : Type := {
  zero_score : ScoreType;
  fresh_scores : nat → ScoreType;
  fresh_tokens : nat → Z;
  fresh_flags : nat → bool;
  fresh_done : bool
}.

(** [CudaMallocArray<T>(n, &span)]: [n] elements, not initialized. *)
Definition CudaMallocArray {A : Type} (n : Z) (content : nat → A) : list A :=
  content <$> seq 0 (Z.to_nat n).

(** [cudaMemsetAsync(data, 0, size_bytes, stream)] over a whole buffer.  It
    is a stream operation and no kernel: its effect comes in stream order
    like the kernels' effects, and it is not listed in [in_flight]. *)
Definition cudaMemsetAsync {A : Type} (zero : A) (buf : list A) : list A :=
  replicate (length buf) zero.

(** A search without a beam scorer ([beam_scorer_] is a member of
    [BeamSearch_Cuda] only). *)
Definition no_scorer : BeamSearchScorer :=
  {| scorer_num_beams := 0; scorer_max_length := 0; scorer_length := 0;
     beams := []; next_beam_scores := []; next_beam_tokens := [];
     next_beam_indices := [] |}.

(** [Search_Cuda::Search_Cuda(params)].  The sequences come from the
    constructor of [Sequences_Cuda], which is not part of the sources, and
    the stream from [params.cuda_stream]. *)
Definition Search_Cuda_new (u : Fresh) (params : SearchParams) (stream : Stream)
    (sequences : Sequences) : Search_Cuda :=
  let batch_beam_size := BatchBeamSize params in
  let eos_meet :=
    cudaMemsetAsync false (CudaMallocArray batch_beam_size (fresh_flags u)) in
  let next_token_size := batch_beam_size * vocab_size params in
  let next_token_scores :=
    cudaMemsetAsync (zero_score u)
      (CudaMallocArray next_token_size (fresh_scores u)) in
  {| params_ := params;
     sequences_ := sequences;
     mem := {| next_token_scores_ := next_token_scores;
               next_tokens_ := [];
               eos_meet_ := eos_meet;
               done_cpu_ := fresh_done u;
               topk_1st_stage := [];
               topk_2nd_stage := [];
               topk_next_scores_ := [];
               topk_next_tokens_ := [];
               topk_next_indices_ := [] |};
     cuda_stream := stream;
     beam_scorer_ := no_scorer;
     process_calls := [] |}.

(** [GreedySearch_Cuda::GreedySearch_Cuda(params)]. *)
Definition GreedySearch_Cuda_new (u : Fresh) (params : SearchParams)
    (stream : Stream) (sequences : Sequences) : Search_Cuda :=
  let s := Search_Cuda_new u params stream sequences in
  on_mem (with_tokens
            (cudaMemsetAsync 0
               (CudaMallocArray (batch_size params) (fresh_tokens u)))) s.

(** The value a 32-bit [int] holds after an operation whose result is [z]:
    two's complement wrap-around where [z] leaves the range (which the C++
    standard leaves undefined).  The value of a 64-bit [size_t]. *)
Definition wrap_int (z : Z) : Z := (z + 2 ^ 31) `mod` 2 ^ 32 - 2 ^ 31.

Definition to_size_t (z : Z) : Z := z `mod` 2 ^ 64.

(** [topk_buffer_size] of the constructor of [BeamSearch_Cuda], in
    elements of [ScoreType] (which the source asserts to be as wide as
    [int32_t]); the product is taken in [size_t]. *)
Definition topk_buffer_size (params : SearchParams) : Z :=
  to_size_t
    (BatchBeamSize params * (Z.of_nat max_parts_of_vocab + 1) * num_beams params
     * 2 * 2).

(** [BeamSearch_Cuda::BeamSearch_Cuda(params)].  The scorer comes from the
    constructor of [BeamSearchScorer_Cuda], which is not part of the
    sources; [topk_buffer_], zeroed, holds no candidate list yet. *)
Definition BeamSearch_Cuda_new (u : Fresh) (params : SearchParams)
    (stream : Stream) (sequences : Sequences) (scorer : BeamSearchScorer)
    : outcome Search_Cuda :=
  let s := Search_Cuda_new u params stream sequences in
  assert (1 <? num_beams (params_ s));;
  let batch_beam_size := BatchBeamSize (params_ s) in
  let s := on_scorer (λ _, scorer) s in
  Ok (on_mem
        (with_2nd_stage []
           (CudaMallocArray (2 * batch_beam_size) (fresh_scores u))
           (CudaMallocArray (2 * batch_beam_size) (fresh_tokens u))
           (CudaMallocArray (2 * batch_beam_size) (fresh_tokens u))) s).

(** The four scratch areas that [BeamSearch_Cuda::NextTokensFromLogits]
    carves out of [topk_buffer_]: the first element of each, counted from
    the start of the buffer. *)
Record TopKScratch : Type := {
  topk_scores_1st_stage : Z;
  topk_tokens_1st_stage : Z;
  topk_scores_2nd_stage : Z;
  topk_tokens_2nd_stage : Z
}.

(** [size_t candidate_count = params_.BatchBeamSize() * 2 * params_.num_beams]:
    the product is taken in [int] and then widened. *)
Definition candidate_count (params : SearchParams) : Z :=
  to_size_t (wrap_int (wrap_int (BatchBeamSize params * 2) * num_beams params)).

Definition topk_scratch (params : SearchParams) : TopKScratch :=
  let topk_tmp_buffer := 0 in
  let scores_1st := topk_tmp_buffer in
  let tokens_1st :=
    scores_1st
    + to_size_t (candidate_count params * Z.of_nat max_parts_of_vocab) in
  let scores_2nd :=
    tokens_1st
    + to_size_t (candidate_count params * Z.of_nat max_parts_of_vocab) in
  let tokens_2nd := scores_2nd + candidate_count params in
  {| topk_scores_1st_stage := scores_1st;
     topk_tokens_1st_stage := tokens_1st;
     topk_scores_2nd_stage := scores_2nd;
     topk_tokens_2nd_stage := tokens_2nd |}.

(** The caller waits for the stream of the search,
    [cudaStreamSynchronize(params_.cuda_stream)], before it touches device
    buffers from the host. *)
Definition Synchronize (s : Search_Cuda) : outcome Search_Cuda :=
  stream ← cudaStreamSynchronize (cuda_stream s);
  Ok (on_stream (λ _, stream) s).

(** [GreedySearch_Cuda::GetNextTokens]. *)
Definition GreedySearch_GetNextTokens (s : Search_Cuda) : list Z :=
  next_tokens_ (mem s).

(** [BeamSearch_Cuda::GetNextTokens]. *)
Definition BeamSearch_GetNextTokens (s : Search_Cuda) : list Z :=
  Scorer_GetNextTokens (beam_scorer_ s).

(** [Search_Cuda::GetScores()]: the whole score matrix. *)
Definition GetScores_all (s : Search_Cuda) : span := scores_span s.

(** The kernels that [SetLogits] launches for [n] slots. *)
Definition SetLogits_kernels (n : nat) : list Kernel :=
  concat (replicate n [K_memcpy; K_log_softmax]).

End Lifecycle.

Arguments Fresh : clear implicits.
Arguments TopKScratch : clear implicits.

(** ** The Java convenience class [SimpleGenAI] *)

(** [src/java/.../SimpleGenAI.java] drives the native library through the
    classes [Model], [Tokenizer], [GeneratorParams], [Sequences],
    [TokenizerStream] and [Generator], none of which is part of the
    sources.  What they do is a parameter here ([Collaborators]); what the
    model follows is the control flow of [SimpleGenAI] itself: which native
    objects it creates and closes, which exceptions it lets through, and
    what it tells the listener.  Every object that is created and not
    closed counts as open; [close()] is taken not to throw.  The native
    classes throw the checked [GenAIException]; the listener, a
    [java.util.function.Consumer], can only throw an unchecked exception,
    which no [catch (GenAIException e)] clause holds back.  The generator's
    run is a finite list of steps, so a generator that never reports
    [isDone()] has no counterpart here. *)
Module SimpleGenAI.

(** [new GenAIException(message)], as the native library throws it, and
    [new GenAIException(message, cause)]. *)
Inductive GenAIException : Type :=
| GenAIError (message : string)
| GenAIWrapped (message : string) (cause : GenAIException).

Definition getMessage (e : GenAIException) : string :=
  match e with
  | GenAIError message => message
  | GenAIWrapped message _ => message
  end.

Definition getCause (e : GenAIException) : option GenAIException :=
  match e with
  | GenAIError _ => None
  | GenAIWrapped _ cause => Some cause
  end.

(** How a Java call ends: it returns, throws a [GenAIException], or lets
    an unchecked exception through. *)
Inductive java (A : Type) : Type :=
| Returns (a : A)
| Throws (e : GenAIException)
| ThrowsUnchecked (message : string).

Arguments Returns {A} a.
Arguments Throws {A} e.
Arguments ThrowsUnchecked {A} message.

(** The native objects that are open, the handle the next one gets, and
    what the listener has been told. *)
Record World : Type := {
  live : gset nat;
  fresh : nat;
  heard : list string
}.

Definition J (A : Type) : Type := World → java A * World.

#[global] Instance J_ret : MRet J := λ A a w, (Returns a, w).

#[global] Instance J_bind : MBind J := λ A B f m w,
  match m w with
  | (Returns a, w') => f a w'
  | (Throws e, w') => (Throws e, w')
  | (ThrowsUnchecked message, w') => (ThrowsUnchecked message, w')
  end.

Definition throw {A : Type} (e : GenAIException) : J A := λ w, (Throws e, w).

(** A call of a collaborator that creates no native object. *)
Definition call {A : Type} (r : java A) : J A := λ w, (r, w).

(** A call that returns a new native object, unless it throws. *)
Definition create (failure : option GenAIException) : J nat := λ w,
  match failure with
  | Some e => (Throws e, w)
  | None =>
      (Returns (fresh w),
       {| live := {[fresh w]} ∪ live w; fresh := S (fresh w); heard := heard w |})
  end.

(** [object.close()]. *)
Definition close (h : nat) : J unit := λ w,
  (Returns tt, {| live := live w ∖ {[h]}; fresh := fresh w; heard := heard w |}).

(** [listener.accept(token)]: the listener is handed the token, and either
    returns or throws an unchecked exception. *)
Definition accept (failure : option string) (token : string) : J unit := λ w,
  (match failure with
   | None => Returns tt
   | Some message => ThrowsUnchecked message
   end,
   {| live := live w; fresh := fresh w; heard := heard w ++ [token] |}).

(** [try { body } catch (GenAIException e) { handler }]. *)
Definition try_catch {A : Type} (body : J A) (handler : GenAIException → J A)
    : J A := λ w,
  match body w with
  | (Returns a, w') => (Returns a, w')
  | (Throws e, w') => handler e w'
  | (ThrowsUnchecked message, w') => (ThrowsUnchecked message, w')
  end.

(** [try (Resource r = resource) { body }]: the resource is closed when the
    body is left, whichever way. *)
Definition try_with {A : Type} (resource : J nat) (body : nat → J A) : J A :=
  λ w,
  match resource w with
  | (Throws e, w') => (Throws e, w')
  | (ThrowsUnchecked message, w') => (ThrowsUnchecked message, w')
  | (Returns h, w') =>
      match body h w' with
      | (r, w'') => (r, (close h w'').2)
      end
  end.

(** One turn of the loop of [generate] as the generator and the stream
    decide it: the token that [computeLogits], [generateNextToken] and
    [getLastTokenInSequence(0)] end with, or the exception one of them
    throws. *)
Inductive step : Type :=
| Token (token_id : Z)
| StepThrows (e : GenAIException).

(** The collaborators.  [None] stands for a constructor or factory that
    succeeds; the generator is done when its steps are used up;
    [listener_accept token] is the message of the unchecked exception the
    listener throws when it is handed [token], if it throws. *)
Record Collaborators : Type := {
  model_createGeneratorParams : option GenAIException;
  tokenizer_encode : string → option GenAIException;
  params_setInput : option GenAIException;
  params_setInput_ids : option GenAIException;
  tokenizer_createStream : option GenAIException;
  new_Generator : option GenAIException;
  generator_steps : list step;
  stream_decode : Z → java string;
  generator_getSequence : java (list Z);
  model_generate : option GenAIException;
  sequences_getSequence : java (list Z);
  tokenizer_decode : list Z → java string;
  listener_accept : string → option string
}.

Section Methods.
Variable c : Collaborators.

(** [createGeneratorParams(String prompt)]. *)
Definition createGeneratorParams (prompt : string) : J nat :=
  generatorParams ← create (model_createGeneratorParams c);
  try_catch
    (try_with (create (tokenizer_encode c prompt))
       (λ encodedPrompt, call (match params_setInput c with
                               | Some e => Throws e
                               | None => Returns tt
                               end)))
    (λ e, close generatorParams;; throw e);;
  mret generatorParams.

(** [createGeneratorParams(int[] tokenIds, int sequenceLength, int
    batchSize)]. *)
Definition createGeneratorParams_ids : J nat :=
  generatorParams ← create (model_createGeneratorParams c);
  try_catch
    (call (match params_setInput_ids c with
           | Some e => Throws e
           | None => Returns tt
           end))
    (λ e, close generatorParams;; throw e);;
  mret generatorParams.

(** [while (!generator.isDone()) { ... listener.accept(token); }]. *)
Fixpoint token_loop (steps : list step) : J unit :=
  match steps with
  | [] => mret tt
  | StepThrows e :: _ => throw e
  | Token token_id :: steps' =>
      token ← call (stream_decode c token_id);
      accept (listener_accept c token) token;;
      token_loop steps'
  end.

(** [generate(generatorParams, listener)]; [listener] tells whether a
    listener is given. *)
Definition generate (listener : bool) : J string :=
  try_catch
    (output_ids ←
       (if listener
        then
          try_catch
            (try_with (create (tokenizer_createStream c)) (λ stream,
               try_with (create (new_Generator c)) (λ generator,
                 token_loop (generator_steps c);;
                 call (generator_getSequence c))))
            (λ e, throw (GenAIWrapped "Token generation loop failed." e))
        else
          output_sequences ← create (model_generate c);
          call (sequences_getSequence c));
     call (tokenizer_decode c output_ids))
    (λ e, throw (GenAIWrapped "Failed to create Tokenizer." e)).

End Methods.

(** Handles are given out in increasing order. *)
Definition world_ok (w : World) : Prop := ∀ h, h ∈ live w → (h < fresh w)%nat.

(** Facts about sets of handles, given that the handles that are open lie
    below the next one. *)
Ltac handles Hw :=
  repeat split; try done;
  try (intros Hin; specialize (Hw _ Hin); lia);
  try (unfold world_ok; cbn);
  try (apply set_eq);
  let h := fresh "h" in
  intros h; specialize (Hw h);
  rewrite ?elem_of_difference, ?elem_of_union, ?elem_of_singleton;
  intuition (subst; first [lia | tauto | auto]).

(** The tokens the listener is handed when [steps] are run, up to the
    first failure (a token at which the listener itself fails included),
    and whether all of them went through. *)
Fixpoint told (c : Collaborators) (steps : list step) : list string * bool :=
  match steps with
  | [] => ([], true)
  | StepThrows _ :: _ => ([], false)
  | Token token_id :: steps' =>
      match stream_decode c token_id with
      | Throws _ | ThrowsUnchecked _ => ([], false)
      | Returns token =>
          match listener_accept c token with
          | Some _ => ([token], false)
          | None =>
              let '(tokens, complete) := told c steps' in
              (token :: tokens, complete)
          end
      end
  end.

(** What a call fails with, if it fails. *)
Inductive failure : Type :=
| Checked (e : GenAIException)
| Unchecked (message : string).

Definition outcome_failure {A : Type} (r : java A) : option failure :=
  match r with
  | Returns _ => None
  | Throws e => Some (Checked e)
  | ThrowsUnchecked message => Some (Unchecked message)
  end.

(** What the caller of [catch (GenAIException e) { throw new
    GenAIException(message, e); }] sees of a failure. *)
Definition rethrown (message : string) (f : failure) : failure :=
  match f with
  | Checked e => Checked (GenAIWrapped message e)
  | Unchecked unchecked => Unchecked unchecked
  end.

(** What one turn of the loop fails with: the generator, the decoding of
    the token, or the listener. *)
Definition step_failure (c : Collaborators) (st : step) : option failure :=
  match st with
  | StepThrows e => Some (Checked e)
  | Token token_id =>
      match stream_decode c token_id with
      | Returns token => Unchecked <$> listener_accept c token
      | Throws e => Some (Checked e)
      | ThrowsUnchecked message => Some (Unchecked message)
      end
  end.

(** A step that goes through. *)
Definition passes (c : Collaborators) (st : step) : Prop :=
  step_failure c st = None.

(** The first thing that goes wrong between the creation of the stream and
    [generator.getSequence(0)]. *)
Definition block_failure (c : Collaborators) (f : failure) : Prop :=
  (∃ e, tokenizer_createStream c = Some e ∧ f = Checked e)
  ∨ tokenizer_createStream c = None
    ∧ ((∃ e, new_Generator c = Some e ∧ f = Checked e)
       ∨ new_Generator c = None
         ∧ ((∃ before st after,
               generator_steps c = before ++ st :: after
               ∧ Forall (passes c) before
               ∧ step_failure c st = Some f)
            ∨ Forall (passes c) (generator_steps c)
              ∧ outcome_failure (generator_getSequence c) = Some f)).

(** A model that answers every prompt with the tokens 7 and 8, and a
    world in which nothing is open yet. *)
Definition chat : Collaborators := {|
  model_createGeneratorParams := None;
  tokenizer_encode := λ _, None;
  params_setInput := None;
  params_setInput_ids := None;
  tokenizer_createStream := None;
  new_Generator := None;
  generator_steps := [Token 7; Token 8];
  stream_decode := λ token_id, Returns (if token_id =? 7 then "a" else "b");
  generator_getSequence := Returns [7; 8];
  model_generate := None;
  sequences_getSequence := Returns [7; 8];
  tokenizer_decode := λ _, Returns "ab";
  listener_accept := λ _, None
|}.

(** The same model with a generator that fails in its second step. *)
Definition broken_chat : Collaborators := {|
  model_createGeneratorParams := None;
  tokenizer_encode := λ _, None;
  params_setInput := None;
  params_setInput_ids := None;
  tokenizer_createStream := None;
  new_Generator := None;
  generator_steps := [Token 7; StepThrows (GenAIError "out of memory")];
  stream_decode := λ token_id, Returns (if token_id =? 7 then "a" else "b");
  generator_getSequence := Returns [7; 8];
  model_generate := None;
  sequences_getSequence := Returns [7; 8];
  tokenizer_decode := λ _, Returns "ab";
  listener_accept := λ _, None
|}.

Definition start : World := {| live := ∅; fresh := 0; heard := [] |}.

End SimpleGenAI.

(** ** Small searches with integer scores *)

(** Integer scores stand in for floats: [Z.leb] orders them, [-1000] is
    below every score used, the row maximum is subtracted in place of a
    log-softmax, rows are cut in two parts, and [Process] keeps the
    candidate tokens it is given. *)
#[global] Instance Z_externals : Externals Z := {|
  lowest := -1000;
  log_softmax_at := λ row j, default 0 (row !! j) - foldr Z.max (-1000) row;
  score_add := Z.add;
  score_leb := Z.leb;
  vocab_parts := 2;
  Process := λ scorer sequences scores tokens indices,
    ({| scorer_num_beams := scorer_num_beams scorer;
        scorer_max_length := scorer_max_length scorer;
        scorer_length := current_length_ sequences;
        beams := beams scorer;
        next_beam_scores := take (Z.to_nat (scorer_num_beams scorer)) scores;
        next_beam_tokens := take (Z.to_nat (scorer_num_beams scorer)) tokens;
        next_beam_indices := take (Z.to_nat (scorer_num_beams scorer)) indices |},
     sequences)
|}.

Definition idle_stream : Stream :=
  {| completed := []; in_flight := []; healthy := true |}.

(** One batch element, two beams, three tokens; prompt [7 8]. *)
Definition beam_params : SearchParams :=
  {| batch_size := 1; num_beams := 2; vocab_size := 3; max_length := 4;
     eos_token_id := 0; pad_token_id := 0 |}.

Definition beam_scorer : BeamSearchScorer Z :=
  {| scorer_num_beams := 2; scorer_max_length := 4; scorer_length := 2;
     beams := [{| live := [{| hyp_score := 0; hyp_slot := 0; hyp_done := false |};
                           {| hyp_score := -1; hyp_slot := 1; hyp_done := false |}];
                  finished := [];
                  beam_done := false |}];
     next_beam_scores := [0; -1];
     next_beam_tokens := [0; 0];
     next_beam_indices := [0; 0] |}.

Definition beam_search : Search_Cuda Z :=
  {| params_ := beam_params;
     sequences_ := {| slots := [[7; 8]; [7; 8]]; current_length_ := 2 |};
     mem := {| next_token_scores_ := [-5; -1; -9; -2; -1; -4];
               next_tokens_ := [0; 0];
               eos_meet_ := [false; false];
               done_cpu_ := false;
               topk_1st_stage := [];
               topk_2nd_stage := [];
               topk_next_scores_ := [0; 0; 0; 0];
               topk_next_tokens_ := [0; 0; 0; 0];
               topk_next_indices_ := [0; 0; 0; 0] |};
     cuda_stream := idle_stream;
     beam_scorer_ := beam_scorer;
     process_calls := [] |}.

(** The same search configured with 33 beams. *)
Definition wide_search : Search_Cuda Z :=
  {| params_ := {| batch_size := 1; num_beams := 33; vocab_size := 3;
                   max_length := 4; eos_token_id := 0; pad_token_id := 0 |};
     sequences_ := sequences_ beam_search;
     mem := mem beam_search;
     cuda_stream := idle_stream;
     beam_scorer_ := beam_scorer;
     process_calls := [] |}.

(** Two batch elements, greedy (one beam), two tokens; prompt [7 8]. *)
Definition greedy_params : SearchParams :=
  {| batch_size := 2; num_beams := 1; vocab_size := 2; max_length := 4;
     eos_token_id := 0; pad_token_id := 0 |}.

Definition greedy_search : Search_Cuda Z :=
  {| params_ := greedy_params;
     sequences_ := {| slots := [[7; 8]; [7; 8]]; current_length_ := 2 |};
     mem := {| next_token_scores_ := [3; 4; 6; 5];
               next_tokens_ := [0; 0];
               eos_meet_ := [false; false];
               done_cpu_ := false;
               topk_1st_stage := [];
               topk_2nd_stage := [];
               topk_next_scores_ := [];
               topk_next_tokens_ := [];
               topk_next_indices_ := [] |};
     cuda_stream := idle_stream;
     beam_scorer_ := beam_scorer;
     process_calls := [] |}.

(** Logits of one position per slot, and of two positions per slot. *)
Definition one_position : list Z := [1; 2; 4; 3].
Definition two_positions : list Z := [1; 2; 3; 4; 5; 6; 7; 8].

(** Memory as an allocation may leave it: stale scores, tokens and flags. *)
Definition stale_memory : Fresh Z :=
  {| zero_score := 0; fresh_scores := λ _, 7; fresh_tokens := λ _, 9;
     fresh_flags := λ _, true; fresh_done := true |}.

(** The prompt [7 8] in [n] slots. *)
Definition prompt (n : nat) : Sequences :=
  {| slots := replicate n [7; 8]; current_length_ := 2 |}.

(** * Properties *)

Section SearchFacts.
Context `{Externals ScoreType}.

Local Abbreviation Candidate := (Candidate ScoreType).
Local Abbreviation BeamSearchScorer := (BeamSearchScorer ScoreType).
Local Abbreviation DeviceMem := (DeviceMem ScoreType).
Local Abbreviation Search_Cuda := (Search_Cuda ScoreType).

Implicit Types (s : Search_Cuda) (logits : list ScoreType).

(** ** The assertions of [SetLogits] *)

Lemma matrix_size_pos (p : SearchParams) :
  params_ok p → 0 < BatchBeamSize p * vocab_size p.
Proof. intros [? ? ? ?]. unfold BatchBeamSize. nia. Qed.

(** C3.  For well-formed parameters, [SetLogits] stops at a failed assertion
    for every logits buffer whose element count is not exactly
    [batch_beam_size × vocab_size]: that is so whenever the derived
    [input_length] is not 1, and whenever the count is not a multiple of
    [batch_beam_size × vocab_size]. *)
Theorem SetLogits_asserts_input_length logits s :
  params_ok (params_ s) →
  let size := Z.of_nat (length logits) in
  let row_count := BatchBeamSize (params_ s) * vocab_size (params_ s) in
  size ≠ row_count ∨ size / row_count ≠ 1 ∨ size mod row_count ≠ 0 →
  SetLogits logits s = Fatal AssertFailed.
Proof.
  intros Hp size row_count Hsize.
  pose proof (matrix_size_pos _ Hp) as Hpos. fold row_count in Hpos.
  unfold SetLogits. fold size row_count.
  destruct (Z.eqb_spec (size mod row_count) 0) as [Hmod|Hmod]; [|done].
  destruct (Z.eqb_spec (size / row_count) 1) as [Hdiv|Hdiv]; [|done].
  exfalso.
  assert (size = row_count) as Heq.
  { rewrite (Z.div_mod size row_count) by lia. rewrite Hmod, Hdiv. lia. }
  destruct Hsize as [?|[?|?]]; done.
Qed.

(** ** The guard of beam-search candidate selection *)

(** C4.  With more than 32 beams [BeamSearch_Cuda::NextTokensFromLogits]
    stops at [assert(false)]: it returns no search state, so no
    candidates are produced and [Process] is not reached. *)
Theorem NextTokensFromLogits_rejects_many_beams s :
  32 < num_beams (params_ s) →
  BeamSearch_NextTokensFromLogits s = Fatal AssertFailed.
Proof.
  intros Hnb. unfold BeamSearch_NextTokensFromLogits. cbn.
  destruct (Z.leb_spec (num_beams (params_ s)) 32); [lia|done].
Qed.

(** ** Rows of the score matrix *)

Lemma span_read_length {A} (buf : list A) (off n : Z) :
  0 ≤ off → 0 ≤ n → off + n ≤ Z.of_nat (length buf) →
  length (span_read buf (Span off n)) = Z.to_nat n.
Proof.
  intros. unfold span_read. cbn. rewrite length_take, length_drop. lia.
Qed.

Lemma span_read_lookup {A} (buf : list A) (off n t : Z) :
  0 ≤ off → 0 ≤ t < n →
  span_read buf (Span off n) !! Z.to_nat t = buf !! Z.to_nat (off + t).
Proof.
  intros. unfold span_read. cbn.
  rewrite lookup_take_lt by lia. rewrite lookup_drop. f_equal. lia.
Qed.

(** C8.  [GetScores(batch_beam_index)] asserts
    [0 ≤ batch_beam_index < batch_beam_size].  Under that precondition it
    returns the span of [vocab_size] scores that starts at
    [batch_beam_index × vocab_size]; the span lies inside the score matrix,
    it holds the scores of that slot, and the spans of two distinct valid
    indices have no position in common. *)
Theorem GetScores_row s (i : Z) :
  search_ok s →
  (¬ (0 ≤ i < BatchBeamSize (params_ s)) →
   GetScores i s = Fatal AssertFailed)
  ∧ (0 ≤ i < BatchBeamSize (params_ s) →
     let row := Span (i * vocab_size (params_ s)) (vocab_size (params_ s)) in
     GetScores i s = Ok row
     ∧ 0 ≤ span_data row
     ∧ span_data row + span_size row
       ≤ Z.of_nat (length (next_token_scores_ (mem s)))
     ∧ length (span_read (next_token_scores_ (mem s)) row)
       = Z.to_nat (vocab_size (params_ s))
     ∧ (∀ t, 0 ≤ t < vocab_size (params_ s) →
          span_read (next_token_scores_ (mem s)) row !! Z.to_nat t
          = score_at s i t)
     ∧ (∀ j other, 0 ≤ j < BatchBeamSize (params_ s) → j ≠ i →
          GetScores j s = Ok other →
          ∀ x, span_range row x → ¬ span_range other x)).
Proof.
  intros [[Hb Hn Hv Hfit] Hlen]. split.
  - intros Hout. unfold GetScores.
    destruct (Z.leb_spec 0 i); destruct (Z.ltb_spec i (BatchBeamSize (params_ s)));
      cbn; try done; lia.
  - intros Hin row.
    assert (∀ j, 0 ≤ j < BatchBeamSize (params_ s) →
              GetScores j s
              = Ok (Span (j * vocab_size (params_ s)) (vocab_size (params_ s))))
      as Hget.
    { intros j Hj. unfold GetScores, subspan, scores_span.
      destruct (Z.leb_spec 0 j); destruct (Z.ltb_spec j (BatchBeamSize (params_ s)));
        try lia. cbn. done. }
    split; [by apply Hget|]. subst row. cbn [span_data span_size].
    split; [nia|]. split; [nia|].
    split; [apply span_read_length; nia|].
    split.
    + intros t Ht. unfold score_at. apply span_read_lookup; nia.
    + intros j other Hj Hne Hother x. rewrite (Hget j Hj) in Hother.
      injection Hother as <-. unfold span_range. cbn. nia.
Qed.

Lemma GetScores_ok s (i : Z) :
  0 ≤ i < BatchBeamSize (params_ s) →
  GetScores i s = Ok (Span (i * vocab_size (params_ s)) (vocab_size (params_ s))).
Proof.
  intros Hi. unfold GetScores, subspan, scores_span.
  destruct (Z.leb_spec 0 i); destruct (Z.ltb_spec i (BatchBeamSize (params_ s)));
    try lia. done.
Qed.

(** ** The MinLength processor *)

(** The loop of [MinLength] over the slots [i0 .. i0 + n - 1]: it only
    rewrites the score matrix, and there exactly the end-of-sequence entry
    of each of these slots. *)
Lemma MinLength_loop (n : nat) : ∀ (i0 : Z) s,
  search_ok s → eos_ok (params_ s) →
  0 ≤ i0 → i0 + Z.of_nat n ≤ BatchBeamSize (params_ s) →
  ∃ v,
    for_loop n i0
      (λ i s,
         beam_token_scores ← GetScores i s;
         Ok (on_mem (λ m, with_scores
                             (span_store (next_token_scores_ m) beam_token_scores
                                (eos_token_id (params_ s)) lowest) m) s))
      s = Ok (on_mem (with_scores v) s)
    ∧ length v = length (next_token_scores_ (mem s))
    ∧ ∀ i t, 0 ≤ i < BatchBeamSize (params_ s) → 0 ≤ t < vocab_size (params_ s) →
        v !! Z.to_nat (i * vocab_size (params_ s) + t)
        = if bool_decide (i0 ≤ i < i0 + Z.of_nat n ∧ t = eos_token_id (params_ s))
          then Some lowest
          else score_at s i t.
Proof.
  induction n as [|n IH]; intros i0 s Hok Heos Hi0 Hn.
  - exists (next_token_scores_ (mem s)). cbn. split; [by destruct s as [? ? []]|].
    split; [done|]. intros i t Hi Ht. rewrite bool_decide_eq_false_2 by lia. done.
  - cbn [for_loop]. rewrite GetScores_ok by lia. cbn.
    set (v1 := span_store (next_token_scores_ (mem s))
                 (Span (i0 * vocab_size (params_ s)) (vocab_size (params_ s)))
                 (eos_token_id (params_ s)) lowest).
    set (s1 := on_mem _ s).
    assert (length v1 = length (next_token_scores_ (mem s))) as Hlen1
      by apply length_insert.
    assert (search_ok s1) as Hok1.
    { destruct Hok as [Hp Hl]. split; [exact Hp|]. cbn. fold v1. by rewrite Hlen1. }
    destruct (IH (i0 + 1) s1 Hok1 Heos ltac:(lia) ltac:(cbn; lia))
      as (v & Hrun & Hlen & Hv).
    exists v. split; [exact Hrun|]. split; [by rewrite Hlen|].
    intros i t Hi Ht. cbn in Hv. rewrite (Hv i t Hi Ht).
    destruct Hok as [[Hb Hnb Hvs Hfit] Hl]. unfold eos_ok in Heos.
    unfold score_at. cbn. fold v1. unfold v1, span_store. cbn [span_data].
    case_bool_decide as Hin1; case_bool_decide as Hin2; try lia; try done.
    + destruct (decide (i = i0 ∧ t = eos_token_id (params_ s))) as [[-> ->]|Hne];
        [|lia].
      apply list_lookup_insert_eq. nia.
    + apply list_lookup_insert_ne.
      assert (i0 * vocab_size (params_ s) + eos_token_id (params_ s)
              ≠ i * vocab_size (params_ s) + t) as Hne.
      { destruct (decide (i = i0)) as [->|Hi0']; [lia|].
        destruct (Z.lt_total i i0) as [?|[?|?]]; [nia|done|nia]. }
      assert (0 ≤ i0 * vocab_size (params_ s)) by nia.
      assert (0 ≤ i * vocab_size (params_ s)) by nia.
      lia.
Qed.

(** C2.  [MinLength] acts only while the sequence length is below
    [min_length]: it then gives the end-of-sequence token of every
    batch-beam slot the lowest score; from [min_length] on it returns the
    search as it was, every score included. *)
Theorem MinLength_masks_eos (min_length : Z) s :
  search_ok s → eos_ok (params_ s) →
  (GetSequenceLength s < min_length →
   ∃ s', MinLength min_length s = Ok s'
         ∧ ∀ i, 0 ≤ i < BatchBeamSize (params_ s) →
                score_at s' i (eos_token_id (params_ s)) = Some lowest)
  ∧ (min_length ≤ GetSequenceLength s → MinLength min_length s = Ok s).
Proof.
  intros Hok Heos. unfold MinLength, GetSequenceLength. split; intros Hlen.
  - destruct (Z.geb_spec (Sequences_GetSequenceLength (sequences_ s)) min_length);
      [lia|].
    destruct (MinLength_loop (Z.to_nat (BatchBeamSize (params_ s))) 0 s Hok Heos)
      as (v & Hrun & _ & Hv); [lia| |].
    { destruct Hok as [[? ? ? ?] ?]. unfold BatchBeamSize. nia. }
    eexists. split; [exact Hrun|]. intros i Hi. unfold score_at. cbn.
    rewrite (Hv i _ Hi Heos). rewrite bool_decide_eq_true_2; [done|lia].
  - destruct (Z.geb_spec (Sequences_GetSequenceLength (sequences_ s)) min_length);
      [done|lia].
Qed.

(** C9.  Below [min_length], [MinLength] changes no score other than the
    end-of-sequence entries: the score of every other token of every slot
    is what it was, the matrix keeps its size, and the rest of the search
    is untouched. *)
Theorem MinLength_frame (min_length : Z) s :
  search_ok s → eos_ok (params_ s) →
  GetSequenceLength s < min_length →
  ∃ v, MinLength min_length s = Ok (on_mem (with_scores v) s)
       ∧ length v = length (next_token_scores_ (mem s))
       ∧ ∀ i t, 0 ≤ i < BatchBeamSize (params_ s) →
                0 ≤ t < vocab_size (params_ s) →
                t ≠ eos_token_id (params_ s) →
                score_at (on_mem (with_scores v) s) i t = score_at s i t.
Proof.
  intros Hok Heos Hlen. unfold MinLength, GetSequenceLength in *.
  destruct (Z.geb_spec (Sequences_GetSequenceLength (sequences_ s)) min_length);
    [lia|].
  destruct (MinLength_loop (Z.to_nat (BatchBeamSize (params_ s))) 0 s Hok Heos)
    as (v & Hrun & Hl & Hv); [lia| |].
  { destruct Hok as [[? ? ? ?] ?]. unfold BatchBeamSize. nia. }
  exists v. split; [exact Hrun|]. split; [exact Hl|].
  intros i t Hi Ht Hne. unfold score_at at 1. cbn.
  rewrite (Hv i t Hi Ht). rewrite bool_decide_eq_false_2; [done|lia].
Qed.

(** ** The copy loop of [SetLogits] *)

Lemma span_read_write_at_same {A} (buf data : list A) (off n : Z) :
  0 ≤ off → length data = Z.to_nat n → off + n ≤ Z.of_nat (length buf) →
  span_read (write_at off data buf) (Span off n) = data.
Proof.
  intros Hoff Hdata Hfit. apply list_eq. intros j.
  unfold span_read, write_at. cbn.
  destruct (decide (j < Z.to_nat n)%nat) as [Hj|Hj].
  - rewrite lookup_take_lt, lookup_drop by lia.
    rewrite list_lookup_inserts by lia. f_equal. lia.
  - rewrite lookup_take_ge by lia. symmetry. apply lookup_ge_None. lia.
Qed.

Lemma span_read_write_at_other {A} (buf data : list A) (off off' n : Z) :
  0 ≤ off → 0 ≤ off' → 0 ≤ n →
  off' + n ≤ off ∨ off + Z.of_nat (length data) ≤ off' →
  span_read (write_at off data buf) (Span off' n) = span_read buf (Span off' n).
Proof.
  intros Hoff Hoff' Hn Hdisj. apply list_eq. intros j.
  unfold span_read, write_at. cbn.
  destruct (decide (j < Z.to_nat n)%nat) as [Hj|Hj].
  - rewrite !lookup_take_lt, !lookup_drop by lia.
    destruct Hdisj.
    + apply list_lookup_inserts_lt. lia.
    + apply list_lookup_inserts_ge. lia.
  - by rewrite !lookup_take_ge by lia.
Qed.

Lemma write_at_length {A} (buf data : list A) (off : Z) :
  length (write_at off data buf) = length buf.
Proof. apply length_inserts. Qed.

Lemma log_softmax_length (row : list ScoreType) :
  length (log_softmax row) = length row.
Proof. apply length_imap. Qed.

Lemma SetLogits_slot_healthy (L : Z) logits (i cur : Z) s :
  healthy (cuda_stream s) = true →
  let target :=
    subspan (scores_span s) (i * vocab_size (params_ s)) (vocab_size (params_ s)) in
  SetLogits_slot L logits i (s, cur)
  = Ok (Launch_log_softmax target
          (run_kernel K_memcpy
             (λ m, with_scores
                     (write_at (span_data target)
                        (span_read logits (Span cur (vocab_size (params_ s))))
                        (next_token_scores_ m)) m) s),
        cur + L * vocab_size (params_ s)).
Proof.
  intros Hh. unfold SetLogits_slot, cudaMemcpyAsync, CudaCheck.
  rewrite Hh. reflexivity.
Qed.

(** The slots [i0 .. i0 + n - 1]: each row becomes the log-softmax of the
    last position of the slot's logits, and the rows before [i0] stay. *)
Lemma SetLogits_loop (L : Z) logits (n : nat) : ∀ (i0 : Z) s,
  search_ok s → healthy (cuda_stream s) = true →
  1 ≤ L →
  Z.of_nat (length logits) = L * (BatchBeamSize (params_ s) * vocab_size (params_ s)) →
  0 ≤ i0 → i0 + Z.of_nat n ≤ BatchBeamSize (params_ s) →
  ∃ s' cur,
    for_loop n i0 (SetLogits_slot L logits)
      (s, (i0 * L + (L - 1)) * vocab_size (params_ s)) = Ok (s', cur)
    ∧ params_ s' = params_ s
    ∧ sequences_ s' = sequences_ s
    ∧ length (next_token_scores_ (mem s')) = length (next_token_scores_ (mem s))
    ∧ (∀ i, i0 ≤ i < i0 + Z.of_nat n →
         score_row s' i
         = log_softmax
             (span_read logits
                (Span ((i * L + (L - 1)) * vocab_size (params_ s))
                      (vocab_size (params_ s)))))
    ∧ (∀ i, 0 ≤ i < i0 → score_row s' i = score_row s i).
Proof.
  induction n as [|n IH]; intros i0 s Hok Hh HL Hsize Hi0 Hn.
  - exists s, ((i0 * L + (L - 1)) * vocab_size (params_ s)). cbn.
    repeat split; try done. intros; lia.
  - pose proof Hok as [[Hb Hnb Hvs Hfit] Hlen].
    cbn [for_loop]. rewrite SetLogits_slot_healthy by done.
    cbn [mbind outcome_bind].
    set (s1 := Launch_log_softmax _ _).
    pose (src := span_read logits
                   (Span ((i0 * L + (L - 1)) * vocab_size (params_ s))
                         (vocab_size (params_ s)))).
    pose (off := 0 + i0 * vocab_size (params_ s)).
    pose (w := write_at off src (next_token_scores_ (mem s))).
    pose (v1 := write_at off
                  (log_softmax (span_read w (Span off (vocab_size (params_ s))))) w).
    assert (next_token_scores_ (mem s1) = v1) as Hs1 by reflexivity.
    assert (params_ s1 = params_ s) as Hp1 by reflexivity.
    assert (sequences_ s1 = sequences_ s) as Hq1 by reflexivity.
    assert (healthy (cuda_stream s1) = true) as Hh1 by exact Hh.
    clearbody s1.
    assert (length src = Z.to_nat (vocab_size (params_ s))) as Hsrc.
    { apply span_read_length; nia. }
    assert (span_read w (Span off (vocab_size (params_ s))) = src) as Hw.
    { apply span_read_write_at_same; [lia|done|]. subst off. nia. }
    assert (length v1 = length (next_token_scores_ (mem s))) as Hlen1.
    { unfold v1, w. by rewrite !write_at_length. }
    assert (search_ok s1) as Hok1.
    { split; [by rewrite Hp1|]. rewrite Hs1, Hp1, Hlen1. done. }
    destruct (IH (i0 + 1) s1 Hok1 Hh1 HL) as
      (s' & cur & Hrun & Hp' & Hq' & Hl' & Hrows & Hkeep);
      [rewrite Hp1; done|lia|rewrite Hp1; lia|].
    exists s', cur. rewrite Hp1 in Hrun, Hrows.
    replace ((i0 * L + (L - 1)) * vocab_size (params_ s) + L * vocab_size (params_ s))
      with (((i0 + 1) * L + (L - 1)) * vocab_size (params_ s)) by lia.
    split; [exact Hrun|]. split; [congruence|]. split; [congruence|].
    split; [congruence|].
    assert (score_row s1 i0 = log_softmax src) as Hrow1.
    { unfold score_row. rewrite Hs1, Hp1. unfold v1. rewrite Hw.
      replace (i0 * vocab_size (params_ s)) with off by (subst off; lia).
      apply span_read_write_at_same; [subst off; nia| |].
      - by rewrite log_softmax_length.
      - unfold w. rewrite write_at_length. subst off. nia. }
    split.
    + intros i Hi. destruct (decide (i = i0)) as [->|Hne].
      * rewrite Hkeep by lia. exact Hrow1.
      * apply Hrows. lia.
    + intros i Hi. rewrite Hkeep by lia.
      unfold score_row. rewrite Hs1, Hp1. unfold v1. rewrite Hw. unfold w.
      rewrite !span_read_write_at_other; try done; try (subst off; nia).
Qed.

Lemma SetLogits_accepts logits s :
  params_ok (params_ s) →
  Z.of_nat (length logits) = BatchBeamSize (params_ s) * vocab_size (params_ s) →
  SetLogits logits s = SetLogits_last_token 1 logits s.
Proof.
  intros Hp Hsize. pose proof (matrix_size_pos _ Hp) as Hpos.
  unfold SetLogits. rewrite Hsize.
  rewrite Z_mod_same_full, Z_div_same_full by lia. reflexivity.
Qed.

(** C10, as amended.  The copy loop of [SetLogits] is written for any
    [input_length] [L ≥ 1]: run on a logits buffer of
    [L × batch_beam_size × vocab_size] elements it reads only the last
    position of each slot, and row [i] of the score matrix becomes the
    log-softmax of the [vocab_size] logits that start at
    [(i × L + (L − 1)) × vocab_size].  [SetLogits] itself reaches the loop
    only with [L = 1], where row [i] is the log-softmax of the logits that
    start at [i × vocab_size]. *)
Theorem SetLogits_last_position logits s :
  search_ok s → healthy (cuda_stream s) = true →
  let size := Z.of_nat (length logits) in
  let vocab := vocab_size (params_ s) in
  (∀ L, 1 ≤ L → size = L * (BatchBeamSize (params_ s) * vocab) →
     ∃ s', SetLogits_last_token L logits s = Ok s'
           ∧ params_ s' = params_ s
           ∧ ∀ i, 0 ≤ i < BatchBeamSize (params_ s) →
                  score_row s' i
                  = log_softmax
                      (span_read logits (Span ((i * L + (L - 1)) * vocab) vocab)))
  ∧ (size = BatchBeamSize (params_ s) * vocab →
     ∃ s', SetLogits logits s = Ok s'
           ∧ params_ s' = params_ s
           ∧ ∀ i, 0 ≤ i < BatchBeamSize (params_ s) →
                  score_row s' i
                  = log_softmax (span_read logits (Span (i * vocab) vocab))).
Proof.
  intros Hok Hh size vocab.
  assert (∀ L, 1 ≤ L → size = L * (BatchBeamSize (params_ s) * vocab) →
     ∃ s', SetLogits_last_token L logits s = Ok s'
           ∧ params_ s' = params_ s
           ∧ ∀ i, 0 ≤ i < BatchBeamSize (params_ s) →
                  score_row s' i
                  = log_softmax
                      (span_read logits (Span ((i * L + (L - 1)) * vocab) vocab)))
    as Hloop.
  { intros L HL Hsize.
    destruct (SetLogits_loop L logits (Z.to_nat (BatchBeamSize (params_ s))) 0 s
                Hok Hh HL Hsize)
      as (s' & cur & Hrun & Hp' & _ & _ & Hrows & _); [lia| |].
    { destruct Hok as [[? ? ? ?] ?]. unfold BatchBeamSize. nia. }
    exists s'. unfold SetLogits_last_token.
    replace ((L - 1) * vocab_size (params_ s))
      with ((0 * L + (L - 1)) * vocab_size (params_ s)) by lia.
    rewrite Hrun. cbn. split; [done|]. split; [done|].
    intros i Hi. apply Hrows. lia. }
  split; [exact Hloop|].
  intros Hsize. destruct (Hloop 1) as (s' & Hrun & Hp' & Hrows); [lia|lia|].
  exists s'. rewrite SetLogits_accepts by (done || apply Hok).
  split; [done|]. split; [done|].
  intros i Hi. rewrite (Hrows i Hi). do 3 f_equal. lia.
Qed.

End SearchFacts.

(** ** Selection, merge and sort commute with a map *)

Section ThroughMap.
Context {A B : Type} (f : A → B) (R : relation B) `{!RelDecision R}.

Lemma pulled_decide (x y : A) :
  decide (pulled f R x y) = decide (R (f x) (f y)).
Proof. reflexivity. Qed.

Lemma list_merge_fmap (l1 l2 : list A) :
  list_merge R (f <$> l1) (f <$> l2) = f <$> list_merge (pulled f R) l1 l2.
Proof.
  revert l2. induction l1 as [|x1 l1 IH1]; intros l2; [by destruct l2|].
  induction l2 as [|x2 l2 IH2]; [done|].
  rewrite !fmap_cons, !list_merge_cons, pulled_decide.
  destruct (decide (R (f x1) (f x2))); rewrite fmap_cons; f_equal.
  - apply (IH1 (x2 :: l2)).
  - apply IH2.
Qed.

Lemma merge_list_to_stack_fmap (st : list (option (list A))) (l : list A) :
  merge_list_to_stack R (fmap (M:=list) (fmap (M:=option) (fmap (M:=list) f)) st) (f <$> l)
  = fmap (M:=list) (fmap (M:=option) (fmap (M:=list) f))
      (merge_list_to_stack (pulled f R) st l).
Proof.
  revert l. induction st as [|[l'|] st IH]; intros l; cbn; [done| |done].
  f_equal. rewrite list_merge_fmap. apply IH.
Qed.

Lemma merge_stack_fmap (st : list (option (list A))) :
  merge_stack R (fmap (M:=list) (fmap (M:=option) (fmap (M:=list) f)) st) = f <$> merge_stack (pulled f R) st.
Proof.
  induction st as [|[l'|] st IH]; cbn; [done| |done].
  rewrite IH. apply list_merge_fmap.
Qed.

Lemma merge_sort_aux_fmap (l : list A) : ∀ st : list (option (list A)),
  merge_sort_aux R (fmap (M:=list) (fmap (M:=option) (fmap (M:=list) f)) st) (f <$> l)
  = f <$> merge_sort_aux (pulled f R) st l.
Proof.
  induction l as [|x l IH]; intros st; cbn; [apply merge_stack_fmap|].
  rewrite <-IH. f_equal. apply (merge_list_to_stack_fmap st [x]).
Qed.

Lemma naive_topk_fmap (k : nat) (l : list A) :
  naive_topk R k (f <$> l) = f <$> naive_topk (pulled f R) k l.
Proof.
  unfold naive_topk, merge_sort. rewrite fmap_take. f_equal.
  apply (merge_sort_aux_fmap l []).
Qed.

Lemma extract_best_fmap (x : A) (l : list A) :
  extract_best R (f x) (f <$> l)
  = (f (extract_best (pulled f R) x l).1,
     f <$> (extract_best (pulled f R) x l).2).
Proof.
  revert x. induction l as [|y l IH]; intros x; [done|]. cbn.
  rewrite pulled_decide.
  destruct (decide (R (f x) (f y))).
  - rewrite IH. by destruct (extract_best (pulled f R) x l).
  - rewrite IH. by destruct (extract_best (pulled f R) y l).
Qed.

Lemma select_topk_fmap (k : nat) (l : list A) :
  select_topk R k (f <$> l) = f <$> select_topk (pulled f R) k l.
Proof.
  revert l. induction k as [|k IH]; intros [|x l]; try done. cbn.
  rewrite extract_best_fmap. destruct (extract_best (pulled f R) x l) as [b rest].
  cbn. by rewrite IH.
Qed.

Lemma insert_sorted_fmap (x : A) (l : list A) :
  insert_sorted R (f x) (f <$> l) = f <$> insert_sorted (pulled f R) x l.
Proof.
  induction l as [|y l IH]; [done|]. cbn.
  rewrite pulled_decide.
  destruct (decide (R (f x) (f y))); cbn; [done|]. by rewrite IH.
Qed.

Lemma bounded_queue_fmap (k : nat) (l : list A) :
  foldr (bounded_push R k) [] (f <$> l)
  = f <$> foldr (bounded_push (pulled f R) k) [] l.
Proof.
  induction l as [|x l IH]; [done|]. cbn. rewrite IH. unfold bounded_push.
  by rewrite insert_sorted_fmap, fmap_take.
Qed.

Lemma fmap_concat (lists : list (list A)) :
  concat (fmap (M:=list) (fmap (M:=list) f) lists) = f <$> concat lists.
Proof.
  induction lists as [|l lists IH]; [done|]. cbn. by rewrite fmap_app, IH.
Qed.

Lemma bounded_merge_fmap (k : nat) (lists : list (list A)) :
  bounded_merge R k (fmap (M:=list) (fmap (M:=list) f) lists)
  = f <$> bounded_merge (pulled f R) k lists.
Proof.
  unfold bounded_merge. by rewrite <-bounded_queue_fmap, fmap_concat.
Qed.

End ThroughMap.

(** ** Top-k: selection, bounded merge and full sort agree *)

Section TopKFacts.
Context {A : Type} (R : relation A).
Context `{!RelDecision R, !Total R, !Transitive R, !AntiSymm (=) R}.

Lemma insert_sorted_perm (x : A) (l : list A) : insert_sorted R x l ≡ₚ x :: l.
Proof.
  induction l as [|y l IH]; cbn; [done|].
  case_decide; [done|]. rewrite IH. apply Permutation_swap.
Qed.

Lemma insert_sorted_Sorted (x : A) (l : list A) :
  Sorted R l → Sorted R (insert_sorted R x l).
Proof.
  induction 1 as [|y l Hl IH Hhd]; cbn.
  - by repeat constructor.
  - case_decide as Hxy.
    + by repeat constructor.
    + assert (R y x) as Hyx by (by destruct (total R x y)).
      constructor; [exact IH|].
      destruct Hhd as [|z l' Hyz]; cbn; [by constructor|].
      case_decide; by constructor.
Qed.

Lemma insertion_sort_Sorted (l : list A) : Sorted R (insertion_sort R l).
Proof.
  induction l; cbn; [constructor|]. by apply insert_sorted_Sorted.
Qed.

Lemma insertion_sort_perm (l : list A) : insertion_sort R l ≡ₚ l.
Proof.
  induction l as [|x l IH]; cbn; [done|]. by rewrite insert_sorted_perm, IH.
Qed.

(** A sorted arrangement of a list is what the full sort returns. *)
Lemma merge_sort_unique (l l' : list A) :
  Sorted R l → l ≡ₚ l' → merge_sort R l' = l.
Proof.
  intros Hl Hp. apply (Sorted_unique R); [apply Sorted_merge_sort; apply _|done|].
  by rewrite merge_sort_Permutation.
Qed.

Lemma insertion_sort_merge_sort (l : list A) :
  insertion_sort R l = merge_sort R l.
Proof.
  symmetry. apply merge_sort_unique;
    [apply insertion_sort_Sorted|apply insertion_sort_perm].
Qed.

Lemma merge_sort_perm (l l' : list A) :
  l ≡ₚ l' → merge_sort R l = merge_sort R l'.
Proof.
  intros Hp. apply merge_sort_unique; [apply Sorted_merge_sort; apply _|].
  by rewrite merge_sort_Permutation.
Qed.

Lemma Sorted_take (k : nat) (l : list A) : Sorted R l → Sorted R (take k l).
Proof.
  intros Hl. apply StronglySorted_Sorted.
  apply (StronglySorted_app_1_l R (take k l) (drop k l)).
  rewrite take_drop. by apply Sorted_StronglySorted.
Qed.

Lemma merge_sort_Sorted_id (l : list A) : Sorted R l → merge_sort R l = l.
Proof. intros Hl. by apply merge_sort_unique. Qed.

(** Only the first [k] elements of a queue matter to the first [k] elements
    after an insertion. *)
Lemma take_insert_sorted (k : nat) (x : A) (l : list A) :
  take k (insert_sorted R x l) = take k (insert_sorted R x (take k l)).
Proof.
  revert k. induction l as [|y l IH]; intros [|k]; cbn; try done.
  case_decide; cbn.
  - f_equal. destruct k as [|k]; cbn; [done|].
    f_equal. rewrite take_take. f_equal. lia.
  - f_equal. apply IH.
Qed.

Lemma take_foldr_insert (k : nat) (queue l : list A) :
  take k (foldr (insert_sorted R) queue l)
  = take k (foldr (insert_sorted R) (take k queue) l).
Proof.
  induction l as [|x l IH]; cbn.
  - by rewrite take_take, Nat.min_id.
  - rewrite take_insert_sorted, IH, <-take_insert_sorted. done.
Qed.

(** The bounded queue holds the first [k] elements of the sorted input. *)
Lemma bounded_queue_sorted (k : nat) (l : list A) :
  foldr (bounded_push R k) [] l = take k (insertion_sort R l).
Proof.
  induction l as [|x l IH]; cbn.
  - by rewrite take_nil.
  - rewrite IH. unfold bounded_push. by rewrite <-take_insert_sorted.
Qed.

Lemma bounded_merge_naive (k : nat) (lists : list (list A)) :
  bounded_merge R k lists = naive_topk R k (concat lists).
Proof.
  unfold bounded_merge, naive_topk.
  by rewrite bounded_queue_sorted, insertion_sort_merge_sort.
Qed.

Lemma naive_topk_perm (k : nat) (l l' : list A) :
  l ≡ₚ l' → naive_topk R k l = naive_topk R k l'.
Proof. intros Hp. unfold naive_topk. by rewrite (merge_sort_perm l l'). Qed.

Lemma naive_topk_idem (k : nat) (l : list A) :
  naive_topk R k (naive_topk R k l) = naive_topk R k l.
Proof.
  unfold naive_topk. rewrite merge_sort_Sorted_id.
  - by rewrite take_take, Nat.min_id.
  - apply Sorted_take, Sorted_merge_sort, _.
Qed.

(** The best [k] of [l1 ++ l2] are among [l1] and the best [k] of [l2]. *)
Lemma naive_topk_app_r (k : nat) (l1 l2 : list A) :
  naive_topk R k (l1 ++ l2) = naive_topk R k (l1 ++ naive_topk R k l2).
Proof.
  unfold naive_topk. rewrite <-!insertion_sort_merge_sort.
  unfold insertion_sort. rewrite !foldr_app.
  fold (insertion_sort R l2). fold (insertion_sort R (take k (insertion_sort R l2))).
  rewrite (insertion_sort_merge_sort (take k _)).
  rewrite merge_sort_Sorted_id by apply Sorted_take, insertion_sort_Sorted.
  apply take_foldr_insert.
Qed.

Lemma naive_topk_app (k : nat) (l1 l2 : list A) :
  naive_topk R k (l1 ++ l2)
  = naive_topk R k (naive_topk R k l1 ++ naive_topk R k l2).
Proof.
  rewrite naive_topk_app_r.
  rewrite (naive_topk_perm k (l1 ++ _) (naive_topk R k l2 ++ l1))
    by apply Permutation_app_comm.
  rewrite naive_topk_app_r.
  apply naive_topk_perm, Permutation_app_comm.
Qed.

(** Two-stage selection: the best [k] of the local best [k] of the parts are
    the best [k] of the whole. *)
Lemma naive_topk_concat (k : nat) (lists : list (list A)) :
  naive_topk R k (concat (naive_topk R k <$> lists))
  = naive_topk R k (concat lists).
Proof.
  induction lists as [|l lists IH]; cbn; [done|].
  rewrite naive_topk_app, naive_topk_idem, IH, <-naive_topk_app. done.
Qed.

(** What the reference returns: a sorted list of elements of [l], each
    ranked no later than every element left out. *)
Lemma naive_topk_highest (k : nat) (l : list A) :
  Sorted R (naive_topk R k l)
  ∧ ∃ rest, l ≡ₚ naive_topk R k l ++ rest
            ∧ ∀ x y, x ∈ naive_topk R k l → y ∈ rest → R x y.
Proof.
  unfold naive_topk. split; [apply Sorted_take, Sorted_merge_sort, _|].
  exists (drop k (merge_sort R l)). split.
  - by rewrite take_drop, merge_sort_Permutation.
  - intros x y Hx Hy.
    apply (StronglySorted_app_1_elem_of R (take k (merge_sort R l))
             (drop k (merge_sort R l))); [|done..].
    rewrite take_drop. apply StronglySorted_merge_sort; apply _.
Qed.

(** One reduction pass finds the element ranked first and keeps the rest. *)
Lemma extract_best_spec (l : list A) : ∀ (x b : A) (rest : list A),
  extract_best R x l = (b, rest) →
  x :: l ≡ₚ b :: rest ∧ Forall (R b) (b :: rest).
Proof.
  induction l as [|y l IH]; intros x b rest Heq; cbn in Heq.
  - injection Heq as <- <-. split; [done|].
    constructor; [|constructor]. by destruct (total R x x).
  - case_decide as Hxy.
    + destruct (extract_best R x l) as [b' rest'] eqn:Hrec.
      injection Heq as <- <-.
      destruct (IH _ _ _ Hrec) as [Hp Hall]. split.
      * rewrite (Permutation_swap y x l), Hp. apply Permutation_swap.
      * inversion Hall as [|? ? Hbb Hrest]; subst.
        constructor; [done|]. constructor; [|done].
        assert (b' ∈ x :: l) as Hin by (rewrite Hp; left).
        assert (R b' x) as Hbx.
        { assert (Forall (R b') (x :: l)) as Hall' by (by rewrite Hp).
          by inversion Hall'. }
        by trans x.
    + destruct (extract_best R y l) as [b' rest'] eqn:Hrec.
      injection Heq as <- <-.
      destruct (IH _ _ _ Hrec) as [Hp Hall]. split.
      * rewrite Hp. apply Permutation_swap.
      * inversion Hall as [|? ? Hbb Hrest]; subst.
        constructor; [done|]. constructor; [|done].
        assert (Forall (R b') (y :: l)) as Hall' by (by rewrite Hp).
        assert (R b' y) as Hby by (by inversion Hall').
        assert (R y x) as Hyx by (by destruct (total R x y)).
        by trans y.
Qed.

Lemma select_topk_naive (k : nat) : ∀ l : list A,
  select_topk R k l = naive_topk R k l.
Proof.
  induction k as [|k IH]; intros [|x l]; try done.
  cbn [select_topk].
  destruct (extract_best R x l) as [b rest] eqn:Hbest.
  destruct (extract_best_spec _ _ _ _ Hbest) as [Hp Hall].
  rewrite IH. unfold naive_topk.
  rewrite (merge_sort_unique (b :: merge_sort R rest) (x :: l)); [done| |].
  - constructor; [apply Sorted_merge_sort, _|].
    inversion Hall as [|? ? _ Hrest]; subst.
    assert (Forall (R b) (merge_sort R rest)) as Hsorted
      by (by rewrite merge_sort_Permutation).
    destruct Hsorted; by constructor.
  - by rewrite merge_sort_Permutation.
Qed.

End TopKFacts.

(** ** Layout of the candidate space *)

Lemma parts_of_concat_take {A} (n size : nat) (row : list A) :
  concat (parts_of n size row) = take (n * size) row.
Proof.
  unfold parts_of. induction n as [|n IH]; [done|].
  rewrite seq_S, fmap_app, concat_app, IH. cbn.
  rewrite app_nil_r, take_take_drop. f_equal. lia.
Qed.

Lemma part_size_covers (vocab parts : nat) :
  (0 < parts)%nat → (vocab ≤ parts * part_size vocab parts)%nat.
Proof.
  intros Hparts. unfold part_size.
  pose proof (Nat.div_mod_eq (vocab + parts - 1) parts).
  pose proof (Nat.mod_upper_bound (vocab + parts - 1) parts).
  lia.
Qed.

(** The parts of a row, put side by side, are the row. *)
Lemma parts_of_concat {A} (parts vocab : nat) (row : list A) :
  (0 < parts)%nat → (length row ≤ vocab)%nat →
  concat (parts_of parts (part_size vocab parts) row) = row.
Proof.
  intros Hparts Hrow. rewrite parts_of_concat_take. apply take_ge.
  pose proof (part_size_covers vocab parts Hparts). lia.
Qed.

Lemma naive_topk_length {A} (R : relation A) `{!RelDecision R} (k : nat) (l : list A) :
  length (naive_topk R k l) = (k `min` length l)%nat.
Proof.
  unfold naive_topk. rewrite length_take.
  by rewrite (Permutation_length (merge_sort_Permutation R l)).
Qed.

(** Position [b] of a concatenation of lists of [k] elements each. *)
Lemma concat_slice {A} (k : nat) (lists : list (list A)) : ∀ (b : nat) (l : list A),
  Forall (λ l, length l = k) lists → lists !! b = Some l →
  take k (drop (b * k) (concat lists)) = l.
Proof.
  induction lists as [|l0 lists IH]; intros b l Hall Hb; [done|].
  inversion Hall as [|? ? Hl0 Hrest]; subst.
  destruct b as [|b]; cbn in *.
  - injection Hb as <-. by rewrite drop_0, take_app_length.
  - rewrite drop_app_ge by lia.
    replace (length l0 + b * length l0 - length l0)%nat with (b * length l0)%nat by lia.
    by apply IH.
Qed.

Section BeamFacts.
Context `{Externals ScoreType}.

Local Abbreviation Candidate := (Candidate ScoreType).
Local Abbreviation Search_Cuda := (Search_Cuda ScoreType).

Implicit Types (s : Search_Cuda) (scores : list ScoreType).

(** *** The ranking of candidates *)

Section Ranking.
Context `{!ScoreOrder}.

Lemma better_score c1 c2 :
  better c1 c2 → score_leb (cand_score c2) (cand_score c1) = true.
Proof.
  unfold better, betterb.
  destruct (score_leb (cand_score c1) (cand_score c2));
    destruct (score_leb (cand_score c2) (cand_score c1)); cbn; done.
Qed.

Lemma better_tie c1 c2 :
  better c1 c2 → score_leb (cand_score c1) (cand_score c2) = true →
  (cand_id c1 ≤ cand_id c2)%nat.
Proof.
  unfold better, betterb. intros Hb H12. rewrite H12 in Hb.
  destruct (score_leb (cand_score c2) (cand_score c1)); cbn in Hb; [|done].
  by apply Nat.leb_le.
Qed.

#[local] Instance better_trans : Transitive better.
Proof.
  intros c1 c2 c3 H12 H23.
  pose proof (better_score _ _ H12) as S21.
  pose proof (better_score _ _ H23) as S32.
  pose proof (score_leb_trans _ _ _ S32 S21) as S31.
  unfold better, betterb. rewrite S31.
  destruct (score_leb (cand_score c1) (cand_score c3)) eqn:S13; cbn; [|done].
  apply Nat.leb_le.
  pose proof (better_tie _ _ H12 (score_leb_trans _ _ _ S13 S32)).
  pose proof (better_tie _ _ H23 (score_leb_trans _ _ _ S21 S13)).
  lia.
Qed.

(** *** The ranking of the positions of a block *)

Section Positions.
Variables (block : list ScoreType) (d : ScoreType).
Hypothesis block_ordered : Forall ordered block.
Hypothesis d_ordered : ordered d.

Lemma candidate_at_ordered (i : nat) :
  ordered (cand_score (candidate_at block d i)).
Proof.
  unfold candidate_at. cbn. destruct (block !! i) as [x|] eqn:Hx; cbn; [|done].
  by apply (Forall_lookup_1 _ _ _ _ block_ordered Hx).
Qed.

#[local] Instance ranks_total : Total (pulled (candidate_at block d) better).
Proof.
  intros i j. unfold pulled, better, betterb.
  pose proof (candidate_at_ordered i) as Hi.
  pose proof (candidate_at_ordered j) as Hj.
  destruct (score_leb_total _ _ Hi Hj) as [H12|H21];
    destruct (score_leb (cand_score (candidate_at block d i))
                (cand_score (candidate_at block d j))) eqn:E12;
    destruct (score_leb (cand_score (candidate_at block d j))
                (cand_score (candidate_at block d i))) eqn:E21;
    cbn; try done; try (by left); try (by right).
  all: destruct (Nat.leb_spec i j); destruct (Nat.leb_spec j i); auto; lia.
Qed.

#[local] Instance ranks_trans : Transitive (pulled (candidate_at block d) better).
Proof. intros i j l. apply better_trans. Qed.

#[local] Instance ranks_antisym :
  AntiSymm (=) (pulled (candidate_at block d) better).
Proof.
  intros i j H12 H21.
  pose proof (better_score _ _ H12) as S21.
  pose proof (better_score _ _ H21) as S12.
  pose proof (better_tie _ _ H12 S12). pose proof (better_tie _ _ H21 S21).
  cbn in *. lia.
Qed.

Lemma genuine_at (c : Candidate) :
  genuine block c → candidate_at block d (cand_id c) = c.
Proof.
  unfold genuine, candidate_at. destruct c as [x i]. cbn. by intros ->.
Qed.

Lemma genuine_fmap (l : list Candidate) :
  Forall (genuine block) l → candidate_at block d <$> (cand_id <$> l) = l.
Proof.
  induction 1 as [|c l Hc _ IH]; [done|]. cbn. by rewrite genuine_at, IH.
Qed.

Lemma genuine_fmap_lists (lists : list (list Candidate)) :
  Forall (Forall (genuine block)) lists →
  fmap (M:=list) (fmap (M:=list) (candidate_at block d))
    (fmap (M:=list) (fmap (M:=list) cand_id) lists) = lists.
Proof.
  induction 1 as [|l lists Hl _ IH]; [done|]. cbn. by rewrite genuine_fmap, IH.
Qed.

Lemma select_topk_better (k : nat) (l : list Candidate) :
  Forall (genuine block) l → select_topk better k l = naive_topk better k l.
Proof.
  intros Hl. rewrite <-(genuine_fmap l Hl). set (ids := cand_id <$> l).
  rewrite select_topk_fmap, naive_topk_fmap. f_equal.
  apply select_topk_naive; apply _.
Qed.

Lemma bounded_merge_better (k : nat) (lists : list (list Candidate)) :
  Forall (Forall (genuine block)) lists →
  bounded_merge better k lists = naive_topk better k (concat lists).
Proof.
  intros Hl. rewrite <-(genuine_fmap_lists lists Hl).
  set (ids := fmap (M:=list) (fmap (M:=list) cand_id) lists).
  rewrite bounded_merge_fmap, fmap_concat, naive_topk_fmap. f_equal.
  apply bounded_merge_naive; apply _.
Qed.

Lemma naive_topk_genuine (k : nat) (l : list Candidate) :
  Forall (genuine block) l → Forall (genuine block) (naive_topk better k l).
Proof.
  intros Hl. unfold naive_topk. apply Forall_take.
  by rewrite merge_sort_Permutation.
Qed.

Lemma naive_topk_concat_better (k : nat) (lists : list (list Candidate)) :
  Forall (Forall (genuine block)) lists →
  naive_topk better k (concat (naive_topk better k <$> lists))
  = naive_topk better k (concat lists).
Proof.
  intros Hl. rewrite <-(genuine_fmap_lists lists Hl).
  set (ids := fmap (M:=list) (fmap (M:=list) cand_id) lists).
  rewrite <-list_fmap_compose.
  rewrite (list_fmap_ext
             (naive_topk better k ∘ fmap (candidate_at block d))
             (fmap (candidate_at block d)
                ∘ naive_topk (pulled (candidate_at block d) better) k))
    by (intros; cbv [compose]; apply naive_topk_fmap).
  rewrite list_fmap_compose, !fmap_concat, !naive_topk_fmap. f_equal.
  apply naive_topk_concat; apply _.
Qed.

Lemma naive_topk_better_highest (k : nat) (l : list Candidate) :
  Forall (genuine block) l →
  Sorted better (naive_topk better k l)
  ∧ ∃ rest, l ≡ₚ naive_topk better k l ++ rest
            ∧ ∀ x y, x ∈ naive_topk better k l → y ∈ rest → better x y.
Proof.
  intros Hl. rewrite <-(genuine_fmap l Hl). set (ids := cand_id <$> l).
  rewrite naive_topk_fmap.
  destruct (naive_topk_highest (pulled (candidate_at block d) better) k ids)
    as (Hsorted & rest & Hperm & Hbest).
  split.
  - by apply (Sorted_fmap (candidate_at block d)
                (pulled (candidate_at block d) better) better).
  - exists (candidate_at block d <$> rest). split.
    + by rewrite <-fmap_app, <-Hperm.
    + intros x y Hx Hy. apply list_elem_of_fmap in Hx as (i & -> & Hi).
      apply list_elem_of_fmap in Hy as (j & -> & Hj). by apply Hbest.
Qed.

End Positions.

(** *** The two stages against the full sort *)

(** The rows of the beams of a batch element, side by side, are its
    flattened candidate space. *)
Lemma rows_prefix (block : list ScoreType) (vocab n : nat) :
  (n * vocab ≤ length block)%nat →
  concat ((λ j, imap (λ t x, {| cand_score := x; cand_id := (j * vocab + t)%nat |})
                     (take vocab (drop (j * vocab) block))) <$> seq 0 n)
  = imap (λ i x, {| cand_score := x; cand_id := i |}) (take (n * vocab) block).
Proof.
  induction n as [|n IH]; intros Hlen; [done|].
  rewrite seq_S, fmap_app, concat_app, IH by lia. cbn.
  rewrite app_nil_r.
  replace (vocab + n * vocab)%nat with (n * vocab + vocab)%nat by lia.
  rewrite <-(take_take_drop block (n * vocab) vocab), imap_app. f_equal.
  apply imap_ext. intros t x _. rewrite length_take. do 2 f_equal. lia.
Qed.

Lemma rows_fill_batch scores (nb vocab b : nat) :
  ((b + 1) * nb * vocab ≤ length scores)%nat →
  concat ((λ j, row_candidates scores nb vocab b j) <$> seq 0 nb)
  = batch_candidates scores nb vocab b.
Proof.
  intros Hlen. unfold batch_candidates.
  set (block := drop (b * nb * vocab) scores).
  rewrite <-(rows_prefix block) by (subst block; rewrite length_drop; lia).
  f_equal. apply list_fmap_ext. intros i j Hj.
  apply lookup_seq in Hj as [-> Hi]. unfold row_candidates. cbn. f_equal.
  subst block. rewrite drop_drop. do 2 f_equal. lia.
Qed.

Lemma row_candidates_length scores (nb vocab b j : nat) :
  (length (row_candidates scores nb vocab b j) ≤ vocab)%nat.
Proof. unfold row_candidates. rewrite length_imap, length_take. lia. Qed.

Lemma row_candidates_genuine scores (nb vocab b j : nat) :
  (j < nb)%nat →
  Forall (genuine (batch_block scores nb vocab b))
    (row_candidates scores nb vocab b j).
Proof.
  intros Hj. apply Forall_lookup. intros t c Hc.
  apply list_lookup_imap_Some in Hc as (x & Hx & ->).
  apply lookup_take_Some in Hx as [Hx Ht]. rewrite lookup_drop in Hx.
  unfold genuine, batch_block. cbn.
  rewrite lookup_take_lt, lookup_drop by nia. rewrite <-Hx. f_equal. lia.
Qed.

Lemma parts_of_genuine {A} (P : A → Prop) (n size : nat) (row : list A) :
  Forall P row → Forall (Forall P) (parts_of n size row).
Proof.
  intros Hrow. unfold parts_of. apply Forall_fmap, Forall_forall. intros q _.
  cbn. by apply Forall_take, Forall_drop.
Qed.

(** For every batch element, partition stage and merge stage together
    return what a full sort of the element's candidates, cut after [k],
    returns. *)
Lemma two_stage_topk scores (d : ScoreType) (batch nb vocab k : nat) :
  Forall ordered scores → ordered d →
  (0 < vocab_parts)%nat →
  (batch * nb * vocab ≤ length scores)%nat →
  TopK_batch (TopK_2nd_stage (TopK_1st_stage scores batch nb vocab k) k) k
  = (λ b, naive_topk better k (batch_candidates scores nb vocab b)) <$> seq 0 batch.
Proof.
  intros Hord Hd Hparts Hlen. unfold TopK_batch, TopK_2nd_stage, TopK_1st_stage.
  rewrite <-!list_fmap_compose. apply list_fmap_ext. intros i b Hb.
  apply lookup_seq in Hb as [-> Hi]. cbv [compose]. rewrite Nat.add_0_l.
  set (block := batch_block scores nb vocab i).
  assert (Forall ordered block) as Hblock
    by (by apply Forall_take, Forall_drop).
  rewrite <-list_fmap_compose.
  rewrite (list_fmap_ext _
             (naive_topk better k ∘ (λ j, row_candidates scores nb vocab i j))
             (seq 0 nb)).
  - rewrite list_fmap_compose.
    rewrite (bounded_merge_better block d Hblock Hd).
    + rewrite (naive_topk_concat_better block d Hblock Hd).
      * by rewrite rows_fill_batch by nia.
      * apply Forall_fmap, Forall_forall. intros j Hj.
        apply elem_of_seq in Hj. apply row_candidates_genuine. lia.
    + rewrite <-list_fmap_compose. apply Forall_fmap, Forall_forall. intros j Hj.
      apply elem_of_seq in Hj. cbv [compose].
      apply naive_topk_genuine, row_candidates_genuine. lia.
  - intros ? j Hj. apply lookup_seq in Hj as [-> Hj]. cbv [compose].
    rewrite Nat.add_0_l.
    pose proof (row_candidates_genuine scores nb vocab i _ Hj) as Hrow.
    fold block in Hrow.
    pose proof (parts_of_genuine _ vocab_parts (part_size vocab vocab_parts) _ Hrow)
      as Hps.
    rewrite (list_fmap_ext (select_topk better k) (naive_topk better k)).
    + rewrite (bounded_merge_better block d Hblock Hd).
      * rewrite (naive_topk_concat_better block d Hblock Hd) by done.
        rewrite parts_of_concat; [done|done|apply row_candidates_length].
      * apply Forall_fmap. eapply Forall_impl; [exact Hps|].
        intros l Hl. by apply naive_topk_genuine.
    + intros q l Hl. apply (select_topk_better block d Hblock Hd).
      by apply (Forall_lookup_1 _ _ _ _ Hps Hl).
Qed.

Lemma handed_spec (call : ProcessCall ScoreType) (p : SearchParams) (b j : Z)
    (top : list Candidate) :
  let k := 2 * num_beams p in
  let vocab := Z.to_nat (vocab_size p) in
  0 ≤ b → 0 ≤ j < k →
  length top = Z.to_nat k →
  span_read (seen_scores call) (Span (b * k) k) = cand_score <$> top →
  span_read (seen_tokens call) (Span (b * k) k) = candidate_token vocab <$> top →
  span_read (seen_indices call) (Span (b * k) k) = candidate_beam vocab <$> top →
  ∃ c, top !! Z.to_nat j = Some c
       ∧ handed call p b j
         = Some (cand_score c, candidate_token vocab c, candidate_beam vocab c).
Proof.
  intros k vocab Hb Hj Hlen Hsc Htk Hix.
  destruct (lookup_lt_is_Some_2 top (Z.to_nat j)) as [c Hc]; [lia|].
  exists c. split; [done|]. unfold handed. fold k.
  rewrite <-!(span_read_lookup _ (b * k) k j) by nia.
  rewrite Hsc, Htk, Hix, !list_lookup_fmap, Hc. done.
Qed.

Lemma genuine_entry scores (p : SearchParams) (b : Z) (c : Candidate) :
  let nb := Z.to_nat (num_beams p) in
  let vocab := Z.to_nat (vocab_size p) in
  0 ≤ b → 0 < num_beams p → 0 < vocab_size p →
  genuine (batch_block scores nb vocab (Z.to_nat b)) c →
  0 ≤ candidate_token vocab c < vocab_size p
  ∧ 0 ≤ candidate_beam vocab c < num_beams p
  ∧ matrix_entry scores p b (candidate_beam vocab c) (candidate_token vocab c)
    = Some (cand_score c).
Proof.
  intros nb vocab Hb Hnb Hv Hc. unfold genuine, batch_block in Hc.
  apply lookup_take_Some in Hc as [Hc Hid]. rewrite lookup_drop in Hc.
  unfold candidate_token, candidate_beam, matrix_entry.
  pose proof (Nat.div_mod_eq (cand_id c) vocab) as Hdm.
  pose proof (Nat.mod_upper_bound (cand_id c) vocab ltac:(lia)) as Hm.
  set (q := (cand_id c / vocab)%nat) in *.
  set (r := (cand_id c `mod` vocab)%nat) in *.
  assert (q < nb)%nat by nia.
  split; [lia|]. split; [lia|]. rewrite <-Hc. f_equal. nia.
Qed.

Lemma entry_candidate scores (p : SearchParams) (b i t : Z) (x : ScoreType) :
  let nb := Z.to_nat (num_beams p) in
  let vocab := Z.to_nat (vocab_size p) in
  0 ≤ b → 0 ≤ i < num_beams p → 0 ≤ t < vocab_size p →
  matrix_entry scores p b i t = Some x →
  let c := {| cand_score := x; cand_id := Z.to_nat (i * vocab_size p + t) |} in
  c ∈ batch_candidates scores nb vocab (Z.to_nat b)
  ∧ candidate_token vocab c = t ∧ candidate_beam vocab c = i.
Proof.
  intros nb vocab Hb Hi Ht Hx c. unfold matrix_entry in Hx. split.
  - apply list_elem_of_lookup. exists (Z.to_nat (i * vocab_size p + t)).
    unfold batch_candidates. apply list_lookup_imap_Some. exists x.
    split; [|done]. rewrite lookup_take_lt, lookup_drop by nia.
    rewrite <-Hx. f_equal. nia.
  - unfold candidate_token, candidate_beam, c. cbn.
    replace (Z.to_nat (i * vocab_size p + t))
      with (Z.to_nat t + Z.to_nat i * vocab)%nat by nia.
    rewrite Nat.Div0.mod_add, Nat.div_add, Nat.mod_small, Nat.div_small by lia.
    lia.
Qed.

Lemma batch_candidates_genuine scores (nb vocab b : nat) :
  Forall (genuine (batch_block scores nb vocab b))
    (batch_candidates scores nb vocab b).
Proof.
  apply Forall_lookup. intros t c Hc.
  apply list_lookup_imap_Some in Hc as (x & Hx & ->). done.
Qed.

Lemma batch_candidates_ids scores (nb vocab b : nat) :
  cand_id <$> batch_candidates scores nb vocab b
  = seq 0 (length (batch_block scores nb vocab b)).
Proof.
  unfold batch_candidates. fold (batch_block scores nb vocab b).
  generalize (batch_block scores nb vocab b). intros l.
  apply list_eq. intros i. rewrite list_lookup_fmap, list_lookup_imap.
  destruct (l !! i) as [x|] eqn:Hx; cbn.
  - apply lookup_lt_Some in Hx. by rewrite lookup_seq_lt.
  - apply lookup_ge_None in Hx. by rewrite lookup_seq_ge.
Qed.

Lemma position_from_pair (vocab : nat) (c c' : Candidate) :
  candidate_token vocab c = candidate_token vocab c' →
  candidate_beam vocab c = candidate_beam vocab c' →
  cand_id c = cand_id c'.
Proof.
  unfold candidate_token, candidate_beam. intros Ht Hi.
  rewrite (Nat.div_mod_eq (cand_id c) vocab), (Nat.div_mod_eq (cand_id c') vocab).
  lia.
Qed.

(** What the three buffers hold, read as (score, token, beam) triples
    against the matrix. *)
Lemma handed_highest (call : ProcessCall ScoreType) scores (p : SearchParams)
    (b : Z) (top rest : list Candidate) :
  let nb := Z.to_nat (num_beams p) in
  let vocab := Z.to_nat (vocab_size p) in
  let k := 2 * num_beams p in
  0 ≤ b → 0 < num_beams p → 0 < vocab_size p →
  length top = Z.to_nat k →
  span_read (seen_scores call) (Span (b * k) k) = cand_score <$> top →
  span_read (seen_tokens call) (Span (b * k) k) = candidate_token vocab <$> top →
  span_read (seen_indices call) (Span (b * k) k) = candidate_beam vocab <$> top →
  batch_candidates scores nb vocab (Z.to_nat b) ≡ₚ top ++ rest →
  (∀ x y, x ∈ top → y ∈ rest → better x y) →
  highest_pairs call scores p b.
Proof.
  intros nb vocab k Hb Hnb Hv Hlen Hsc Htk Hix Hperm Hbest.
  assert (Forall (genuine (batch_block scores nb vocab (Z.to_nat b))) top) as Hgen.
  { pose proof (batch_candidates_genuine scores nb vocab (Z.to_nat b)) as Hall.
    rewrite Hperm in Hall. by apply Forall_app in Hall as [? _]. }
  assert (NoDup (cand_id <$> top)) as Hnodup.
  { pose proof (NoDup_seq 0 (length (batch_block scores nb vocab (Z.to_nat b))))
      as Hnd.
    rewrite <-batch_candidates_ids, Hperm, fmap_app in Hnd.
    by apply NoDup_app in Hnd as [? _]. }
  split; [|split].
  - intros j Hj.
    destruct (handed_spec call p b j top Hb Hj Hlen Hsc Htk Hix) as (c & Hc & Hh).
    eexists _, _, _. split; [exact Hh|].
    apply genuine_entry; try done. by apply (Forall_lookup_1 _ _ _ _ Hgen Hc).
  - intros j j' sc sc' t i Hj Hj' H1 H2.
    destruct (handed_spec call p b j top Hb Hj Hlen Hsc Htk Hix) as (c & Hc & Hh).
    destruct (handed_spec call p b j' top Hb Hj' Hlen Hsc Htk Hix)
      as (c' & Hc' & Hh').
    rewrite Hh in H1. rewrite Hh' in H2.
    injection H1 as _ Ht Hi. injection H2 as _ Ht' Hi'.
    assert (cand_id c = cand_id c') as Hid
      by (apply (position_from_pair (Z.to_nat (vocab_size p))); congruence).
    assert (Z.to_nat j = Z.to_nat j') as Hjj; [|lia].
    apply (NoDup_lookup (cand_id <$> top) _ _ (cand_id c) Hnodup);
      rewrite list_lookup_fmap; [by rewrite Hc|by rewrite Hc', Hid].
  - intros i t x Hi Ht Hx.
    destruct (entry_candidate scores p b i t x Hb Hi Ht Hx) as (Hin & Htok & Hbeam).
    fold nb vocab in Hin, Htok, Hbeam.
    set (c0 := {| cand_score := x; cand_id := Z.to_nat (i * vocab_size p + t) |})
      in *.
    rewrite Hperm in Hin. apply elem_of_app in Hin as [Hin|Hin].
    + left. apply list_elem_of_lookup in Hin as [n Hn].
      pose proof (lookup_lt_Some _ _ _ Hn) as Hlt.
      exists (Z.of_nat n). split; [lia|].
      destruct (handed_spec call p b (Z.of_nat n) top Hb ltac:(lia) Hlen Hsc Htk Hix)
        as (c & Hc & Hh).
      rewrite Nat2Z.id, Hn in Hc. injection Hc as <-.
      rewrite Hh. subst nb vocab. by rewrite Htok, Hbeam.
    + right. intros j sc t' i' Hj Hh'.
      destruct (handed_spec call p b j top Hb Hj Hlen Hsc Htk Hix) as (c & Hc & Hh).
      rewrite Hh in Hh'. injection Hh' as <- _ _.
      apply (better_score c c0). apply Hbest; [|done].
      by apply list_elem_of_lookup_2 in Hc.
Qed.

Lemma concat_length_uniform {A} (k : nat) (lists : list (list A)) :
  Forall (λ l, length l = k) lists →
  length (concat lists) = (length lists * k)%nat.
Proof.
  induction 1 as [|l lists Hl _ IH]; cbn; [done|].
  rewrite length_app, IH, Hl. lia.
Qed.

Lemma batch_candidates_length scores (nb vocab b : nat) :
  ((b + 1) * nb * vocab ≤ length scores)%nat →
  length (batch_candidates scores nb vocab b) = (nb * vocab)%nat.
Proof.
  intros Hlen. unfold batch_candidates.
  rewrite length_imap, length_take, length_drop. lia.
Qed.

Lemma AddProbs_length (cum scores : list ScoreType) (vocab : nat) :
  length (AddProbs cum vocab scores) = length scores.
Proof. apply length_imap. Qed.

Lemma naive_candidates_highest s (d : ScoreType) (b : Z) :
  Forall ordered (scores_with_beams s) → ordered d →
  Sorted better (naive_candidates s b)
  ∧ ∃ rest,
      batch_candidates (scores_with_beams s) (Z.to_nat (num_beams (params_ s)))
        (Z.to_nat (vocab_size (params_ s))) (Z.to_nat b)
      ≡ₚ naive_candidates s b ++ rest
      ∧ ∀ x y, x ∈ naive_candidates s b → y ∈ rest → better x y.
Proof.
  intros Hord Hd.
  apply (naive_topk_better_highest
           (batch_block (scores_with_beams s) (Z.to_nat (num_beams (params_ s)))
              (Z.to_nat (vocab_size (params_ s))) (Z.to_nat b)) d).
  - by apply Forall_take, Forall_drop.
  - done.
  - apply batch_candidates_genuine.
Qed.

(** The entries of batch element [b] in a candidate buffer that the merge
    stage has filled from the per-batch top lists. *)
Lemma candidate_slice {B} (f : Candidate → B) (buf : list B)
    (tops : list (list Candidate)) (k : nat) (b : nat) (top : list Candidate) :
  Forall (λ l, length l = k) tops →
  length buf = (length tops * k)%nat →
  tops !! b = Some top →
  span_read
    (span_read (write_at 0 (f <$> concat tops) buf)
       (Span 0 (Z.of_nat (length tops * k))))
    (Span (Z.of_nat (b * k)) (Z.of_nat k))
  = f <$> top.
Proof.
  intros Hall Hbuf Hb.
  rewrite span_read_write_at_same; [|lia| |lia].
  - unfold span_read. cbn. rewrite <-fmap_drop, <-fmap_take. f_equal.
    rewrite !Nat2Z.id. by apply concat_slice.
  - rewrite length_fmap, (concat_length_uniform k) by done. lia.
Qed.

End Ranking.

(** The buffers the merge stage leaves behind. *)
Lemma BeamSearchTopK_buffers s :
  let p := params_ s in
  let k := Z.to_nat (2 * num_beams p) in
  let s2 := BeamSearchTopK (batch_size p) (num_beams p) (vocab_size p)
              (2 * num_beams p)
              (LaunchAddProbsKernel (Scorer_GetNextScores (beam_scorer_ s))
                 (batch_size p) (num_beams p) (vocab_size p) s) in
  let tops :=
    TopK_batch
      (TopK_2nd_stage
         (TopK_1st_stage (scores_with_beams s) (Z.to_nat (batch_size p))
            (Z.to_nat (num_beams p)) (Z.to_nat (vocab_size p)) k) k) k in
  topk_next_scores_ (mem s2)
  = write_at 0 (cand_score <$> concat tops) (topk_next_scores_ (mem s))
  ∧ topk_next_tokens_ (mem s2)
    = write_at 0 (candidate_token (Z.to_nat (vocab_size p)) <$> concat tops)
        (topk_next_tokens_ (mem s))
  ∧ topk_next_indices_ (mem s2)
    = write_at 0 (candidate_beam (Z.to_nat (vocab_size p)) <$> concat tops)
        (topk_next_indices_ (mem s)).
Proof. done. Qed.



(** *** One call of the beam-search selection *)

(** With at most 32 beams and a healthy device the call goes through; the
    lemma spells out the search it returns. *)
Lemma NextTokensFromLogits_run s :
  num_beams (params_ s) ≤ 32 → healthy (cuda_stream s) = true →
  let p := params_ s in
  let s2 := BeamSearchTopK (batch_size p) (num_beams p) (vocab_size p)
              (2 * num_beams p)
              (LaunchAddProbsKernel (Scorer_GetNextScores (beam_scorer_ s))
                 (batch_size p) (num_beams p) (vocab_size p) s) in
  let size := BatchBeamSize p * 2 in
  let next_scores := span_read (topk_next_scores_ (mem s2)) (Span 0 size) in
  let next_tokens := span_read (topk_next_tokens_ (mem s2)) (Span 0 size) in
  let next_indices := span_read (topk_next_indices_ (mem s2)) (Span 0 size) in
  let done := completed (cuda_stream s2) ++ in_flight (cuda_stream s2) in
  let r := Process (beam_scorer_ s) (sequences_ s)
             next_scores next_tokens next_indices in
  BeamSearch_NextTokensFromLogits s
  = Ok {| params_ := p;
          sequences_ := r.2;
          mem := with_tokens (Scorer_GetNextTokens r.1) (mem s2);
          cuda_stream := {| completed := done; in_flight := []; healthy := true |};
          beam_scorer_ := r.1;
          process_calls :=
            process_calls s
            ++ [{| seen_completed := done; seen_in_flight := [];
                   seen_scores := next_scores; seen_tokens := next_tokens;
                   seen_indices := next_indices |}] |}.
Proof.
  intros Hnb Hh. cbv zeta. unfold BeamSearch_NextTokensFromLogits.
  cbn [params_ LaunchAddProbsKernel run_kernel on_stream on_mem].
  destruct (Z.leb_spec (num_beams (params_ s)) 32) as [_|?]; [|lia].
  cbn [mbind outcome_bind].
  unfold cudaStreamSynchronize, CudaCheck. cbn. rewrite Hh. cbn.
  by destruct (Process _ _ _ _ _).
Qed.

Lemma NextTokensFromLogits_returns s s' :
  BeamSearch_NextTokensFromLogits s = Ok s' →
  num_beams (params_ s) ≤ 32 ∧ healthy (cuda_stream s) = true.
Proof.
  unfold BeamSearch_NextTokensFromLogits.
  cbn [params_ LaunchAddProbsKernel run_kernel on_stream on_mem].
  destruct (Z.leb_spec (num_beams (params_ s)) 32) as [?|?]; [|done].
  cbn [mbind outcome_bind].
  unfold cudaStreamSynchronize, CudaCheck. cbn.
  destruct (healthy (cuda_stream s)); [done|]. cbn. done.
Qed.

(** C7.  Whenever [BeamSearch_Cuda::NextTokensFromLogits] reaches
    [BeamScorer.Process], the stream has been synchronized: no kernel is in
    flight at the call, the kernels of the step (the addition of the beam
    scores and both top-k stages) and everything launched before them count
    as completed, and the score, token and beam-index buffers handed to
    [Process] are those the device holds after these kernels. *)
Theorem Process_after_synchronize s s' :
  BeamSearch_NextTokensFromLogits s = Ok s' →
  ∃ call,
    process_calls s' = process_calls s ++ [call]
    ∧ seen_in_flight call = []
    ∧ seen_completed call
      = completed (cuda_stream s) ++ in_flight (cuda_stream s)
        ++ [K_AddProbs; K_TopK_1st_stage; K_TopK_2nd_stage]
    ∧ in_flight (cuda_stream s') = []
    ∧ (let size := BatchBeamSize (params_ s) * 2 in
       seen_scores call = span_read (topk_next_scores_ (mem s')) (Span 0 size)
       ∧ seen_tokens call = span_read (topk_next_tokens_ (mem s')) (Span 0 size)
       ∧ seen_indices call = span_read (topk_next_indices_ (mem s')) (Span 0 size))
    ∧ (beam_scorer_ s', sequences_ s')
      = Process (beam_scorer_ s) (sequences_ s)
          (seen_scores call) (seen_tokens call) (seen_indices call).
Proof.
  intros Hrun. destruct (NextTokensFromLogits_returns _ _ Hrun) as [Hnb Hh].
  rewrite (NextTokensFromLogits_run s Hnb Hh) in Hrun. cbv zeta in Hrun.
  injection Hrun as <-. eexists. split; [reflexivity|]. cbn.
  split; [done|]. split; [by rewrite <-!app_assoc|]. split; [done|].
  split; [done|]. by destruct (Process _ _ _ _ _).
Qed.

Section Refinement.
Context `{!ScoreOrder}.

(** C1.  In [BeamSearch_Cuda::NextTokensFromLogits], with [k = 2 × num_beams]
    and at most 32 beams (so for 1, 2, 4 and 8 beams), whatever the number
    of vocabulary parts between 1 and 128, and for scores none of which is
    NaN: for every batch element the [k] candidates that the two-stage
    top-k hands to [Process] are, score by score, token by token and beam
    by beam, the first [k] of a full sort of the element's flattened
    [num_beams × vocab_size] candidates, higher score first and equal
    scores in position order.  Each of them is an entry of the score
    matrix, handed over with the token and the beam at which the matrix
    holds its score; no entry is handed over twice; and every entry that
    is left out scores no higher than any that is handed over. *)
Theorem two_stage_topk_is_naive s :
  beam_search_ok s →
  healthy (cuda_stream s) = true →
  num_beams (params_ s) ≤ 32 →
  2 ≤ vocab_size (params_ s) →
  (0 < vocab_parts ≤ max_parts_of_vocab)%nat →
  Forall ordered (scores_with_beams s) →
  ∃ s' call,
    BeamSearch_NextTokensFromLogits s = Ok s'
    ∧ process_calls s' = process_calls s ++ [call]
    ∧ ∀ b, 0 ≤ b < batch_size (params_ s) →
        let k := 2 * num_beams (params_ s) in
        let vocab := Z.to_nat (vocab_size (params_ s)) in
        let top := naive_candidates s b in
        length top = Z.to_nat k
        ∧ span_read (seen_scores call) (Span (b * k) k) = cand_score <$> top
        ∧ span_read (seen_tokens call) (Span (b * k) k)
          = candidate_token vocab <$> top
        ∧ span_read (seen_indices call) (Span (b * k) k)
          = candidate_beam vocab <$> top
        ∧ Sorted better top
        ∧ (∃ rest,
             batch_candidates (scores_with_beams s)
               (Z.to_nat (num_beams (params_ s))) vocab (Z.to_nat b)
             ≡ₚ top ++ rest
             ∧ ∀ x y, x ∈ top → y ∈ rest → better x y)
        ∧ highest_pairs call (scores_with_beams s) (params_ s) b.
Proof.
  intros [[[Hb Hnb Hvs Hfit] Hlen] Hsc Htk Hix] Hh Hbeams Hvocab [Hparts _] Hord.
  rewrite (NextTokensFromLogits_run s Hbeams Hh). cbv zeta.
  eexists _, _. split; [reflexivity|]. split; [reflexivity|].
  intros b Hbatch.
  destruct (BeamSearchTopK_buffers s) as (Hbs & Hbt & Hbi).
  set (p := params_ s) in *.
  set (k := Z.to_nat (2 * num_beams p)).
  set (batch := Z.to_nat (batch_size p)).
  set (nb := Z.to_nat (num_beams p)).
  set (vocab := Z.to_nat (vocab_size p)).
  unfold BatchBeamSize in *.
  assert (length (scores_with_beams s) = (batch * nb * vocab)%nat) as Hscores.
  { unfold scores_with_beams. rewrite AddProbs_length. fold p. nia. }
  assert (∃ d, ordered d) as [d Hd].
  { destruct (scores_with_beams s) as [|d l]; [cbn in Hscores; nia|].
    exists d. by apply Forall_cons in Hord as [? _]. }
  pose proof (two_stage_topk (scores_with_beams s) d batch nb vocab k Hord Hd
                Hparts ltac:(lia)) as Htwo.
  set (tops := _ <$> seq 0 batch) in Htwo.
  assert (length tops = batch) as Htops
    by (unfold tops; by rewrite length_fmap, length_seq).
  assert (tops !! Z.to_nat b = Some (naive_candidates s b)) as Hlook.
  { unfold tops. rewrite list_lookup_fmap, lookup_seq_lt by lia. done. }
  assert (Forall (λ l, length l = k) tops) as Hall.
  { unfold tops. apply Forall_fmap, Forall_seq. intros j Hj. cbn.
    rewrite naive_topk_length, batch_candidates_length by nia. nia. }
  assert (length (naive_candidates s b) = k) as Htop.
  { by apply (proj1 (Forall_lookup _ _) Hall (Z.to_nat b)). }
  pose proof (naive_candidates_highest s d b Hord Hd)
    as (Hsorted & rest & Hperm & Hbest).
  match goal with |- _ ∧ ?S ∧ ?T ∧ ?I ∧ _ => assert (S ∧ T ∧ I) as (HS & HT & HI) end.
  { cbn [seen_scores seen_tokens seen_indices]. rewrite Hbs, Hbt, Hbi.
    fold batch nb vocab k. rewrite Htwo.
    replace (batch_size p * num_beams p * 2) with (Z.of_nat (length tops * k))
      by nia.
    replace (b * (2 * num_beams p)) with (Z.of_nat (Z.to_nat b * k)) by nia.
    replace (2 * num_beams p) with (Z.of_nat k) by lia.
    repeat split; apply candidate_slice; try done; nia. }
  split; [done|]. split; [exact HS|]. split; [exact HT|]. split; [exact HI|].
  split; [exact Hsorted|]. split; [by exists rest|].
  apply (handed_highest _ _ p b (naive_candidates s b) rest);
    try done; try lia.
Qed.

End Refinement.

End BeamFacts.

(** ** Termination of beam search *)

Section ScorerFacts.
Context `{Externals ScoreType}.

Local Abbreviation BeamState := (BeamState ScoreType).
Local Abbreviation Search_Cuda := (Search_Cuda ScoreType).

Implicit Types (s : Search_Cuda).

Lemma forallb_forall_true {A} (f : A → bool) (l : list A) :
  forallb f l = true ↔ ∀ x, x ∈ l → f x = true.
Proof.
  induction l as [|y l IH]; cbn.
  - split; [|done]. intros _ x Hx. by apply elem_of_nil in Hx.
  - rewrite andb_true_iff, IH. split.
    + intros [Hy Hl] x Hx. apply elem_of_cons in Hx as [->|Hx]; auto.
    + intros Hall. split; [apply Hall; left|]. intros x Hx. apply Hall. by right.
Qed.

(** C5.  [BeamSearch_Cuda::IsDone] first lets the scorer take its per-batch
    transitions and then answers [true] exactly when every batch element is
    DONE, as [IsDoneLater] reports it, or the sequence length equals
    [max_length].  After the transitions a batch element is DONE exactly
    when it was DONE before, or [num_beams] completions are collected, or
    all its live beams have terminated, or the length cap is hit. *)
Theorem BeamSearch_IsDone_spec s :
  let answer := (BeamSearch_IsDone s).1 in
  let s' := (BeamSearch_IsDone s).2 in
  beam_scorer_ s' = Scorer_IsDone (beam_scorer_ s)
  ∧ answer = Scorer_IsDoneLater (beam_scorer_ s')
             || (GetSequenceLength s =? max_length (params_ s))
  ∧ (answer = true ↔
       (∀ b : BeamState, b ∈ beams (beam_scorer_ s') → beam_done b = true)
       ∨ GetSequenceLength s = max_length (params_ s))
  ∧ (∀ i (b : BeamState), beams (beam_scorer_ s) !! i = Some b →
       ∃ b', beams (beam_scorer_ s') !! i = Some b'
             ∧ (beam_done b' = true ↔
                  beam_done b = true
                  ∨ scorer_num_beams (beam_scorer_ s) ≤ Z.of_nat (length (finished b))
                  ∨ (∀ h, h ∈ live b → hyp_done h = true)
                  ∨ scorer_max_length (beam_scorer_ s)
                    ≤ scorer_length (beam_scorer_ s))).
Proof.
  cbn. split; [done|]. split; [done|]. split.
  - rewrite orb_true_iff. unfold Scorer_IsDoneLater.
    rewrite forallb_forall_true, Z.eqb_eq. done.
  - intros i b Hb. exists (BeamState_update (beam_scorer_ s) b).
    split; [by rewrite list_lookup_fmap, Hb|].
    unfold BeamState_update, completions_collected, live_beams_terminated,
      length_cap_hit. cbn.
    rewrite !orb_true_iff, forallb_forall_true, !Z.leb_le. tauto.
Qed.

End ScorerFacts.

(** ** Sequence lengths in the greedy loop *)

Section GreedyFacts.
Context `{Externals ScoreType}.

Local Abbreviation Search_Cuda := (Search_Cuda ScoreType).

Implicit Types (s : Search_Cuda) (logits : list ScoreType).

Lemma SetLogits_loop_frame (L : Z) logits (n : nat) : ∀ (i : Z) s (cur : Z) s' cur',
  for_loop n i (SetLogits_slot L logits) (s, cur) = Ok (s', cur') →
  same_but_scores s s'.
Proof.
  unfold same_but_scores.
  induction n as [|n IH]; intros i s cur s' cur' Hrun; cbn in Hrun.
  - by injection Hrun as <- <-.
  - unfold cudaMemcpyAsync, CudaCheck in Hrun.
    destruct (healthy (cuda_stream s)) eqn:Hh; [|done]. cbn in Hrun.
    apply IH in Hrun as (-> & -> & -> & -> & -> & ->). cbn. by rewrite Hh.
Qed.

Lemma SetLogits_frame logits s s' :
  SetLogits logits s = Ok s' → same_but_scores s s'.
Proof.
  unfold SetLogits, SetLogits_last_token.
  unfold assert.
  destruct (_ `mod` _ =? 0); cbn; [|done].
  destruct (_ `div` _ =? 1); cbn; [|done].
  destruct (for_loop _ _ _ _) as [[s1 cur]|] eqn:Hrun; cbn; [|done].
  intros [= <-]. by apply SetLogits_loop_frame in Hrun.
Qed.

Lemma Append_length s :
  GetSequenceLength (GreedySearch_AppendNextTokensToSequences s)
  = GetSequenceLength s + 1.
Proof.
  unfold GreedySearch_AppendNextTokensToSequences, GetSequenceLength. cbn.
  by destruct (_ =? _).
Qed.

Lemma Append_params s :
  params_ (GreedySearch_AppendNextTokensToSequences s) = params_ s.
Proof.
  unfold GreedySearch_AppendNextTokensToSequences. cbn. by destruct (_ =? _).
Qed.

Lemma Append_done s :
  GetSequenceLength (GreedySearch_AppendNextTokensToSequences s)
  = max_length (params_ s) →
  GreedySearch_IsDone (GreedySearch_AppendNextTokensToSequences s) = true.
Proof.
  unfold GreedySearch_AppendNextTokensToSequences, GetSequenceLength,
    GreedySearch_IsDone. cbn.
  destruct (Z.eqb_spec (current_length_ (sequences_ s) + 1) (max_length (params_ s)));
    cbn; [done|lia].
Qed.

Lemma Append_slots s :
  slots_filled s → slots_filled (GreedySearch_AppendNextTokensToSequences s).
Proof.
  unfold slots_filled. rewrite Append_length.
  unfold GreedySearch_AppendNextTokensToSequences, GetSequenceLength. cbn.
  intros Hall.
  assert (Forall (λ sl, Z.of_nat (length sl) = current_length_ (sequences_ s) + 1)
            (imap (λ i sl, sl ++ [default 0 (next_tokens_ (mem s) !! i)])
                  (slots (sequences_ s)))) as Hnew.
  { apply Forall_lookup. intros i sl Hsl.
    apply list_lookup_imap_Some in Hsl as (sl0 & Hsl0 & ->).
    rewrite length_app. cbn.
    pose proof (proj1 (Forall_lookup _ _) Hall i sl0 Hsl0) as Hlen.
    unfold Sequences_GetSequenceLength in Hlen. cbn in Hlen. lia. }
  by destruct (_ =? _).
Qed.

(** One step of the loop: the parameters stay, the length grows by one, and
    the done flag is up if the length has reached [max_length]. *)
Lemma GreedySearch_step_length logits s s' :
  GreedySearch_step logits s = Ok s' →
  params_ s' = params_ s
  ∧ GetSequenceLength s' = GetSequenceLength s + 1
  ∧ (GetSequenceLength s' = max_length (params_ s) → GreedySearch_IsDone s' = true)
  ∧ (slots_filled s → slots_filled s').
Proof.
  unfold GreedySearch_step.
  destruct (SetLogits logits s) as [s1|] eqn:Hset; cbn; [|done].
  apply SetLogits_frame in Hset as (Hp1 & Hq1 & _).
  unfold CheckForEOS. destruct (assert _) as [[]|]; cbn; [|done].
  intros [= <-].
  set (s2 := Launch_CheckForEOS _ _ _).
  assert (params_ s2 = params_ s) as Hp2 by exact Hp1.
  assert (sequences_ s2 = sequences_ s) as Hq2 by exact Hq1.
  assert (GetSequenceLength s2 = GetSequenceLength s) as Hlen2
    by (unfold GetSequenceLength; by rewrite Hq2).
  clearbody s2.
  rewrite Append_params, Append_length, Hp2, Hlen2.
  split; [done|]. split; [done|]. split.
  - intros Hmax. apply Append_done. rewrite Append_length, Hp2, Hlen2. done.
  - intros Hslots. apply Append_slots. unfold slots_filled in *.
    by rewrite Hlen2, Hq2.
Qed.

Lemma generate_lengths (feed : list (list ScoreType)) : ∀ s (n : nat) s',
  length_within s → generate feed s = Ok (n, s') →
  params_ s' = params_ s
  ∧ GetSequenceLength s' = GetSequenceLength s + Z.of_nat n
  ∧ length_within s'
  ∧ (slots_filled s → slots_filled s').
Proof.
  induction feed as [|logits feed IH]; intros s n s' Hin Hrun; cbn in Hrun.
  - injection Hrun as <- <-. split; [done|]. split; [lia|]. done.
  - destruct (GreedySearch_IsDone s) eqn:Hdone.
    { injection Hrun as <- <-. split; [done|]. split; [lia|]. done. }
    destruct (GreedySearch_step logits s) as [s1|] eqn:Hstep; [|done].
    cbn in Hrun.
    destruct (generate feed s1) as [[n1 s2]|] eqn:Hrest; [|done].
    cbn in Hrun. injection Hrun as <- <-.
    apply GreedySearch_step_length in Hstep as (Hp1 & Hl1 & Hd1 & Hs1).
    destruct Hin as [Hle Hflag].
    assert (GetSequenceLength s < max_length (params_ s)) as Hlt.
    { destruct (decide (GetSequenceLength s = max_length (params_ s))) as [Heq|];
        [|lia]. apply Hflag in Heq. congruence. }
    assert (length_within s1) as Hin1.
    { unfold length_within. rewrite Hp1, Hl1. split; [lia|]. rewrite <-Hl1. done. }
    destruct (IH s1 n1 s2 Hin1 Hrest) as (Hp2 & Hl2 & Hin2 & Hs2).
    split; [congruence|]. split; [lia|]. split; [done|]. auto.
Qed.

(** A step goes through on a well-formed search that is fed the logits of
    one position per slot, and leaves the search well formed. *)
Lemma GreedySearch_step_returns logits s :
  greedy_ok s →
  Z.of_nat (length logits) = BatchBeamSize (params_ s) * vocab_size (params_ s) →
  ∃ s', GreedySearch_step logits s = Ok s' ∧ greedy_ok s' ∧ params_ s' = params_ s.
Proof.
  intros [Hok Hh Htok] Hsize. unfold GreedySearch_step.
  rewrite SetLogits_accepts by (done || apply Hok).
  destruct (SetLogits_loop 1 logits (Z.to_nat (BatchBeamSize (params_ s))) 0 s)
    as (s1 & cur & Hrun & Hp1 & _ & Hlen1 & _ & _); try done; try lia.
  { destruct Hok as [[? ? ? ?] ?]. unfold BatchBeamSize. nia. }
  pose proof (SetLogits_loop_frame _ _ _ _ _ _ _ _ Hrun)
    as (_ & _ & _ & Htok1 & Heos1 & Hh1).
  unfold SetLogits_last_token.
  replace ((1 - 1) * vocab_size (params_ s))
    with ((0 * 1 + (1 - 1)) * vocab_size (params_ s)) by lia.
  rewrite Hrun. cbn [mbind outcome_bind].
  unfold CheckForEOS, GreedySearch_NextTokensFromLogits. cbn.
  rewrite write_at_length, Htok1, Heos1, bool_decide_eq_true_2 by done. cbn.
  eexists. split; [reflexivity|].
  unfold GreedySearch_AppendNextTokensToSequences. cbn.
  assert (search_ok s1) as Hok1.
  { destruct Hok as [Hp Hl]. split; [by rewrite Hp1|]. by rewrite Hlen1, Hp1. }
  destruct (_ =? _); cbn.
  - split; [|done]. split; cbn.
    + destruct Hok1 as [? Hl]. split; [done|exact Hl].
    + congruence.
    + rewrite !length_inserts, !write_at_length. congruence.
  - split; [|done]. split; cbn.
    + destruct Hok1 as [? Hl]. split; [done|exact Hl].
    + congruence.
    + rewrite !length_inserts, !write_at_length. congruence.
Qed.

(** The loop returns, whatever the number of steps it is fed. *)
Lemma generate_returns (feed : list (list ScoreType)) : ∀ s,
  greedy_ok s →
  Forall (λ logits, Z.of_nat (length logits)
                    = BatchBeamSize (params_ s) * vocab_size (params_ s)) feed →
  ∃ (n : nat) s', generate feed s = Ok (n, s').
Proof.
  induction feed as [|logits feed IH]; intros s Hok Hfeed; cbn.
  - by eexists _, _.
  - destruct (GreedySearch_IsDone s); [by eexists _, _|].
    inversion Hfeed as [|? ? Hsize Hrest]; subst.
    destruct (GreedySearch_step_returns logits s Hok Hsize) as (s1 & -> & Hok1 & Hp1).
    cbn. destruct (IH s1 Hok1) as (n & s' & ->); [by rewrite Hp1|].
    cbn. by eexists _, _.
Qed.

(** C6.  Every [AppendNextTokensToSequences] makes [GetSequenceLength] one
    more than it was, and raises the done flag if [max_length] is reached.
    In the generation loop, started within [max_length], the length equals
    the starting (prompt) length plus the number of steps executed, it never
    exceeds [max_length], and every slot holds that many tokens. *)
Theorem sequence_length_steps s :
  GetSequenceLength (GreedySearch_AppendNextTokensToSequences s)
  = GetSequenceLength s + 1
  ∧ (GetSequenceLength (GreedySearch_AppendNextTokensToSequences s)
     = max_length (params_ s) →
     GreedySearch_IsDone (GreedySearch_AppendNextTokensToSequences s) = true)
  ∧ ∀ feed (n : nat) s',
      length_within s → generate feed s = Ok (n, s') →
      GetSequenceLength s' = GetSequenceLength s + Z.of_nat n
      ∧ GetSequenceLength s' ≤ max_length (params_ s)
      ∧ length_within s'
      ∧ (slots_filled s → slots_filled s').
Proof.
  split; [apply Append_length|]. split; [apply Append_done|].
  intros feed n s' Hin Hrun.
  destruct (generate_lengths feed s n s' Hin Hrun) as (Hp & Hl & Hin' & Hs).
  split; [done|]. split; [|done]. destruct Hin' as [Hle _]. by rewrite <-Hp.
Qed.

End GreedyFacts.

(** * The properties on the small searches *)

Lemma greedy_params_ok : params_ok greedy_params.
Proof. split; vm_compute; congruence. Qed.

Lemma greedy_search_ok : search_ok greedy_search.
Proof. split; [exact greedy_params_ok|reflexivity]. Qed.

Lemma greedy_eos_ok : eos_ok (params_ greedy_search).
Proof. split; vm_compute; congruence. Qed.

Lemma beam_search_is_ok : beam_search_ok beam_search.
Proof.
  split; [|reflexivity..]. split; [|reflexivity]. split; vm_compute; congruence.
Qed.

Lemma Z_score_order : @ScoreOrder Z Z_externals.
Proof.
  split; cbn.
  - intros a b _ _. destruct (Z.leb_spec a b); [by left|right]. apply Z.leb_le. lia.
  - intros a b c Hab Hbc. apply Z.leb_le in Hab, Hbc. apply Z.leb_le. lia.
Qed.

Lemma two_stage_topk_is_naive_witness :
  ∃ s' call,
    BeamSearch_NextTokensFromLogits beam_search = Ok s'
    ∧ process_calls s' = [call]
    ∧ span_read (seen_scores call) (Span 0 4)
      = cand_score <$> naive_candidates beam_search 0
    ∧ span_read (seen_tokens call) (Span 0 4)
      = candidate_token 3 <$> naive_candidates beam_search 0
    ∧ highest_pairs call (scores_with_beams beam_search) beam_params 0.
Proof.
  destruct (@two_stage_topk_is_naive Z Z_externals Z_score_order beam_search)
    as (s' & call & Hrun & Hcalls & Htop).
  - exact beam_search_is_ok.
  - reflexivity.
  - vm_compute. congruence.
  - vm_compute. congruence.
  - vm_compute. split; lia.
  - vm_compute. repeat constructor.
  - exists s', call. split; [exact Hrun|]. split; [exact Hcalls|].
    destruct (Htop 0) as (_ & Hsc & Htk & _ & _ & _ & Hhigh);
      [vm_compute; split; congruence|].
    split; [exact Hsc|]. split; [exact Htk|exact Hhigh].
Defined.

Lemma MinLength_masks_eos_witness :
  (∃ s', MinLength 3 greedy_search = Ok s' ∧ score_at s' 0 0 = Some lowest)
  ∧ MinLength 2 greedy_search = Ok greedy_search.
Proof.
  destruct (MinLength_masks_eos 3 greedy_search greedy_search_ok greedy_eos_ok)
    as [Hbelow _].
  destruct (MinLength_masks_eos 2 greedy_search greedy_search_ok greedy_eos_ok)
    as [_ Hfrom].
  split.
  - destruct Hbelow as (s' & Hrun & Hmask); [vm_compute; reflexivity|].
    exists s'. split; [exact Hrun|]. apply (Hmask 0). vm_compute. split; congruence.
  - apply Hfrom. vm_compute. congruence.
Defined.

Lemma SetLogits_asserts_input_length_witness :
  params_ok (params_ greedy_search)
  ∧ SetLogits two_positions greedy_search = Fatal AssertFailed.
Proof.
  split; [exact greedy_params_ok|].
  apply (SetLogits_asserts_input_length two_positions greedy_search).
  - exact greedy_params_ok.
  - left. vm_compute. congruence.
Defined.

Lemma NextTokensFromLogits_rejects_many_beams_witness :
  32 < num_beams (params_ wide_search)
  ∧ BeamSearch_NextTokensFromLogits wide_search = Fatal AssertFailed.
Proof.
  split; [reflexivity|].
  apply (NextTokensFromLogits_rejects_many_beams wide_search). reflexivity.
Defined.

Lemma BeamSearch_IsDone_spec_witness :
  (BeamSearch_IsDone beam_search).1
  = Scorer_IsDoneLater (beam_scorer_ (BeamSearch_IsDone beam_search).2)
    || (GetSequenceLength beam_search =? max_length (params_ beam_search)).
Proof. exact (proj1 (proj2 (BeamSearch_IsDone_spec beam_search))). Defined.

Lemma sequence_length_steps_witness :
  ∃ s', generate [one_position; one_position; one_position] greedy_search
        = Ok (2%nat, s')
        ∧ GetSequenceLength s' = GetSequenceLength greedy_search + 2
        ∧ GetSequenceLength s' ≤ max_length (params_ greedy_search).
Proof.
  assert (∃ s', generate [one_position; one_position; one_position] greedy_search
                = Ok (2%nat, s')) as [s' Hrun]
    by (vm_compute; eexists; reflexivity).
  exists s'. split; [exact Hrun|].
  destruct (sequence_length_steps greedy_search) as (_ & _ & Hloop).
  destruct (Hloop _ _ _ ltac:(vm_compute; split; congruence) Hrun)
    as (Hlen & Hmax & _).
  split; [exact Hlen|exact Hmax].
Defined.

Lemma Process_after_synchronize_witness :
  ∃ s' call,
    BeamSearch_NextTokensFromLogits beam_search = Ok s'
    ∧ process_calls s' = [call]
    ∧ seen_in_flight call = []
    ∧ seen_completed call = [K_AddProbs; K_TopK_1st_stage; K_TopK_2nd_stage].
Proof.
  assert (∃ s', BeamSearch_NextTokensFromLogits beam_search = Ok s') as [s' Hrun]
    by (vm_compute; eexists; reflexivity).
  destruct (Process_after_synchronize beam_search s' Hrun)
    as (call & Hcalls & Hflight & Hdone & _).
  exists s', call. split; [exact Hrun|]. split; [exact Hcalls|].
  split; [exact Hflight|exact Hdone].
Defined.

Lemma GetScores_row_witness :
  search_ok greedy_search
  ∧ GetScores 1 greedy_search = Ok (Span 2 2)
  ∧ GetScores 2 greedy_search = Fatal AssertFailed.
Proof.
  split; [exact greedy_search_ok|].
  destruct (GetScores_row greedy_search 1 greedy_search_ok) as [_ Hin].
  destruct (GetScores_row greedy_search 2 greedy_search_ok) as [Hout _].
  split.
  - destruct Hin as [Hget _]; [vm_compute; split; congruence|]. exact Hget.
  - apply Hout. vm_compute. intros [_ Hlt]. congruence.
Defined.

Lemma MinLength_frame_witness :
  ∃ v, MinLength 3 greedy_search = Ok (on_mem (with_scores v) greedy_search)
       ∧ score_at (on_mem (with_scores v) greedy_search) 0 1
         = score_at greedy_search 0 1.
Proof.
  destruct (MinLength_frame 3 greedy_search greedy_search_ok greedy_eos_ok)
    as (v & Hrun & _ & Hframe); [vm_compute; reflexivity|].
  exists v. split; [exact Hrun|].
  apply (Hframe 0 1); vm_compute; (split; congruence) || congruence.
Defined.

Lemma SetLogits_last_position_witness :
  (∃ s', SetLogits one_position greedy_search = Ok s'
         ∧ score_row s' 1 = log_softmax (span_read one_position (Span 2 2)))
  ∧ (∃ s', SetLogits_last_token 2 two_positions greedy_search = Ok s'
           ∧ score_row s' 1 = log_softmax (span_read two_positions (Span 6 2))).
Proof.
  destruct (SetLogits_last_position one_position greedy_search greedy_search_ok
              eq_refl) as [_ Hone].
  destruct (SetLogits_last_position two_positions greedy_search greedy_search_ok
              eq_refl) as [Hloop _].
  split.
  - destruct Hone as (s' & Hrun & Hp & Hrows); [reflexivity|].
    exists s'. split; [exact Hrun|].
    rewrite (Hrows 1); [reflexivity|vm_compute; split; congruence].
  - destruct (Hloop 2) as (s' & Hrun & Hp & Hrows);
      [vm_compute; congruence|reflexivity|].
    exists s'. split; [exact Hrun|].
    rewrite (Hrows 1); [reflexivity|vm_compute; split; congruence].
Defined.

(** C10, as stated, fails for two positions per slot: [SetLogits] stops at
    its assertion and computes no row of the score matrix. *)
Lemma SetLogits_two_positions_counterexample :
  Z.of_nat (length two_positions)
  = 2 * (BatchBeamSize (params_ greedy_search) * vocab_size (params_ greedy_search))
  ∧ ¬ ∃ s', SetLogits two_positions greedy_search = Ok s'
            ∧ ∀ i, 0 ≤ i < BatchBeamSize (params_ greedy_search) →
                   score_row s' i
                   = log_softmax
                       (span_read two_positions
                          (Span ((i * 2 + (2 - 1)) * vocab_size (params_ greedy_search))
                                (vocab_size (params_ greedy_search)))).
Proof.
  split; [reflexivity|]. intros (s' & Hrun & _).
  vm_compute in Hrun. discriminate Hrun.
Qed.

(** * Further properties of the code *)

(** ** Construction *)

Section LifecycleFacts.
Context `{Externals ScoreType}.

Local Abbreviation Search_Cuda := (Search_Cuda ScoreType).
Local Abbreviation Fresh := (Fresh ScoreType).
Local Abbreviation BeamSearchScorer := (BeamSearchScorer ScoreType).

Implicit Types (s : Search_Cuda) (u : Fresh) (params : SearchParams).
Implicit Types (stream : Stream) (sequences : Sequences).

Lemma CudaMallocArray_length {A} (n : Z) (content : nat → A) :
  length (CudaMallocArray n content) = Z.to_nat n.
Proof. unfold CudaMallocArray. by rewrite length_fmap, length_seq. Qed.

Lemma cudaMemsetAsync_length {A} (zero : A) (buf : list A) :
  length (cudaMemsetAsync zero buf) = length buf.
Proof. apply length_replicate. Qed.

Lemma Search_Cuda_new_ok u params stream sequences :
  params_ok params → search_ok (Search_Cuda_new u params stream sequences).
Proof.
  intros Hp. split; [exact Hp|]. cbn.
  rewrite cudaMemsetAsync_length, CudaMallocArray_length.
  pose proof (matrix_size_pos _ Hp). lia.
Qed.

Lemma wrap_int_fits (z : Z) : - 2 ^ 31 ≤ z ≤ INT_MAX → wrap_int z = z.
Proof.
  unfold wrap_int, INT_MAX. intros Hz. rewrite Z.mod_small; lia.
Qed.

Lemma to_size_t_fits (z : Z) : 0 ≤ z < 2 ^ 64 → to_size_t z = z.
Proof. apply Z.mod_small. Qed.

Lemma candidate_count_fits params :
  0 < batch_size params → 0 < num_beams params →
  BatchBeamSize params * 2 * num_beams params ≤ INT_MAX →
  candidate_count params = BatchBeamSize params * 2 * num_beams params.
Proof.
  unfold candidate_count, BatchBeamSize, INT_MAX. intros Hb Hnb Hfit.
  rewrite (wrap_int_fits (_ * 2)) by (unfold INT_MAX; nia).
  rewrite wrap_int_fits by (unfold INT_MAX; nia).
  apply to_size_t_fits. nia.
Qed.

(** X1.  As long as the candidate count [batch_beam_size × 2 × num_beams]
    fits the [int] it is computed in, the scratch areas that
    [NextTokensFromLogits] carves out of [topk_buffer_] lie one after the
    other in the buffer the constructor allocates and fill it exactly: two
    first-stage areas of [candidate_count × 128] elements, then two
    second-stage areas of [candidate_count] elements, the last of which
    ends where the buffer ends. *)
Theorem topk_scratch_fills_buffer params :
  0 < batch_size params → 0 < num_beams params →
  BatchBeamSize params * 2 * num_beams params ≤ INT_MAX →
  let a := topk_scratch params in
  let n := candidate_count params in
  n = BatchBeamSize params * 2 * num_beams params
  ∧ 0 < n
  ∧ topk_scores_1st_stage a = 0
  ∧ topk_tokens_1st_stage a - topk_scores_1st_stage a
    = n * Z.of_nat max_parts_of_vocab
  ∧ topk_scores_2nd_stage a - topk_tokens_1st_stage a
    = n * Z.of_nat max_parts_of_vocab
  ∧ topk_tokens_2nd_stage a - topk_scores_2nd_stage a = n
  ∧ topk_buffer_size params - topk_tokens_2nd_stage a = n
  ∧ topk_scores_1st_stage a < topk_tokens_1st_stage a
    < topk_scores_2nd_stage a
  ∧ topk_scores_2nd_stage a < topk_tokens_2nd_stage a < topk_buffer_size params.
Proof.
  intros Hb Hnb Hfit a n.
  pose proof (candidate_count_fits params Hb Hnb Hfit) as Hcount. fold n in Hcount.
  assert (0 < n ≤ INT_MAX) as Hn by (unfold BatchBeamSize in *; nia).
  unfold INT_MAX in *.
  assert (topk_buffer_size params = n * 258) as Hsize.
  { unfold topk_buffer_size. change (Z.of_nat max_parts_of_vocab) with 128.
    rewrite to_size_t_fits; unfold BatchBeamSize in *; nia. }
  unfold a, topk_scratch. fold n. cbn.
  change (Z.of_nat max_parts_of_vocab) with 128.
  rewrite Hsize, (to_size_t_fits (n * 128)) by lia.
  repeat split; lia.
Qed.

(** X2.  A greedy search over more than one beam cannot check for
    end-of-sequence: its constructor allocates one next token per batch
    element and one end-of-sequence flag per batch-beam slot, and
    [CheckForEOS] asserts that the two counts agree.  So after
    [NextTokensFromLogits] the call of [CheckForEOS] goes through with one
    beam and stops at the assertion with more. *)
Theorem GreedySearch_needs_one_beam u params stream sequences :
  params_ok params →
  let s := GreedySearch_NextTokensFromLogits
             (GreedySearch_Cuda_new u params stream sequences) in
  (num_beams params = 1 → ∃ s', CheckForEOS s = Ok s')
  ∧ (1 < num_beams params → CheckForEOS s = Fatal AssertFailed).
Proof.
  intros [Hb Hnb Hv Hfit] s. unfold CheckForEOS.
  assert (length (next_tokens_ (mem s)) = Z.to_nat (batch_size params)) as Htok.
  { unfold s, GreedySearch_NextTokensFromLogits, Launch_SoftMax. cbn.
    rewrite ?write_at_length, ?length_inserts.
    rewrite cudaMemsetAsync_length, CudaMallocArray_length. done. }
  assert (length (eos_meet_ (mem s)) = Z.to_nat (BatchBeamSize params)) as Heos.
  { unfold s, GreedySearch_NextTokensFromLogits, Launch_SoftMax. cbn.
    rewrite cudaMemsetAsync_length, CudaMallocArray_length. done. }
  rewrite Htok, Heos. unfold BatchBeamSize. split.
  - intros ->. rewrite bool_decide_eq_true_2 by (f_equal; lia). by eexists.
  - intros Hmany. rewrite bool_decide_eq_false_2; [done|]. nia.
Qed.

Lemma BeamSearch_Cuda_new_cases u params stream sequences
    (scorer : BeamSearchScorer) :
  (num_beams params ≤ 1 →
   BeamSearch_Cuda_new u params stream sequences scorer = Fatal AssertFailed)
  ∧ (1 < num_beams params →
     ∃ s, BeamSearch_Cuda_new u params stream sequences scorer = Ok s
          ∧ params_ s = params
          ∧ cuda_stream s = stream).
Proof.
  unfold BeamSearch_Cuda_new. cbn [params_ Search_Cuda_new].
  split; intros Hnb.
  - destruct (Z.ltb_spec 1 (num_beams params)); [lia|done].
  - destruct (Z.ltb_spec 1 (num_beams params)); [|lia].
    eexists. split; [reflexivity|]. done.
Qed.

(** X3.  The constructor of [BeamSearch_Cuda] stops at its assertion for a
    single beam (or none).  With at least two beams it returns a search
    with the given parameters and scorer whose score matrix and candidate
    buffers have the sizes that [GetScores], [MinLength] and
    [NextTokensFromLogits] count on. *)
Theorem BeamSearch_Cuda_new_spec u params stream sequences
    (scorer : BeamSearchScorer) :
  params_ok params →
  (num_beams params ≤ 1 →
   BeamSearch_Cuda_new u params stream sequences scorer = Fatal AssertFailed)
  ∧ (1 < num_beams params →
     ∃ s, BeamSearch_Cuda_new u params stream sequences scorer = Ok s
          ∧ beam_search_ok s
          ∧ params_ s = params
          ∧ beam_scorer_ s = scorer
          ∧ sequences_ s = sequences
          ∧ cuda_stream s = stream
          ∧ process_calls s = []).
Proof.
  intros Hp. unfold BeamSearch_Cuda_new. cbn [params_ Search_Cuda_new].
  split; intros Hnb.
  - destruct (Z.ltb_spec 1 (num_beams params)); [lia|done].
  - destruct (Z.ltb_spec 1 (num_beams params)); [|lia].
    eexists. split; [reflexivity|].
    split; [|done].
    pose proof (matrix_size_pos _ Hp) as Hpos.
    assert (0 < BatchBeamSize params) as Hbb
      by (destruct Hp; unfold BatchBeamSize; nia).
    split; cbn; rewrite ?CudaMallocArray_length; try lia.
    destruct (Search_Cuda_new_ok u params stream sequences Hp) as [Hp' Hlen].
    split; [exact Hp'|exact Hlen].
Qed.

(** X4.  Building a beam search and selecting candidates once: on a
    healthy device this goes through exactly for 2 to 32 beams.  One beam
    is refused by the constructor, more than 32 by [NextTokensFromLogits]. *)
Theorem beam_search_usable_beams u params stream sequences
    (scorer : BeamSearchScorer) :
  healthy stream = true →
  (∃ s', BeamSearch_Cuda_new u params stream sequences scorer
         ≫= BeamSearch_NextTokensFromLogits = Ok s')
  ↔ 2 ≤ num_beams params ≤ 32.
Proof.
  intros Hh.
  destruct (BeamSearch_Cuda_new_cases u params stream sequences scorer)
    as [Hone Hmore].
  split.
  - intros [s' Hrun].
    destruct (decide (num_beams params ≤ 1)) as [Hle|Hgt].
    { rewrite Hone in Hrun by done. done. }
    destruct Hmore as (s & Hnew & Hps & _); [lia|].
    rewrite Hnew in Hrun. cbn in Hrun.
    apply NextTokensFromLogits_returns in Hrun as [Hnb _]. rewrite Hps in Hnb. lia.
  - intros [Hlo Hhi].
    destruct Hmore as (s & Hnew & Hps & Hst); [lia|].
    rewrite Hnew. cbn.
    rewrite (NextTokensFromLogits_run s) by (rewrite ?Hps, ?Hst; done).
    by eexists.
Qed.

End LifecycleFacts.

(** ** More on [SetLogits] *)

Section SetLogitsFacts.
Context `{Externals ScoreType}.

Local Abbreviation Search_Cuda := (Search_Cuda ScoreType).

Implicit Types (s : Search_Cuda) (logits : list ScoreType).

(** What the loop of [SetLogits] does to the search besides the scores:
    two kernels per slot join the stream, nothing else moves. *)
Lemma SetLogits_loop_stream (L : Z) logits (n : nat) : ∀ (i : Z) s (cur : Z) s' cur',
  for_loop n i (SetLogits_slot L logits) (s, cur) = Ok (s', cur') →
  (∃ v, mem s' = with_scores v (mem s))
  ∧ beam_scorer_ s' = beam_scorer_ s
  ∧ process_calls s' = process_calls s
  ∧ completed (cuda_stream s') = completed (cuda_stream s)
  ∧ in_flight (cuda_stream s') = in_flight (cuda_stream s) ++ SetLogits_kernels n.
Proof.
  induction n as [|n IH]; intros i s cur s' cur' Hrun; cbn in Hrun.
  - injection Hrun as <- <-. split; [exists (next_token_scores_ (mem s))|].
    + by destruct s as [? ? [] ? ? ?].
    + unfold SetLogits_kernels. cbn. by rewrite app_nil_r.
  - unfold cudaMemcpyAsync, CudaCheck in Hrun.
    destruct (healthy (cuda_stream s)); [|done]. cbn in Hrun.
    apply IH in Hrun as ([v Hv] & -> & -> & -> & ->). cbn.
    split; [exists v; by rewrite Hv|]. split; [done|]. split; [done|].
    split; [done|]. unfold SetLogits_kernels. cbn. by rewrite <-!app_assoc.
Qed.

Lemma SetLogits_loop_unhealthy (L : Z) logits (n : nat) (i : Z) s (cur : Z) :
  healthy (cuda_stream s) = false → (0 < n)%nat →
  for_loop n i (SetLogits_slot L logits) (s, cur) = Fatal CudaFailed.
Proof.
  intros Hh Hn. destruct n as [|n]; [lia|]. cbn.
  unfold cudaMemcpyAsync, CudaCheck. by rewrite Hh.
Qed.

Lemma SetLogits_loop_healthy (L : Z) logits (n : nat) : ∀ (i : Z) s (cur : Z),
  healthy (cuda_stream s) = true →
  ∃ s' cur', for_loop n i (SetLogits_slot L logits) (s, cur) = Ok (s', cur').
Proof.
  induction n as [|n IH]; intros i s cur Hh; cbn; [by eexists _, _|].
  unfold cudaMemcpyAsync, CudaCheck. rewrite Hh. cbn. apply IH. exact Hh.
Qed.

(** A list cut into [n] rows of [v] elements is the rows put together. *)
Lemma rows_determine {A} (l : list A) (n v : nat) (f : nat → list A) :
  length l = (n * v)%nat →
  (∀ i, (i < n)%nat → take v (drop (i * v) l) = f i) →
  l = concat (f <$> seq 0 n).
Proof.
  intros Hlen Hrows. rewrite <-(take_ge l (n * v)) at 1 by lia.
  rewrite <-parts_of_concat_take. unfold parts_of. f_equal.
  apply list_fmap_ext. intros ? i Hi. apply lookup_seq in Hi as [-> Hi].
  by apply Hrows.
Qed.

(** X5.  [SetLogits] overwrites the whole score matrix: after a call that
    is given one position per slot, the matrix is the log-softmaxed rows of
    the logits, one after the other, whatever it held before. *)
Theorem SetLogits_overwrites logits s :
  search_ok s → healthy (cuda_stream s) = true →
  Z.of_nat (length logits) = BatchBeamSize (params_ s) * vocab_size (params_ s) →
  let vocab := Z.to_nat (vocab_size (params_ s)) in
  ∃ s', SetLogits logits s = Ok s'
        ∧ next_token_scores_ (mem s')
          = concat ((λ i, log_softmax (take vocab (drop (i * vocab) logits)))
                      <$> seq 0 (Z.to_nat (BatchBeamSize (params_ s)))).
Proof.
  intros Hok Hh Hsize vocab. pose proof Hok as [[Hb Hnb Hv Hfit] Hlen].
  rewrite SetLogits_accepts by done. unfold SetLogits_last_token.
  destruct (SetLogits_loop 1 logits (Z.to_nat (BatchBeamSize (params_ s))) 0 s)
    as (s' & cur & Hrun & Hp' & _ & Hl' & Hrows & _);
    try done; try (unfold BatchBeamSize in *; nia).
  replace ((1 - 1) * vocab_size (params_ s))
    with ((0 * 1 + (1 - 1)) * vocab_size (params_ s)) by lia.
  rewrite Hrun. cbn [mbind outcome_bind]. exists s'. split; [done|].
  apply (rows_determine _ _ vocab).
  - rewrite Hl'. unfold vocab, BatchBeamSize in *. nia.
  - intros i Hi.
    assert (0 ≤ Z.of_nat i < 0 + Z.of_nat (Z.to_nat (BatchBeamSize (params_ s))))
      as Hi' by lia.
    specialize (Hrows (Z.of_nat i) Hi'). unfold score_row, span_read in Hrows.
    cbn in Hrows. rewrite Hp' in Hrows.
    replace (Z.to_nat (Z.of_nat i * vocab_size (params_ s)))
      with (i * vocab)%nat in Hrows by (unfold vocab; nia).
    replace (Z.to_nat ((Z.of_nat i * 1 + (1 - 1)) * vocab_size (params_ s)))
      with (i * vocab)%nat in Hrows by (unfold vocab; nia).
    exact Hrows.
Qed.

(** X6.  [SetLogits] touches nothing but the score matrix and the stream:
    parameters, sequences, next tokens, end-of-sequence flags, done flag,
    candidate buffers, scorer and the record of [Process] calls stay.  It
    launches a copy and a log-softmax per slot, in this order, and never
    waits for the stream. *)
Theorem SetLogits_frame_and_stream logits s s' :
  SetLogits logits s = Ok s' →
  params_ s' = params_ s
  ∧ sequences_ s' = sequences_ s
  ∧ (∃ v, mem s' = with_scores v (mem s))
  ∧ beam_scorer_ s' = beam_scorer_ s
  ∧ process_calls s' = process_calls s
  ∧ completed (cuda_stream s') = completed (cuda_stream s)
  ∧ in_flight (cuda_stream s')
    = in_flight (cuda_stream s)
      ++ SetLogits_kernels (Z.to_nat (BatchBeamSize (params_ s))).
Proof.
  intros Hrun. destruct (SetLogits_frame _ _ _ Hrun) as (Hp & Hq & _).
  unfold SetLogits, SetLogits_last_token, assert in Hrun.
  destruct (_ `mod` _ =? 0); cbn in Hrun; [|done].
  destruct (_ `div` _ =? 1); cbn in Hrun; [|done].
  destruct (for_loop _ _ _ _) as [[s1 cur]|] eqn:Hloop; cbn in Hrun; [|done].
  injection Hrun as <-.
  apply SetLogits_loop_stream in Hloop as (Hm & Hsc & Hpc & Hc & Hf).
  done.
Qed.

(** X7.  [SetLogits] returns exactly when the logits hold one position per
    slot and the device is healthy.  With the right size on a failed
    device it stops at the first copy with a device error. *)
Theorem SetLogits_outcome logits s :
  params_ok (params_ s) →
  let fits := Z.of_nat (length logits)
              = BatchBeamSize (params_ s) * vocab_size (params_ s) in
  ((∃ s', SetLogits logits s = Ok s') ↔ fits ∧ healthy (cuda_stream s) = true)
  ∧ (fits → healthy (cuda_stream s) = false →
     SetLogits logits s = Fatal CudaFailed).
Proof.
  intros Hp fits.
  assert (0 < Z.to_nat (BatchBeamSize (params_ s)))%nat as Hslots.
  { destruct Hp. unfold BatchBeamSize. nia. }
  assert (fits → healthy (cuda_stream s) = false →
          SetLogits logits s = Fatal CudaFailed) as Hdev.
  { intros Hfits Hh. rewrite SetLogits_accepts by done.
    unfold SetLogits_last_token. by rewrite SetLogits_loop_unhealthy. }
  split; [|exact Hdev]. split.
  - intros [s' Hrun].
    destruct (decide fits) as [Hfits|Hmis].
    + split; [done|]. destruct (healthy (cuda_stream s)) eqn:Hh; [done|].
      rewrite Hdev in Hrun by done. done.
    + exfalso. unfold SetLogits, assert in Hrun.
      pose proof (matrix_size_pos _ Hp) as Hpos.
      destruct (Z.eqb_spec (Z.of_nat (length logits)
                  `mod` (BatchBeamSize (params_ s) * vocab_size (params_ s))) 0)
        as [Hmod|]; cbn in Hrun; [|done].
      destruct (Z.eqb_spec (Z.of_nat (length logits)
                  `div` (BatchBeamSize (params_ s) * vocab_size (params_ s))) 1)
        as [Hdiv|]; cbn in Hrun; [|done].
      apply Hmis. unfold fits.
      rewrite (Z.div_mod (Z.of_nat (length logits))
                 (BatchBeamSize (params_ s) * vocab_size (params_ s))) by lia.
      rewrite Hmod, Hdiv. lia.
  - intros [Hfits Hh]. rewrite SetLogits_accepts by done.
    unfold SetLogits_last_token.
    destruct (SetLogits_loop_healthy 1 logits
                (Z.to_nat (BatchBeamSize (params_ s))) 0 s
                ((1 - 1) * vocab_size (params_ s)) Hh) as (s1 & cur1 & ->).
    by eexists.
Qed.

End SetLogitsFacts.

(** ** More on the score matrix and [MinLength] *)

Section ScoreFacts.
Context `{Externals ScoreType}.

Local Abbreviation Search_Cuda := (Search_Cuda ScoreType).

Implicit Types (s : Search_Cuda) (logits : list ScoreType).

(** Every position of the score matrix is a token of a slot. *)
Lemma matrix_position s (idx : nat) :
  search_ok s → (idx < length (next_token_scores_ (mem s)))%nat →
  ∃ i t, 0 ≤ i < BatchBeamSize (params_ s) ∧ 0 ≤ t < vocab_size (params_ s)
         ∧ idx = Z.to_nat (i * vocab_size (params_ s) + t).
Proof.
  intros [[Hb Hnb Hv Hfit] Hlen] Hidx.
  exists (Z.of_nat idx / vocab_size (params_ s)),
         (Z.of_nat idx mod vocab_size (params_ s)).
  pose proof (Z.div_mod (Z.of_nat idx) (vocab_size (params_ s)) ltac:(lia)) as Hdm.
  pose proof (Z.mod_pos_bound (Z.of_nat idx) (vocab_size (params_ s)) Hv) as Hmod.
  assert (0 ≤ Z.of_nat idx / vocab_size (params_ s)) by (apply Z.div_pos; lia).
  split; [split; [done|]|].
  - apply Z.div_lt_upper_bound; lia.
  - split; [done|]. lia.
Qed.

(** X8.  [MinLength] is idempotent: applied to its own result it returns
    that result. *)
Theorem MinLength_idempotent (min_length : Z) s s' :
  search_ok s → eos_ok (params_ s) →
  MinLength min_length s = Ok s' →
  MinLength min_length s' = Ok s'.
Proof.
  intros Hok Heos Hrun.
  destruct (Z.le_gt_cases min_length (GetSequenceLength s)) as [Hge|Hlt].
  { unfold MinLength, GetSequenceLength in *.
    destruct (Z.geb_spec (Sequences_GetSequenceLength (sequences_ s)) min_length);
      [|lia].
    injection Hrun as <-.
    destruct (Z.geb_spec (Sequences_GetSequenceLength (sequences_ s)) min_length);
      [done|lia]. }
  assert (∀ s0, search_ok s0 → eos_ok (params_ s0) →
            GetSequenceLength s0 < min_length →
            ∃ v, MinLength min_length s0 = Ok (on_mem (with_scores v) s0)
                 ∧ length v = length (next_token_scores_ (mem s0))
                 ∧ ∀ i t, 0 ≤ i < BatchBeamSize (params_ s0) →
                          0 ≤ t < vocab_size (params_ s0) →
                          v !! Z.to_nat (i * vocab_size (params_ s0) + t)
                          = if bool_decide (t = eos_token_id (params_ s0))
                            then Some lowest else score_at s0 i t) as Hmask.
  { intros s0 Hok0 Heos0 Hlt0. unfold MinLength, GetSequenceLength in *.
    destruct (Z.geb_spec (Sequences_GetSequenceLength (sequences_ s0)) min_length);
      [lia|].
    destruct (MinLength_loop (Z.to_nat (BatchBeamSize (params_ s0))) 0 s0 Hok0 Heos0)
      as (v & Hv & Hl & Hat); [lia| |].
    { destruct Hok0 as [[? ? ? ?] ?]. unfold BatchBeamSize. nia. }
    exists v. split; [done|]. split; [done|].
    intros i t Hi Ht. rewrite (Hat i t Hi Ht).
    destruct (decide (t = eos_token_id (params_ s0))) as [->|Hne].
    - rewrite !bool_decide_eq_true_2; [done..|lia].
    - rewrite !bool_decide_eq_false_2; [done|done|lia]. }
  destruct (Hmask s Hok Heos Hlt) as (v & Hv & Hlv & Hat).
  rewrite Hv in Hrun. injection Hrun as <-.
  set (s1 := on_mem (with_scores v) s).
  assert (search_ok s1) as Hok1.
  { destruct Hok as [Hp Hl]. split; [exact Hp|]. cbn. by rewrite Hlv. }
  destruct (Hmask s1 Hok1 Heos Hlt) as (v1 & Hv1 & Hlv1 & Hat1).
  rewrite Hv1. f_equal.
  assert (v1 = v) as ->; [|done].
  apply list_eq. intros idx.
  destruct (decide (idx < length v)%nat) as [Hin|Hout].
  - destruct (matrix_position s1 idx) as (i & t & Hi & Ht & Hidx);
      [done|cbn; lia|].
    cbn in Hi, Ht, Hidx, Hat1. subst idx. rewrite (Hat1 i t Hi Ht).
    case_bool_decide as Ht'; [|done].
    rewrite (Hat i t Hi Ht). by rewrite bool_decide_eq_true_2.
  - cbn in Hlv1. rewrite !(proj2 (lookup_ge_None _ _)); [done|lia|lia].
Qed.

Lemma SetLogits_loop_health (L : Z) logits (n : nat) :
  ∀ (i : Z) s (cur : Z) s' cur',
    for_loop n i (SetLogits_slot L logits) (s, cur) = Ok (s', cur') →
    healthy (cuda_stream s') = healthy (cuda_stream s).
Proof.
  induction n as [|n IH]; intros i s cur s' cur' Hrun; cbn in Hrun.
  - by injection Hrun as <- <-.
  - unfold cudaMemcpyAsync, CudaCheck in Hrun.
    destruct (healthy (cuda_stream s)) eqn:Hh; [|done]. cbn in Hrun.
    apply IH in Hrun as ->. done.
Qed.

(** X9.  [SetLogits], a wait for the stream, then [MinLength] below
    [min_length]: the store of [MinLength] finds no kernel in flight, and
    afterwards in every slot the end-of-sequence token has the lowest score
    and every other token the log-softmax of the slot's logits.  (The
    source itself does not wait between the two; the wait is the caller's.) *)
Theorem SetLogits_then_MinLength logits (min_length : Z) s :
  search_ok s → eos_ok (params_ s) → healthy (cuda_stream s) = true →
  Z.of_nat (length logits) = BatchBeamSize (params_ s) * vocab_size (params_ s) →
  GetSequenceLength s < min_length →
  ∃ s1 s2,
    SetLogits logits s ≫= Synchronize = Ok s1
    ∧ in_flight (cuda_stream s1) = []
    ∧ MinLength min_length s1 = Ok s2
    ∧ in_flight (cuda_stream s2) = []
    ∧ ∀ i t, 0 ≤ i < BatchBeamSize (params_ s) →
             0 ≤ t < vocab_size (params_ s) →
             score_at s2 i t
             = Some (if bool_decide (t = eos_token_id (params_ s))
                     then lowest
                     else log_softmax_at
                            (span_read logits
                               (Span (i * vocab_size (params_ s))
                                     (vocab_size (params_ s))))
                            (Z.to_nat t)).
Proof.
  intros Hok Heos Hh Hsize Hlt. pose proof Hok as [[Hb Hnb Hv Hfit] Hlen].
  rewrite SetLogits_accepts by done. unfold SetLogits_last_token.
  destruct (SetLogits_loop 1 logits (Z.to_nat (BatchBeamSize (params_ s))) 0 s)
    as (s1 & cur & Hrun & Hp1 & Hq1 & Hl1 & Hrows & _);
    try done; try (unfold BatchBeamSize in *; nia).
  replace ((1 - 1) * vocab_size (params_ s))
    with ((0 * 1 + (1 - 1)) * vocab_size (params_ s)) by lia.
  rewrite Hrun. cbn [mbind outcome_bind].
  pose proof (SetLogits_loop_health _ _ _ _ _ _ _ _ Hrun) as Hh0.
  rewrite Hh in Hh0.
  unfold Synchronize, cudaStreamSynchronize, CudaCheck. rewrite Hh0.
  cbn [mbind outcome_bind].
  set (s0 := s1). set (s1' := on_stream _ s0).
  assert (params_ s1' = params_ s) as Hp1' by done.
  assert (mem s1' = mem s0) as Hm1 by done.
  assert (sequences_ s1' = sequences_ s) as Hq1' by done.
  assert (in_flight (cuda_stream s1') = []) as Hidle by done.
  assert (∀ i, score_row s1' i = score_row s0 i) as Hrow1 by done.
  assert (length (next_token_scores_ (mem s1'))
          = length (next_token_scores_ (mem s))) as Hl1' by (by rewrite Hm1).
  clearbody s1'. clear Hrun Hh0. subst s0.
  assert (∀ i, 0 ≤ i < 0 + Z.of_nat (Z.to_nat (BatchBeamSize (params_ s))) →
            score_row s1' i
            = log_softmax
                (span_read logits
                   (Span ((i * 1 + (1 - 1)) * vocab_size (params_ s))
                      (vocab_size (params_ s))))) as Hrows'
    by (intros i Hi; rewrite Hrow1; by apply Hrows).
  clear Hrows Hrow1 Hm1 Hp1 Hq1 Hl1. clear s1.
  rename s1' into s1, Hp1' into Hp1, Hq1' into Hq1, Hl1' into Hl1, Hrows' into Hrows.
  exists s1.
  assert (search_ok s1) as Hok1.
  { split; [by rewrite Hp1|]. by rewrite Hl1, Hp1. }
  assert (eos_ok (params_ s1)) as Heos1 by (by rewrite Hp1).
  unfold MinLength. rewrite Hq1.
  unfold GetSequenceLength in Hlt.
  destruct (Z.geb_spec (Sequences_GetSequenceLength (sequences_ s)) min_length);
    [lia|].
  destruct (MinLength_loop (Z.to_nat (BatchBeamSize (params_ s1))) 0 s1 Hok1 Heos1)
    as (v & Hmin & _ & Hat); [lia|rewrite Hp1; unfold BatchBeamSize; nia|].
  rewrite Hmin. eexists. split; [reflexivity|]. split; [done|].
  split; [reflexivity|]. split; [done|].
  intros i t Hi Ht. unfold score_at at 1. cbn. rewrite Hp1 in Hat |- *.
  rewrite (Hat i t Hi Ht).
  case_bool_decide as Hin; case_bool_decide as Ht'; try done; try lia.
  unfold score_at. rewrite Hp1.
  rewrite <-(span_read_lookup _ (i * vocab_size (params_ s))
               (vocab_size (params_ s)) t) by nia.
  pose proof (Hrows i ltac:(lia)) as Hrow. unfold score_row in Hrow.
  rewrite Hp1 in Hrow. rewrite Hrow.
  replace ((i * 1 + (1 - 1)) * vocab_size (params_ s))
    with (i * vocab_size (params_ s)) by lia.
  unfold log_softmax. rewrite list_lookup_imap.
  set (row := span_read logits _).
  assert (length row = Z.to_nat (vocab_size (params_ s))) as Hrowlen.
  { apply span_read_length; nia. }
  destruct (row !! Z.to_nat t) eqn:Hx; [done|].
  apply lookup_ge_None in Hx. lia.
Qed.

(** X10.  The rows that [GetScores(0)], ..., [GetScores(batch_beam_size - 1)]
    return are consecutive, start where the matrix of [GetScores()] starts
    and end where it ends: read one after the other they give the whole
    score matrix. *)
Theorem GetScores_rows_tile s :
  search_ok s →
  span_read (next_token_scores_ (mem s)) (GetScores_all s)
  = next_token_scores_ (mem s)
  ∧ next_token_scores_ (mem s)
    = concat ((λ i, match GetScores (Z.of_nat i) s with
                    | Ok row => span_read (next_token_scores_ (mem s)) row
                    | Fatal _ => []
                    end) <$> seq 0 (Z.to_nat (BatchBeamSize (params_ s))))
  ∧ ∀ i row next, GetScores i s = Ok row → GetScores (i + 1) s = Ok next →
      span_data next = span_data row + span_size row.
Proof.
  intros [[Hb Hnb Hv Hfit] Hlen]. split; [|split].
  - unfold GetScores_all, scores_span, span_read. cbn.
    rewrite Nat2Z.id. apply take_ge. lia.
  - apply (rows_determine _ _ (Z.to_nat (vocab_size (params_ s)))).
    + unfold BatchBeamSize in *. nia.
    + intros i Hi. rewrite GetScores_ok by lia.
      unfold span_read. cbn. do 2 f_equal. nia.
  - intros i row next Hrow Hnext. unfold GetScores in Hrow, Hnext.
    destruct (_ && _); cbn in Hrow; [|done].
    destruct (_ && _); cbn in Hnext; [|done].
    injection Hrow as <-. injection Hnext as <-. cbn. lia.
Qed.

End ScoreFacts.

(** ** The done flag and the outcomes of a beam-search step *)

Section FlagFacts.
Context `{Externals ScoreType}.

Local Abbreviation Search_Cuda := (Search_Cuda ScoreType).
Local Abbreviation Fresh := (Fresh ScoreType).

Implicit Types (s : Search_Cuda) (logits : list ScoreType).

(** X11.  [GreedySearch_Cuda::AppendNextTokensToSequences] raises the done
    flag exactly when the new length equals [max_length], and never lowers
    it.  A search that is already at [max_length] or beyond is therefore
    not flagged: the length moves past [max_length] and the flag stays as
    it was. *)
Theorem Append_done_flag s :
  let s' := GreedySearch_AppendNextTokensToSequences s in
  done_cpu_ (mem s')
  = done_cpu_ (mem s) || (GetSequenceLength s + 1 =? max_length (params_ s))
  ∧ (done_cpu_ (mem s) = true → done_cpu_ (mem s') = true)
  ∧ (max_length (params_ s) ≤ GetSequenceLength s →
     max_length (params_ s) < GetSequenceLength s'
     ∧ done_cpu_ (mem s') = done_cpu_ (mem s)).
Proof.
  cbn. unfold GreedySearch_AppendNextTokensToSequences, GetSequenceLength.
  cbn. unfold Sequences_GetSequenceLength.
  destruct (Z.eqb_spec (current_length_ (sequences_ s) + 1) (max_length (params_ s)))
    as [Heq|Hne]; cbn.
  - rewrite orb_true_r. split; [done|]. split; [done|]. intros ?. exfalso. lia.
  - rewrite orb_false_r. split; [done|]. split; [done|]. intros ?.
    split; [lia|done].
Qed.

Lemma MinLength_loop_done (n : nat) : ∀ (i : Z) s s',
  for_loop n i
    (λ i s,
       beam_token_scores ← GetScores i s;
       Ok (on_mem (λ m, with_scores
                           (span_store (next_token_scores_ m) beam_token_scores
                              (eos_token_id (params_ s)) lowest) m) s))
    s = Ok s' →
  done_cpu_ (mem s') = done_cpu_ (mem s).
Proof.
  induction n as [|n IH]; intros i s s' Hrun; cbn in Hrun.
  - by injection Hrun as <-.
  - unfold GetScores, assert in Hrun.
    destruct (_ && _); cbn in Hrun; [|done].
    by apply IH in Hrun as ->.
Qed.

(** X12.  Nothing but the append (and the end-of-sequence kernel) writes
    the done flag.  The constructor leaves it as the allocation left it,
    and [SetLogits], [MinLength], both [NextTokensFromLogits] and
    [BeamSearch_Cuda::IsDone] return it unchanged. *)
Theorem done_flag_untouched (u : Fresh) s :
  (∀ params stream sequences,
     done_cpu_ (mem (GreedySearch_Cuda_new u params stream sequences))
     = fresh_done u)
  ∧ (∀ logits s', SetLogits logits s = Ok s' →
       done_cpu_ (mem s') = done_cpu_ (mem s))
  ∧ (∀ min_length s', MinLength min_length s = Ok s' →
       done_cpu_ (mem s') = done_cpu_ (mem s))
  ∧ done_cpu_ (mem (GreedySearch_NextTokensFromLogits s)) = done_cpu_ (mem s)
  ∧ (∀ s', BeamSearch_NextTokensFromLogits s = Ok s' →
       done_cpu_ (mem s') = done_cpu_ (mem s))
  ∧ done_cpu_ (mem (BeamSearch_IsDone s).2) = done_cpu_ (mem s).
Proof.
  split; [done|]. split.
  { intros logits s' Hrun. by apply SetLogits_frame in Hrun as (_ & _ & -> & _). }
  split.
  { intros min_length s' Hrun. unfold MinLength in Hrun.
    destruct (_ >=? _); [by injection Hrun as <-|].
    by apply MinLength_loop_done in Hrun. }
  split; [done|]. split; [|done].
  intros s' Hrun. destruct (NextTokensFromLogits_returns _ _ Hrun) as [Hnb Hh].
  rewrite (NextTokensFromLogits_run s Hnb Hh) in Hrun. by injection Hrun as <-.
Qed.

(** X13.  The outcomes of [BeamSearch_Cuda::NextTokensFromLogits]: it
    returns exactly when there are at most 32 beams and the device is
    healthy; with at most 32 beams on a failed device it stops at the
    synchronization with a device error; with more than 32 beams it stops
    at the assertion whatever the state of the device. *)
Theorem NextTokensFromLogits_outcome s :
  ((∃ s', BeamSearch_NextTokensFromLogits s = Ok s')
   ↔ num_beams (params_ s) ≤ 32 ∧ healthy (cuda_stream s) = true)
  ∧ (num_beams (params_ s) ≤ 32 → healthy (cuda_stream s) = false →
     BeamSearch_NextTokensFromLogits s = Fatal CudaFailed)
  ∧ (32 < num_beams (params_ s) →
     BeamSearch_NextTokensFromLogits s = Fatal AssertFailed).
Proof.
  split; [split|split].
  - intros [s' Hrun]. by apply NextTokensFromLogits_returns in Hrun.
  - intros [Hnb Hh]. rewrite (NextTokensFromLogits_run s Hnb Hh). by eexists.
  - intros Hnb Hh. unfold BeamSearch_NextTokensFromLogits.
    cbn [params_ LaunchAddProbsKernel run_kernel on_stream on_mem].
    destruct (Z.leb_spec (num_beams (params_ s)) 32); [|lia].
    cbn [mbind outcome_bind]. unfold cudaStreamSynchronize, CudaCheck. cbn.
    by rewrite Hh.
  - intros Hnb. unfold BeamSearch_NextTokensFromLogits.
    cbn [params_ LaunchAddProbsKernel run_kernel on_stream on_mem].
    destruct (Z.leb_spec (num_beams (params_ s)) 32); [lia|done].
Qed.

(** X14.  After [BeamSearch_Cuda::NextTokensFromLogits] the next tokens of
    the search are those of the scorer, so that [CheckForEOS] looks at what
    [GetNextTokens] returns.  The call keeps the parameters and the
    end-of-sequence flags, leaves the beam scores added to the score
    matrix, and calls [Process] once. *)
Theorem NextTokensFromLogits_effects s s' :
  BeamSearch_NextTokensFromLogits s = Ok s' →
  next_tokens_ (mem s') = BeamSearch_GetNextTokens s'
  ∧ params_ s' = params_ s
  ∧ eos_meet_ (mem s') = eos_meet_ (mem s)
  ∧ next_token_scores_ (mem s') = scores_with_beams s
  ∧ length (process_calls s') = S (length (process_calls s)).
Proof.
  intros Hrun. destruct (NextTokensFromLogits_returns _ _ Hrun) as [Hnb Hh].
  rewrite (NextTokensFromLogits_run s Hnb Hh) in Hrun. injection Hrun as <-.
  cbn. rewrite length_app. cbn. repeat split; try done. lia.
Qed.

(** X15.  A greedy search fresh from its constructor, with one beam and a
    healthy device, goes through a whole step when it is fed one position
    per slot, and is then ready for the next step. *)
Theorem fresh_greedy_search_steps (u : Fresh) params stream sequences logits :
  params_ok params → num_beams params = 1 → healthy stream = true →
  Z.of_nat (length logits) = BatchBeamSize params * vocab_size params →
  let s := GreedySearch_Cuda_new u params stream sequences in
  greedy_ok s
  ∧ ∃ s', GreedySearch_step logits s = Ok s'
          ∧ greedy_ok s'
          ∧ params_ s' = params
          ∧ GetSequenceLength s' = GetSequenceLength s + 1.
Proof.
  intros Hp Hone Hh Hsize s.
  assert (greedy_ok s) as Hok.
  { split; [|exact Hh|].
    - destruct (Search_Cuda_new_ok u params stream sequences Hp) as [Hp' Hlen].
      split; [exact Hp'|exact Hlen].
    - cbn. rewrite !cudaMemsetAsync_length, !CudaMallocArray_length.
      unfold BatchBeamSize. rewrite Hone. f_equal. lia. }
  split; [exact Hok|].
  destruct (GreedySearch_step_returns logits s Hok Hsize) as (s' & Hrun & Hok' & Hp').
  exists s'. split; [exact Hrun|]. split; [exact Hok'|]. split; [exact Hp'|].
  by apply GreedySearch_step_length in Hrun as (_ & Hlen & _).
Qed.

End FlagFacts.

(** ** Well-formedness is kept *)

Section InvariantFacts.
Context `{Externals ScoreType}.

Local Abbreviation Search_Cuda := (Search_Cuda ScoreType).

Implicit Types (s : Search_Cuda) (logits : list ScoreType).

Lemma SetLogits_loop_size (L : Z) logits (n : nat) : ∀ (i : Z) s (cur : Z) s' cur',
  for_loop n i (SetLogits_slot L logits) (s, cur) = Ok (s', cur') →
  length (next_token_scores_ (mem s')) = length (next_token_scores_ (mem s)).
Proof.
  induction n as [|n IH]; intros i s cur s' cur' Hrun; cbn in Hrun.
  - by injection Hrun as <- <-.
  - unfold cudaMemcpyAsync, CudaCheck in Hrun.
    destruct (healthy (cuda_stream s)); [|done]. cbn in Hrun.
    apply IH in Hrun as ->. cbn. by rewrite !write_at_length.
Qed.

Lemma MinLength_loop_size (n : nat) : ∀ (i : Z) s s',
  for_loop n i
    (λ i s,
       beam_token_scores ← GetScores i s;
       Ok (on_mem (λ m, with_scores
                           (span_store (next_token_scores_ m) beam_token_scores
                              (eos_token_id (params_ s)) lowest) m) s))
    s = Ok s' →
  params_ s' = params_ s
  ∧ length (next_token_scores_ (mem s')) = length (next_token_scores_ (mem s)).
Proof.
  induction n as [|n IH]; intros i s s' Hrun; cbn in Hrun.
  - by injection Hrun as <-.
  - unfold GetScores, assert in Hrun.
    destruct (_ && _); cbn in Hrun; [|done].
    apply IH in Hrun as [-> ->]. cbn. split; [done|]. apply length_insert.
Qed.


End InvariantFacts.

(** ** The Java convenience class *)

Section SimpleGenAIFacts.
Import SimpleGenAI.
Variable c : Collaborators.

Lemma fresh_not_live (w : World) : world_ok w → fresh w ∉ live w.
Proof. intros Hw Hh. specialize (Hw _ Hh). lia. Qed.

Lemma open_then_close (w : World) :
  world_ok w → ({[fresh w]} ∪ live w) ∖ {[fresh w]} = live w.
Proof.
  intros Hw. pose proof (fresh_not_live w Hw) as Hf. apply set_eq. intros h.
  rewrite elem_of_difference, elem_of_union, !elem_of_singleton.
  split; [intros [[->|?] ?]; done|]. intros Hh. split; [by right|by intros ->].
Qed.

Lemma open_keeps_order (w : World) (told_now : list string) :
  world_ok w →
  world_ok {| live := {[fresh w]} ∪ live w; fresh := S (fresh w); heard := told_now |}.
Proof.
  intros Hw h. cbn. rewrite elem_of_union, elem_of_singleton.
  intros [->|Hh]; [lia|]. specialize (Hw h Hh). lia.
Qed.

Lemma token_loop_spec (steps : list step) (w : World) :
  let '(r, w') := token_loop c steps w in
  live w' = live w ∧ fresh w' = fresh w
  ∧ heard w' = heard w ++ (told c steps).1
  ∧ (r = Returns tt ↔ (told c steps).2 = true).
Proof.
  revert w. induction steps as [|[token_id|e] steps IH]; intros w.
  - cbn. by rewrite app_nil_r.
  - cbn. unfold mbind, J_bind, call, accept.
    destruct (stream_decode c token_id) as [token|e|message].
    + destruct (listener_accept c token) as [message|]; [done|].
      specialize (IH {| live := live w; fresh := fresh w;
                        heard := heard w ++ [token] |}).
      destruct (token_loop c steps _) as [r w']. destruct (told c steps) as [tokens complete].
      cbn in *. destruct IH as (-> & -> & -> & IH). by rewrite <- app_assoc.
    + cbn. by rewrite app_nil_r.
    + cbn. by rewrite app_nil_r.
  - cbn. by rewrite app_nil_r.
Qed.


Lemma token_loop_failure (steps : list step) (w : World) :
  match outcome_failure (token_loop c steps w).1 with
  | None => Forall (passes c) steps
  | Some f =>
      ∃ before st after,
        steps = before ++ st :: after
        ∧ Forall (passes c) before
        ∧ step_failure c st = Some f
  end.
Proof.
  revert w. induction steps as [|st steps IH]; intros w; [by cbn|].
  destruct (step_failure c st) as [f|] eqn:Hst.
  - assert (outcome_failure (token_loop c (st :: steps) w).1 = Some f) as ->.
    { destruct st as [token_id|e]; cbn in *; [|congruence].
      unfold mbind, J_bind, call, accept.
      destruct (stream_decode c token_id) as [token|e|message]; cbn in *;
        [|congruence..].
      destruct (listener_accept c token); cbn in *; [congruence|done]. }
    exists [], st, steps. done.
  - destruct st as [token_id|e]; [|done]. cbn in Hst |- *.
    unfold mbind, J_bind, call, accept.
    destruct (stream_decode c token_id) as [token|e|message] eqn:Hdec; [|done..].
    destruct (listener_accept c token) eqn:Hacc; [done|].
    match goal with |- context [token_loop c steps ?w0] => specialize (IH w0) end.
    assert (passes c (Token token_id)) as Hpass.
    { unfold passes. cbn. by rewrite Hdec, Hacc. }
    destruct (outcome_failure (token_loop c steps _).1) as [f|].
    + destruct IH as (before & st & after & -> & Hbefore & Hfail).
      exists (Token token_id :: before), st, after. by repeat constructor.
    + by constructor.
Qed.

(** X18.  What the caller of [generate] sees of a failure.  A
    [GenAIException] is wrapped in one with the message "Failed to create
    Tokenizer."; if it arose between the creation of the stream and
    [getSequence], it is first wrapped in "Token generation loop failed.".
    The innermost cause is the first failure of a collaborator, in the
    order of the calls.  An unchecked exception, such as one thrown by the
    listener, passes both [catch] clauses unwrapped. *)
Theorem generate_failure_message (listener : bool) (w w' : World)
    (r : java string) (f : failure) :
  SimpleGenAI.generate c listener w = (r, w') →
  outcome_failure r = Some f →
  ∃ origin,
    (if listener
     then
       block_failure c origin
       ∧ f = rethrown "Failed to create Tokenizer."
               (rethrown "Token generation loop failed." origin)
       ∨ (∃ output_ids,
            tokenizer_createStream c = None ∧ new_Generator c = None
            ∧ Forall (passes c) (generator_steps c)
            ∧ generator_getSequence c = Returns output_ids
            ∧ outcome_failure (tokenizer_decode c output_ids) = Some origin)
         ∧ f = rethrown "Failed to create Tokenizer." origin
     else
       ((∃ e, model_generate c = Some e ∧ origin = Checked e)
        ∨ model_generate c = None
          ∧ (outcome_failure (sequences_getSequence c) = Some origin
             ∨ ∃ output_ids,
                 sequences_getSequence c = Returns output_ids
                 ∧ outcome_failure (tokenizer_decode c output_ids) = Some origin))
       ∧ f = rethrown "Failed to create Tokenizer." origin).
Proof.
  unfold SimpleGenAI.generate, try_catch, try_with, mbind, J_bind, create, call,
    throw, close, block_failure.
  destruct listener.
  - destruct (tokenizer_createStream c) as [e1|]; cbn.
    { intros [= <- <-] [= <-]. exists (Checked e1). left. split; [|done].
      left. by exists e1. }
    destruct (new_Generator c) as [e2|]; cbn.
    { intros [= <- <-] [= <-]. exists (Checked e2). left. split; [|done].
      right. split; [done|]. left. by exists e2. }
    match goal with |- context [token_loop c ?l ?w0] =>
      pose proof (token_loop_failure l w0) as Hloop;
      destruct (token_loop c l w0) as [[[]|e3|m3] w3] end; cbn in Hloop |- *.
    + destruct (generator_getSequence c) as [output_ids|e4|m4] eqn:Hseq; cbn.
      * destruct (tokenizer_decode c output_ids) as [text|e5|m5] eqn:Hdec;
          intros [= <- <-] [= <-].
        -- exists (Checked e5). right. split; [|done]. exists output_ids.
           by rewrite Hdec.
        -- exists (Unchecked m5). right. split; [|done]. exists output_ids.
           by rewrite Hdec.
      * intros [= <- <-] [= <-]. exists (Checked e4). left. split; [|done].
        right. split; [done|]. right. split; [done|]. right. done.
      * intros [= <- <-] [= <-]. exists (Unchecked m4). left. split; [|done].
        right. split; [done|]. right. split; [done|]. right. done.
    + intros [= <- <-] [= <-]. exists (Checked e3). left. split; [|done].
      right. split; [done|]. right. split; [done|]. left. done.
    + intros [= <- <-] [= <-]. exists (Unchecked m3). left. split; [|done].
      right. split; [done|]. right. split; [done|]. left. done.
  - destruct (model_generate c) as [e1|]; cbn.
    { intros [= <- <-] [= <-]. exists (Checked e1). split; [|done]. left.
      by exists e1. }
    destruct (sequences_getSequence c) as [output_ids|e2|m2] eqn:Hseq; cbn.
    + destruct (tokenizer_decode c output_ids) as [text|e3|m3] eqn:Hdec;
        intros [= <- <-] [= <-].
      * exists (Checked e3). split; [|done]. right. split; [done|]. right.
        exists output_ids. by rewrite Hdec.
      * exists (Unchecked m3). split; [|done]. right. split; [done|]. right.
        exists output_ids. by rewrite Hdec.
    + intros [= <- <-] [= <-]. exists (Checked e2). split; [|done]. right.
      split; [done|]. by left.
    + intros [= <- <-] [= <-]. exists (Unchecked m2). split; [|done]. right.
      split; [done|]. by left.
Qed.

(** X19.  [generate] with a listener leaves no native object open, on
    success and on every failure: the stream and the generator it creates
    are closed again.  Once both exist, the listener is told exactly the
    decoded tokens of the steps before the first failure, in order; if one
    of them cannot be created it is told nothing.  The call returns a text
    only if every step went through, and the text is then the decoding of
    the generator's whole sequence. *)
Theorem generate_with_listener (w : World) :
  world_ok w →
  ∀ r w',
    SimpleGenAI.generate c true w = (r, w') →
    live w' = live w ∧ world_ok w'
    ∧ (if decide (tokenizer_createStream c = None ∧ new_Generator c = None)
       then heard w' = heard w ++ (told c (generator_steps c)).1
       else heard w' = heard w)
    ∧ (∀ text, r = Returns text →
         tokenizer_createStream c = None ∧ new_Generator c = None
         ∧ (told c (generator_steps c)).2 = true
         ∧ ∃ output_ids,
             generator_getSequence c = Returns output_ids
             ∧ tokenizer_decode c output_ids = Returns text).
Proof.
  intros Hw r w'.
  unfold SimpleGenAI.generate, try_catch, try_with, mbind, J_bind, create, call,
    throw, close.
  destruct (tokenizer_createStream c) as [e1|]; cbn.
  { intros [= <- <-]. rewrite decide_False by (by intros [? _]). done. }
  destruct (new_Generator c) as [e2|]; cbn.
  { intros [= <- <-]. rewrite decide_False by (by intros [_ ?]). cbn.
    handles Hw. }
  rewrite decide_True by done.
  match goal with |- context [token_loop c ?l ?w0] =>
    pose proof (token_loop_spec l w0) as Hloop;
    destruct (token_loop c l w0) as [[[]|e3|m3] w3] end;
  cbn in Hloop; destruct Hloop as (Hlive & Hfresh & Hheard & Hcomplete); cbn.
  all: assert (live w3 ∖ {[S (fresh w)]} ∖ {[fresh w]} = live w
               ∧ world_ok {| live := live w3 ∖ {[S (fresh w)]} ∖ {[fresh w]};
                             fresh := fresh w3; heard := heard w3 |})
         as [Hclosed Hok] by (rewrite Hlive, Hfresh; handles Hw).
  - destruct (generator_getSequence c) as [output_ids|e4|m4] eqn:Hseq; cbn.
    + destruct (tokenizer_decode c output_ids) as [text|e5|m5] eqn:Hdec;
        intros [= <- <-]; cbn; (split; [done|]); (split; [done|]); (split; [done|]).
      * intros ? [= <-]. repeat split; [by apply Hcomplete|]. by exists output_ids.
      * done.
      * done.
    + intros [= <- <-]. cbn. done.
    + intros [= <- <-]. cbn. done.
  - intros [= <- <-]. cbn. done.
  - intros [= <- <-]. cbn. done.
Qed.

(** X20.  [generate] without a listener never closes the [Sequences]
    object that [model.generate] returns: when [model.generate] succeeds,
    that object is still open after the call, whether the call returns the
    text or throws.  When [model.generate] fails, nothing new is open.  No
    listener is told anything. *)
Theorem generate_without_listener (w : World) :
  world_ok w →
  ∀ r w',
    SimpleGenAI.generate c false w = (r, w') →
    heard w' = heard w ∧ world_ok w'
    ∧ match model_generate c with
      | None => (fresh w ∉ live w) ∧ live w' = {[fresh w]} ∪ live w
      | Some _ => live w' = live w
      end
    ∧ (∀ text, r = Returns text →
         ∃ output_ids,
           sequences_getSequence c = Returns output_ids
           ∧ tokenizer_decode c output_ids = Returns text).
Proof.
  intros Hw r w'.
  unfold SimpleGenAI.generate, try_catch, try_with, mbind, J_bind, create, call,
    throw, close.
  destruct (model_generate c) as [e1|]; cbn.
  { intros [= <- <-]. done. }
  assert (world_ok {| live := {[fresh w]} ∪ live w; fresh := S (fresh w);
                      heard := heard w |}) as Hok by handles Hw.
  pose proof (fresh_not_live w Hw) as Hfresh.
  destruct (sequences_getSequence c) as [output_ids|e2|m2] eqn:Hseq; cbn.
  - destruct (tokenizer_decode c output_ids) as [text|e3|m3] eqn:Hdec;
      intros [= <- <-]; cbn; (split; [done|]); (split; [done|]); (split; [done|]).
    + intros ? [= <-]. by exists output_ids.
    + done.
    + done.
  - intros [= <- <-]. done.
  - intros [= <- <-]. done.
Qed.

End SimpleGenAIFacts.

(** * The further properties on the small searches *)

Lemma beam_params_ok : params_ok beam_params.
Proof. split; vm_compute; congruence. Qed.

Lemma topk_scratch_fills_buffer_witness :
  topk_tokens_2nd_stage (topk_scratch beam_params) + candidate_count beam_params
  = topk_buffer_size beam_params.
Proof.
  pose proof (topk_scratch_fills_buffer beam_params eq_refl eq_refl
                ltac:(vm_compute; congruence)) as Hfill.
  cbv zeta in Hfill. destruct Hfill as (_ & _ & _ & _ & _ & _ & Hend & _). lia.
Defined.

Lemma GreedySearch_needs_one_beam_witness :
  (∃ s', CheckForEOS
           (GreedySearch_NextTokensFromLogits
              (GreedySearch_Cuda_new stale_memory greedy_params idle_stream
                 (prompt 2))) = Ok s')
  ∧ CheckForEOS
      (GreedySearch_NextTokensFromLogits
         (GreedySearch_Cuda_new stale_memory beam_params idle_stream (prompt 2)))
    = Fatal AssertFailed.
Proof.
  split.
  - apply (GreedySearch_needs_one_beam stale_memory greedy_params idle_stream
             (prompt 2) greedy_params_ok). reflexivity.
  - apply (GreedySearch_needs_one_beam stale_memory beam_params idle_stream
             (prompt 2) beam_params_ok). reflexivity.
Defined.

Lemma BeamSearch_Cuda_new_spec_witness :
  BeamSearch_Cuda_new stale_memory greedy_params idle_stream (prompt 2) beam_scorer
  = Fatal AssertFailed
  ∧ ∃ s, BeamSearch_Cuda_new stale_memory beam_params idle_stream (prompt 2)
           beam_scorer = Ok s
         ∧ beam_search_ok s.
Proof.
  split.
  - apply (BeamSearch_Cuda_new_spec stale_memory greedy_params idle_stream
             (prompt 2) beam_scorer greedy_params_ok). vm_compute. congruence.
  - destruct (BeamSearch_Cuda_new_spec stale_memory beam_params idle_stream
                (prompt 2) beam_scorer beam_params_ok) as [_ Hnew].
    destruct Hnew as (s & Hrun & Hok & _); [reflexivity|].
    exists s. split; [exact Hrun|exact Hok].
Defined.

Lemma beam_search_usable_beams_witness :
  ∃ s', BeamSearch_Cuda_new stale_memory beam_params idle_stream (prompt 2)
          beam_scorer
        ≫= BeamSearch_NextTokensFromLogits = Ok s'.
Proof.
  apply (beam_search_usable_beams stale_memory beam_params idle_stream (prompt 2)
           beam_scorer eq_refl).
  vm_compute. split; congruence.
Defined.

Lemma SetLogits_overwrites_witness :
  ∃ s', SetLogits one_position greedy_search = Ok s'
        ∧ next_token_scores_ (mem s')
          = concat ((λ i, log_softmax (take 2 (drop (i * 2) one_position)))
                      <$> seq 0 2).
Proof.
  exact (SetLogits_overwrites one_position greedy_search greedy_search_ok
           eq_refl eq_refl).
Defined.

Lemma SetLogits_frame_and_stream_witness :
  ∃ s', SetLogits one_position greedy_search = Ok s'
        ∧ sequences_ s' = sequences_ greedy_search
        ∧ in_flight (cuda_stream s')
          = [K_memcpy; K_log_softmax; K_memcpy; K_log_softmax].
Proof.
  assert (∃ s', SetLogits one_position greedy_search = Ok s') as [s' Hrun]
    by (vm_compute; eexists; reflexivity).
  exists s'. split; [exact Hrun|].
  destruct (SetLogits_frame_and_stream one_position greedy_search s' Hrun)
    as (_ & Hseq & _ & _ & _ & _ & Hflight).
  split; [exact Hseq|exact Hflight].
Defined.

Lemma SetLogits_outcome_witness :
  (∃ s', SetLogits one_position greedy_search = Ok s')
  ∧ ¬ ∃ s', SetLogits two_positions greedy_search = Ok s'.
Proof.
  pose proof (SetLogits_outcome one_position greedy_search greedy_params_ok)
    as [Hone _].
  pose proof (SetLogits_outcome two_positions greedy_search greedy_params_ok)
    as [Htwo _].
  split.
  - apply Hone. split; reflexivity.
  - intros Hrun. apply Htwo in Hrun. destruct Hrun as [Hfits _].
    vm_compute in Hfits. congruence.
Defined.

Lemma MinLength_idempotent_witness :
  ∃ s', MinLength 3 greedy_search = Ok s' ∧ MinLength 3 s' = Ok s'.
Proof.
  assert (∃ s', MinLength 3 greedy_search = Ok s') as [s' Hrun]
    by (vm_compute; eexists; reflexivity).
  exists s'. split; [exact Hrun|].
  exact (MinLength_idempotent 3 greedy_search s' greedy_search_ok greedy_eos_ok
           Hrun).
Defined.

Lemma SetLogits_then_MinLength_witness :
  ∃ s1 s2, SetLogits one_position greedy_search ≫= Synchronize = Ok s1
           ∧ MinLength 3 s1 = Ok s2
           ∧ score_at s2 1 0 = Some lowest
           ∧ score_at s2 1 1 = Some (log_softmax_at [4; 3] 1).
Proof.
  destruct (SetLogits_then_MinLength one_position 3 greedy_search
              greedy_search_ok greedy_eos_ok eq_refl eq_refl eq_refl)
    as (s1 & s2 & Hrun & _ & Hmin & _ & Hscores).
  exists s1, s2. split; [exact Hrun|]. split; [exact Hmin|]. split.
  - apply (Hscores 1 0); vm_compute; split; congruence.
  - apply (Hscores 1 1); vm_compute; split; congruence.
Defined.

Lemma GetScores_rows_tile_witness :
  span_read (next_token_scores_ (mem greedy_search)) (GetScores_all greedy_search)
  = [3; 4; 6; 5]
  ∧ ∀ row next, GetScores 0 greedy_search = Ok row →
                GetScores 1 greedy_search = Ok next →
                span_data next = span_data row + span_size row.
Proof.
  destruct (GetScores_rows_tile greedy_search greedy_search_ok)
    as (Hall & _ & Hnext).
  split; [exact Hall|]. intros row next. apply (Hnext 0).
Defined.

Lemma Append_done_flag_witness :
  done_cpu_ (mem (GreedySearch_AppendNextTokensToSequences greedy_search))
  = done_cpu_ (mem greedy_search)
    || (GetSequenceLength greedy_search + 1 =? max_length (params_ greedy_search)).
Proof. exact (proj1 (Append_done_flag greedy_search)). Defined.

Lemma done_flag_untouched_witness :
  done_cpu_ (mem (GreedySearch_Cuda_new stale_memory greedy_params idle_stream
                    (prompt 2))) = true
  ∧ done_cpu_ (mem (GreedySearch_NextTokensFromLogits greedy_search))
    = done_cpu_ (mem greedy_search).
Proof.
  destruct (done_flag_untouched stale_memory greedy_search)
    as (Hnew & _ & _ & Hnext & _).
  split; [apply Hnew|exact Hnext].
Defined.

Lemma NextTokensFromLogits_outcome_witness :
  (∃ s', BeamSearch_NextTokensFromLogits beam_search = Ok s')
  ∧ BeamSearch_NextTokensFromLogits wide_search = Fatal AssertFailed.
Proof.
  split.
  - apply (NextTokensFromLogits_outcome beam_search). vm_compute.
    split; congruence.
  - apply (NextTokensFromLogits_outcome wide_search). reflexivity.
Defined.

Lemma NextTokensFromLogits_effects_witness :
  ∃ s', BeamSearch_NextTokensFromLogits beam_search = Ok s'
        ∧ next_tokens_ (mem s') = BeamSearch_GetNextTokens s'
        ∧ length (process_calls s') = 1%nat.
Proof.
  assert (∃ s', BeamSearch_NextTokensFromLogits beam_search = Ok s') as [s' Hrun]
    by (vm_compute; eexists; reflexivity).
  exists s'. split; [exact Hrun|].
  destruct (NextTokensFromLogits_effects beam_search s' Hrun)
    as (Htokens & _ & _ & _ & Hcalls).
  split; [exact Htokens|exact Hcalls].
Defined.

Lemma fresh_greedy_search_steps_witness :
  ∃ s', GreedySearch_step one_position
          (GreedySearch_Cuda_new stale_memory greedy_params idle_stream (prompt 2))
        = Ok s'
        ∧ GetSequenceLength s' = 3.
Proof.
  destruct (fresh_greedy_search_steps stale_memory greedy_params idle_stream
              (prompt 2) one_position greedy_params_ok eq_refl eq_refl eq_refl)
    as (_ & s' & Hrun & _ & _ & Hlen).
  exists s'. split; [exact Hrun|exact Hlen].
Defined.


Section SimpleGenAIExamples.
Import SimpleGenAI.

Lemma start_ok : world_ok start.
Proof. intros h Hh. cbn in Hh. by apply not_elem_of_empty in Hh. Qed.


Lemma generate_failure_message_witness :
  ∃ origin,
    outcome_failure (SimpleGenAI.generate broken_chat true start).1
    = Some (rethrown "Failed to create Tokenizer." origin).
Proof.
  destruct (generate_failure_message broken_chat true start
              (SimpleGenAI.generate broken_chat true start).2
              (SimpleGenAI.generate broken_chat true start).1
              (Checked
                 (GenAIWrapped "Failed to create Tokenizer."
                    (GenAIWrapped "Token generation loop failed."
                       (GenAIError "out of memory"))))
              eq_refl eq_refl) as [origin [[_ Hf]|[_ Hf]]].
  - exists (rethrown "Token generation loop failed." origin). by rewrite <-Hf.
  - exists origin. by rewrite <-Hf.
Defined.

Lemma generate_with_listener_witness :
  live (SimpleGenAI.generate chat true start).2 = live start
  ∧ heard (SimpleGenAI.generate chat true start).2 = ["a"; "b"].
Proof.
  destruct (generate_with_listener chat start start_ok (Returns "ab")
              (SimpleGenAI.generate chat true start).2 eq_refl)
    as (Hlive & _ & Hheard & _).
  split; [exact Hlive|exact Hheard].
Defined.

Lemma generate_without_listener_witness :
  live (SimpleGenAI.generate chat false start).2 = {[0%nat]} ∪ live start.
Proof.
  destruct (generate_without_listener chat start start_ok (Returns "ab")
              (SimpleGenAI.generate chat false start).2 eq_refl)
    as (_ & _ & [_ Hlive] & _).
  exact Hlive.
Defined.

End SimpleGenAIExamples.
